(** * VMTranslator: a shallow embedding of the Hack VM translator

    The development follows [VMTranslator.py]: the line parser, the
    preassembler with its function table and reachability worklist, the
    optimizer (accessor inlining and the windowed peephole rewrites) and the
    parts of the code generator that carry emitter state. *)

From Stdlib Require Import ZArith Ascii String List Lia Bool.
From Stdlib Require Import DecimalString.
From Stdlib Require DecimalPos.
From stdpp Require Import base option list gmap strings.

Local Open Scope string_scope.
Local Open Scope Z_scope.

(** ** Python values used by the translator *)

(** A command argument is a Python [str] or a Python [int]. *)
Inductive arg : Type :=
  | AStr (s : string)
  | AInt (z : Z).

#[global] Instance arg_eq_dec : EqDecision arg.
Proof. solve_decision. Defined.

(** [str(z)] for a Python int. *)
Definition str_of_int (z : Z) : string :=
  NilZero.string_of_int (Z.to_int z).

(** [str(arg)] *)
Definition str (a : arg) : string :=
  match a with
  | AStr s => s
  | AInt z => str_of_int z
  end.

(** [sep.join(parts)] *)
Fixpoint join (sep : string) (parts : list string) : string :=
  match parts with
  | [] => ""
  | [p] => p
  | p :: rest => p +:+ sep +:+ join sep rest
  end.

(** [s.startswith(p)] *)
Fixpoint startswith (p s : string) : bool :=
  match p, s with
  | EmptyString, _ => true
  | String _ _, EmptyString => false
  | String a p', String b s' => Ascii.eqb a b && startswith p' s'
  end.

(** ** class Command *)
Record Command : Type := mkCommand {
  command : string;
  args : list arg
}.

#[global] Instance Command_eq_dec : EqDecision Command.
Proof. solve_decision. Defined.

(** [Command.symbolic] *)
Definition symbolic (c : Command) : string :=
  join " " (command c :: map str (args c)).

(** ** Regular expressions, as far as the translator's patterns use them *)

Inductive regex : Type :=
  | RNone                       (* matches nothing *)
  | REps                        (* the empty string *)
  | RChar (a : ascii)           (* a literal character *)
  | RDot                        (* [.]: any character but a newline *)
  | RSeq (r1 r2 : regex)
  | RAlt (r1 r2 : regex)        (* [r1|r2] *)
  | RStar (r : regex).          (* [r*] *)

Fixpoint nullable (r : regex) : bool :=
  match r with
  | RNone => false
  | REps => true
  | RChar _ => false
  | RDot => false
  | RSeq r1 r2 => nullable r1 && nullable r2
  | RAlt r1 r2 => nullable r1 || nullable r2
  | RStar _ => true
  end.

Definition newline : ascii := ascii_of_nat 10.

(** Brzozowski derivative of [r] by the character [a]. *)
Fixpoint deriv (a : ascii) (r : regex) : regex :=
  match r with
  | RNone => RNone
  | REps => RNone
  | RChar c => if Ascii.eqb a c then REps else RNone
  | RDot => if Ascii.eqb a newline then RNone else REps
  | RSeq r1 r2 =>
      RAlt (RSeq (deriv a r1) r2) (if nullable r1 then deriv a r2 else RNone)
  | RAlt r1 r2 => RAlt (deriv a r1) (deriv a r2)
  | RStar r1 => RSeq (deriv a r1) (RStar r1)
  end.

(** [re.match(r, s)] as a truth value: some prefix of [s] is in the language
    of [r] (the match is anchored at the start only). *)
Fixpoint re_match (s : string) (r : regex) : bool :=
  nullable r ||
  match s with
  | EmptyString => false
  | String a s' => re_match s' (deriv a r)
  end.

(** A pattern without metacharacters. *)
Fixpoint lit (p : string) : regex :=
  match p with
  | EmptyString => REps
  | String c p' => RSeq (RChar c) (lit p')
  end.

(** [.*] *)
Definition dotstar : regex := RStar RDot.

(** [p.*] for a literal [p] *)
Definition lit_any (p : string) : regex := RSeq (lit p) dotstar.

(** ** Exceptions

    Python exceptions that the modelled code can raise, and the result of a
    computation that may raise one. *)

Inductive exn : Type :=
  | IndexError
  | KeyError (key : arg)
  | ValueError (literal : string)   (* invalid literal for int() with base 10 *)
  | AttributeError (member : string)
  | TypeError
  | NameError (name : string)
  | OSError (path : string)
  | OutOfFuel.   (* not a Python exception: a loop of the model ran out of
                    fuel; the theorems show that this never happens *)

Inductive result (A : Type) : Type :=
  | Ok (a : A)
  | Raise (e : exn).
Arguments Ok {A} a.
Arguments Raise {A} e.

Definition rbind {A B : Type} (m : result A) (k : A -> result B) : result B :=
  match m with
  | Ok a => k a
  | Raise e => Raise e
  end.

Notation "'let*' x ':=' m 'in' k" := (rbind m (fun x => k))
  (at level 10, x name, m at level 100, k at level 200).
Notation "'let*' ' p ':=' m 'in' k" :=
  (rbind m (fun x => match x with p => k end))
  (at level 10, p strict pattern, m at level 100, k at level 200).

Definition is_ok {A : Type} (m : result A) : Prop := exists a, m = Ok a.

Definition is_okb {A : Type} (m : result A) : bool :=
  match m with Ok _ => true | Raise _ => false end.

(** [xs[i]] on a tuple or list, for [i >= 0]. *)
Definition py_index {A : Type} (xs : list A) (i : nat) : result A :=
  match xs !! i with
  | Some x => Ok x
  | None => Raise IndexError
  end.

(** ** Sliding-window replacement *)

Section Window.
Context {A : Type}.
Variable n : nat.
Variable matches : list A -> bool.
Variable sub : list A -> result (list A).

(** The [while] loop of [window_replace]: [result] is the current window,
    [it] what the iterator has not yielded yet.  Every iteration takes at
    least one element from [result ++ it], so a fuel of one more than its
    length is never used up (see [window_loop_fuel]). *)
Fixpoint window_loop (fuel : nat) (window it : list A) : result (list A) :=
  match fuel with
  | O => Raise OutOfFuel
  | S fuel' =>
      if Nat.eqb (length window) n then
        if matches window then
          let* out := sub window in
          let* rest := window_loop fuel' (take n it) (drop n it) in
          Ok (app out rest)
        else
          match window with
          | [] => Raise IndexError
          | r0 :: tl =>
              let* rest := window_loop fuel' (app tl (take 1 it)) (drop 1 it) in
              Ok (r0 :: rest)
          end
      else Ok window
  end.

Definition window_replace (seq : list A) : result (list A) :=
  window_loop (S (length seq)) (take n seq) (drop n seq).
End Window.

(** ** Pattern matching over commands *)

(** [match_code(expr, commands, exclude)] *)
Definition match_code (expr : list regex) (commands : list Command)
    (exclude : option (list Command -> bool)) : bool :=
  if negb (Nat.eqb (length expr) (length commands)) then false
  else if forallb (fun pc => re_match (symbolic pc.2) pc.1) (zip expr commands)
  then match exclude with
       | None => true
       | Some ex => negb (ex commands)
       end
  else false.

(** [rewrite(expr, commands, replace, exclude)] *)
Definition rewrite (expr : list regex) (commands : list Command)
    (replace : list Command -> result (list Command))
    (exclude : option (list Command -> bool)) : result (list Command) :=
  window_replace (length expr) (fun w => match_code expr w exclude) replace
    commands.

(** The patterns of the optimizer, written out as regular expressions. *)
Definition cmp_pattern : regex :=             (* (eq|lt|gt|lte|gte) *)
  RAlt (lit "eq") (RAlt (lit "lt") (RAlt (lit "gt")
    (RAlt (lit "lte") (lit "gte")))).

(** [w[i]] and [w[i].args[j]] inside a replacement lambda. *)
Definition w_at (w : list Command) (i : nat) : result Command := py_index w i.
Definition w_arg (w : list Command) (i j : nat) : result arg :=
  let* c := w_at w i in py_index (args c) j.

(** [lambda w: w[i].args != w[j].args]; the window has the pattern's width
    when the lambda is called. *)
Definition args_differ (i j : nat) (w : list Command) : bool :=
  match w !! i, w !! j with
  | Some a, Some b => bool_decide (args a <> args b)
  | _, _ => false
  end.

Definition Cmd (op : string) (a : list arg) : Command := mkCommand op a.

(** ** class Optimizer: the peephole pass *)

(** One [rewrite] call of [Optimizer.optimize]: the pattern, the replacement
    lambda and the exclusion lambda, if there is one. *)
Record rule : Type := mkRule {
  expr : list regex;
  replace : list Command -> result (list Command);
  exclude : option (list Command -> bool)
}.

(** Whether the rule fires on the window [w]. *)
Definition fires (r : rule) (w : list Command) : bool :=
  match_code (expr r) w (exclude r).

Definition apply_rule (r : rule) (commands : list Command)
  : result (list Command) :=
  rewrite (expr r) commands (replace r) (exclude r).

(* push constant not -> push constant~ *)
Definition rule_push_constant_not : rule :=
  mkRule [lit_any "push constant "; lit "not"]
    (fun w => let* k := w_arg w 0 1 in Ok [Cmd "push" [AStr "constant~"; k]])
    None.

(* push constant neg -> push constant- *)
Definition rule_push_constant_neg : rule :=
  mkRule [lit_any "push constant "; lit "neg"]
    (fun w => let* k := w_arg w 0 1 in Ok [Cmd "push" [AStr "constant-"; k]])
    None.

(* push constant 0 add -> noop *)
Definition rule_add_zero : rule :=
  mkRule [lit "push constant 0"; lit "add"] (fun w => Ok []) None.

(* push constant 0 not => true *)
Definition rule_true : rule :=
  mkRule [lit "push constant 0"; lit "not"]
    (fun w => Ok [Cmd "push" [AStr "constant~"; AInt 0]]) None.

(* lt not => gte *)
Definition rule_lt_not : rule :=
  mkRule [lit "lt"; lit "not"] (fun w => Ok [Cmd "gte" []]) None.

(* gt not => lte *)
Definition rule_gt_not : rule :=
  mkRule [lit "gt"; lit "not"] (fun w => Ok [Cmd "lte" []]) None.

(* rewrite if x ? c (for constant c) *)
Definition rule_compare_goto : rule :=
  mkRule [lit_any "push "; cmp_pattern; lit_any "if-goto "]
    (fun w =>
       let* w1 := w_at w 1 in
       let* seg := w_arg w 0 0 in
       let* i := w_arg w 0 1 in
       let* l := w_arg w 2 0 in
       Ok [Cmd ("if-" +:+ command w1 +:+ "-goto") [seg; i; l]])
    None.

(* push pop -> ldd sdd *)
Definition rule_push_pop : rule :=
  mkRule [lit_any "push "; lit_any "pop "]
    (fun w =>
       let* w0 := w_at w 0 in
       let* w1 := w_at w 1 in
       Ok [Cmd "ldd" (args w0); Cmd "sdd" (args w1)])
    None.

(* push inline-call pop -> ldd inline-call sdd *)
Definition rule_push_inline_pop : rule :=
  mkRule [lit_any "push "; lit_any "inline-call "; lit_any "pop "]
    (fun w =>
       let* w0 := w_at w 0 in
       let* w1 := w_at w 1 in
       let* w2 := w_at w 2 in
       Ok [Cmd "ldd" (args w0); w1; Cmd "sdd" (args w2)])
    None.

(* pop push -> tee *)
Definition rule_tee : rule :=
  mkRule [lit_any "pop "; lit_any "push "]
    (fun w => let* w0 := w_at w 0 in Ok [Cmd "tee" (args w0)])
    (Some (args_differ 0 1)).

(* if-goto goto label *)
Definition rule_if_goto_not : rule :=
  mkRule [lit_any "if-goto "; lit_any "goto "; lit_any "label "]
    (fun w => let* w1 := w_at w 1 in Ok [Cmd "if-goto-not" (args w1)])
    (Some (args_differ 0 2)).

(** The rewrites of [Optimizer.optimize], in the order they are applied. *)
Definition rules : list rule :=
  [ rule_push_constant_not; rule_push_constant_neg; rule_add_zero; rule_true;
    rule_lt_not; rule_gt_not; rule_compare_goto; rule_push_pop;
    rule_push_inline_pop; rule_tee; rule_if_goto_not ].

Fixpoint apply_rules (rs : list rule) (commands : list Command)
  : result (list Command) :=
  match rs with
  | [] => Ok commands
  | r :: rest =>
      let* commands := apply_rule r commands in apply_rules rest commands
  end.

(** [Optimizer.optimize], on the command list of the function: each rewrite
    works on the output of the one before. *)
Definition optimize_commands (commands : list Command)
  : result (list Command) :=
  apply_rules rules commands.

(** ** class Parser *)

(** [str.isspace] and the class [\s], on ASCII characters. *)
Definition is_space (c : ascii) : bool :=
  let k := nat_of_ascii c in
  ((9 <=? k) && (k <=? 13) || (28 <=? k) && (k <=? 32))%nat.

(** [re.sub('//.*$', '', line)]: a line read from a text file holds no
    newline except as its last character, so the pattern matches from the
    first [//] on. *)
Fixpoint strip_comment (line : string) : string :=
  match line with
  | EmptyString => EmptyString
  | String c rest =>
      match rest with
      | String c' _ =>
          if Ascii.eqb c "/" && Ascii.eqb c' "/" then EmptyString
          else String c (strip_comment rest)
      | EmptyString => String c EmptyString
      end
  end.

Fixpoint lstrip (s : string) : string :=
  match s with
  | EmptyString => EmptyString
  | String c rest => if is_space c then lstrip rest else s
  end.

Fixpoint rstrip (s : string) : string :=
  match s with
  | EmptyString => EmptyString
  | String c rest =>
      match rstrip rest with
      | EmptyString => if is_space c then EmptyString else String c EmptyString
      | r => String c r
      end
  end.

(** [line.strip()] *)
Definition strip (s : string) : string := rstrip (lstrip s).

(** [re.sub('\s+', ' ', line)]; [in_run] tells that the previous character
    was white space, already replaced. *)
Fixpoint collapse_spaces (in_run : bool) (s : string) : string :=
  match s with
  | EmptyString => EmptyString
  | String c rest =>
      if is_space c then
        if in_run then collapse_spaces true rest
        else String " " (collapse_spaces true rest)
      else String c (collapse_spaces false rest)
  end.

(** [line.split(' ')] *)
Fixpoint split_space (s : string) : list string :=
  match s with
  | EmptyString => [EmptyString]
  | String c rest =>
      if Ascii.eqb c " " then EmptyString :: split_space rest
      else match split_space rest with
           | [] => [String c EmptyString]
           | t :: ts => String c t :: ts
           end
  end.

Definition digit_value (c : ascii) : option Z :=
  let k := nat_of_ascii c in
  if ((48 <=? k) && (k <=? 57))%nat then Some (Z.of_nat k - 48) else None.

(** The digits of an integer literal: at least one digit, single underscores
    between digits only. *)
Fixpoint int_digits (acc : Z) (after_digit : bool) (s : string) : option Z :=
  match s with
  | EmptyString => if after_digit then Some acc else None
  | String c rest =>
      match digit_value c with
      | Some d => int_digits (10 * acc + d) true rest
      | None =>
          if Ascii.eqb c "_" && after_digit then int_digits acc false rest
          else None
      end
  end.

(** [int(token)] on an ASCII token without white space, of no more digits
    than the interpreter converts (see [plain_line] below). *)
Definition py_int (token : string) : result Z :=
  let r :=
    match token with
    | String "+" rest => int_digits 0 false rest
    | String "-" rest => Z.opp <$> int_digits 0 false rest
    | _ => int_digits 0 false token
    end in
  match r with
  | Some z => Ok z
  | None => Raise (ValueError token)
  end.

(** The tokens of a line: [None] for a line that is empty once the comment
    and the surrounding white space are gone. *)
Definition components_of (line : string) : option (list string) :=
  let line := strip (strip_comment line) in
  if Nat.eqb (String.length line) 0 then None
  else Some (split_space (collapse_spaces false line)).

(** The [if]/[elif] chain of [Parser.__next__]: [Ok None] when no branch
    returns and the loop goes on to the next line. *)
Definition command_of_components (components : list string)
  : result (option Command) :=
  match components with
  | [c0] => Ok (Some (Cmd c0 []))
  | [c0; c1] => Ok (Some (Cmd c0 [AStr c1]))
  | [c0; c1; c2] =>
      let* i2 := py_int c2 in Ok (Some (Cmd c0 [AStr c1; AInt i2]))
  | [c0; c1; c2; c3] =>
      let* i2 := py_int c2 in let* i3 := py_int c3 in
      Ok (Some (Cmd c0 [AStr c1; AInt i2; AInt i3]))
  | [c0; c1; c2; c3; c4] =>
      let* i2 := py_int c2 in let* i4 := py_int c4 in
      Ok (Some (Cmd c0 [AStr c1; AInt i2; AStr c3; AInt i4]))
  | _ => Ok None
  end.

(** One round of the [while True] loop of [Parser.__next__] on one line. *)
Definition parse_line (line : string) : result (option Command) :=
  match components_of line with
  | None => Ok None
  | Some components => command_of_components components
  end.

(** ** Plain text

    [is_space] and [py_int] read ASCII characters: on other characters
    [str.strip], the class [\s] and [int] follow the Unicode tables.  The
    interpreters that limit decimal conversions also make [int] and [str]
    refuse a text of more than 4300 digits.  On a plain line the
    definitions above are what the parser does: ASCII characters only, and
    at most 4300 of them, so that no integer literal of the line and no
    number computed from one comes near the limit. *)
Fixpoint ascii_text (s : string) : bool :=
  match s with
  | EmptyString => true
  | String c rest => (nat_of_ascii c <? 128)%nat && ascii_text rest
  end.

Definition plain_line (line : string) : bool :=
  ascii_text line && (String.length line <=? 4300)%nat.

(** ** class Function *)

(** [dependencies] is a [set] when the function is created and a [list] once
    the inlining pass has run.  A set is kept as the list of its elements in
    the order they were added; the order in which Python iterates over it is
    not this one (see [set_iter] below). *)
Inductive pycoll : Type :=
  | PySet (elems : list arg)
  | PyList (elems : list arg).

Definition elems_of (c : pycoll) : list arg :=
  match c with PySet l => l | PyList l => l end.

(** [s.add(x)] *)
Definition set_add (x : arg) (s : list arg) : list arg :=
  if decide (x ∈ s) then s else app s [x].

Record Function : Type := mkFunction {
  filename : string;
  function_name : arg;
  commands : list Command;
  dependencies : pycoll
}.

(** [command.command in ['call', 'call-ext']] *)
Definition is_call (c : Command) : bool :=
  bool_decide (command c = "call") || bool_decide (command c = "call-ext").

(** [command.command in ['function', 'function-ext']] *)
Definition is_function_decl (c : Command) : bool :=
  bool_decide (command c = "function") ||
  bool_decide (command c = "function-ext").

(** [Function.append] *)
Definition Function_append (f : Function) (c : Command) : result Function :=
  let cs := app (commands f) [c] in
  if is_call c then
    let* callee := py_index (args c) 0 in
    match dependencies f with
    | PySet s => Ok (mkFunction (filename f) (function_name f) cs
                       (PySet (set_add callee s)))
    | PyList _ => Raise (AttributeError "add")
    end
  else Ok (mkFunction (filename f) (function_name f) cs (dependencies f)).

(** ** class ASMTranslator *)

Record ASMTranslator : Type := mkTranslator {
  t_filename : arg;
  t_function_name : arg;
  call_index : Z;
  label_index : Z
}.

(** [ASMTranslator.__init__] *)
Definition ASMTranslator_init : ASMTranslator :=
  mkTranslator (AStr "") (AStr "") 0 0.

(** A method of the translator: from the emitter state and the arguments of
    the command to the instructions and the new emitter state. *)
Definition lowering : Type :=
  ASMTranslator -> list arg -> result (list string * ASMTranslator).

(** ['%d' % x]: an [int] is printed, a [str] is a type error. *)
Definition fmt_d (x : arg) : result string :=
  match x with
  | AInt z => Ok (str_of_int z)
  | AStr _ => Raise TypeError
  end.

(** An argument used where Python needs an [int] ([5 + x], [x < 8],
    [range(0, x)], an index). *)
Definition as_int (x : arg) : result Z :=
  match x with
  | AInt z => Ok z
  | AStr _ => Raise TypeError
  end.

(** An argument placed in the instruction list as it is: [out.write] takes a
    [str] and raises a [TypeError] on an [int]. *)
Definition as_instruction (x : arg) : result string :=
  match x with
  | AStr s => Ok s
  | AInt _ => Raise TypeError
  end.

Definition _temp_register : Z := 5.

Definition _memory_segments : list (string * string) :=
  [("local", "LCL"); ("argument", "ARG"); ("this", "THIS"); ("that", "THAT")].

Definition _pointer_registers : list string := ["THIS"; "THAT"].

Fixpoint lookup_assoc {V : Type} (k : string) (l : list (string * V)) : option V :=
  match l with
  | [] => None
  | (k', v) :: rest => if decide (k = k') then Some v else lookup_assoc k rest
  end.

(** [segment in _memory_segments], with the register when it holds. *)
Definition memory_segment (segment : arg) : option string :=
  match segment with
  | AStr s => lookup_assoc s _memory_segments
  | AInt _ => None
  end.

Definition temp_register (i : arg) : result string :=
  let* z := as_int i in Ok ("@" +:+ str_of_int (_temp_register + z)).

(** [_pointer_registers[i]]: a negative index counts from the end. *)
Definition pointer_register (i : arg) : result string :=
  let* z := as_int i in
  let k := if z <? 0 then z + 2 else z in
  if (0 <=? k) && (k <? 2) then
    let* r := py_index _pointer_registers (Z.to_nat k) in Ok ("@" +:+ r)
  else Raise IndexError.

Definition memory_segment_address (register : string) : string :=
  "@" +:+ register.

Definition static_address (t : ASMTranslator) (i : arg) : result string :=
  let* d := fmt_d i in Ok ("@" +:+ str (t_filename t) +:+ "." +:+ d).

Definition label_address (t : ASMTranslator) (label : arg) : string :=
  "@" +:+ str (t_function_name t) +:+ "$" +:+ str label.

Definition label_label (t : ASMTranslator) (label : arg) : string :=
  "(" +:+ str (t_function_name t) +:+ "$" +:+ str label +:+ ")".

Definition function_call_address (function_name : arg) : string :=
  "@" +:+ str function_name.

Definition function_declaration_label (t : ASMTranslator) : string :=
  "(" +:+ str (t_function_name t) +:+ ")".

Definition next_return_address_label (t : ASMTranslator)
  : (string * string) * ASMTranslator :=
  let label :=
    str (t_function_name t) +:+ "$ret." +:+ str_of_int (call_index t) in
  (("@" +:+ label, "(" +:+ label +:+ ")"),
   mkTranslator (t_filename t) (t_function_name t)
     (call_index t + 1) (label_index t)).

Definition next_address_label (t : ASMTranslator) (name : string)
  : (string * string) * ASMTranslator :=
  let label :=
    str (t_filename t) +:+ "." +:+ name +:+ "." +:+ str_of_int (label_index t)
  in
  (("@" +:+ label, "(" +:+ label +:+ ")"),
   mkTranslator (t_filename t) (t_function_name t)
     (call_index t) (label_index t + 1)).

(** Calling a method with the wrong number of arguments. *)
Definition arity0 (body : ASMTranslator -> result (list string * ASMTranslator))
  : lowering :=
  fun t a => match a with [] => body t | _ => Raise TypeError end.
Definition arity1
    (body : ASMTranslator -> arg -> result (list string * ASMTranslator))
  : lowering :=
  fun t a => match a with [x] => body t x | _ => Raise TypeError end.
Definition arity2
    (body : ASMTranslator -> arg -> arg ->
            result (list string * ASMTranslator))
  : lowering :=
  fun t a => match a with [x; y] => body t x y | _ => Raise TypeError end.
Definition arity3
    (body : ASMTranslator -> arg -> arg -> arg ->
            result (list string * ASMTranslator))
  : lowering :=
  fun t a => match a with [x; y; z] => body t x y z | _ => Raise TypeError end.

(** A method that only reads the emitter state. *)
Definition pure_ (t : ASMTranslator) (r : result (list string))
  : result (list string * ASMTranslator) :=
  let* l := r in Ok (l, t).

Definition _add : list string := ["@SP"; "AM=M-1"; "D=M"; "A=A-1"; "M=D+M"].
Definition _sub : list string := ["@SP"; "AM=M-1"; "D=M"; "A=A-1"; "M=M-D"].
Definition _neg : list string := ["@SP"; "A=M-1"; "M=-M"].
Definition _and : list string := ["@SP"; "AM=M-1"; "D=M"; "A=A-1"; "M=M&D"].
Definition _or : list string := ["@SP"; "AM=M-1"; "D=M"; "A=A-1"; "M=M|D"].
Definition _not : list string := ["@SP"; "A=M-1"; "M=!M"].

Definition _eq (t : ASMTranslator) : list string * ASMTranslator :=
  let '((address, label), t) := next_address_label t "JEQ" in
  (["@SP"; "AM=M-1"; "D=M"; "A=A-1"; "D=M-D"; address; "D; JEQ"; "D=-1";
    label; "@SP"; "A=M-1"; "M=!D"], t).

(** [_lt], [_lte], [_gt] and [_gte] differ in the jump only. *)
Definition compare (jump : string) (t : ASMTranslator)
  : list string * ASMTranslator :=
  let '((address, label), t) := next_address_label t jump in
  (["@SP"; "AM=M-1"; "D=M"; "A=A-1"; "D=M-D"; address; "D=D; " +:+ jump;
    "A=A+1"; "D=0; JMP"; label; "D=-1"; "@SP"; "A=M-1"; "M=D"], t).
Definition _lt := compare "JLT".
Definition _lte := compare "JLE".
Definition _gt := compare "JGT".
Definition _gte := compare "JGE".

(** [k == i] for an [int] literal [k] *)
Definition int_is (k : Z) (i : arg) : bool := bool_decide (i = AInt k).
(** ['name' == segment] *)
Definition seg_is (name : string) (segment : arg) : bool :=
  bool_decide (segment = AStr name).

(** load d register *)
Definition _ldd (t : ASMTranslator) (segment i : arg) : result (list string) :=
  if seg_is "constant" segment then
    if int_is 0 i then Ok ["D=0"]
    else if int_is 1 i then Ok ["D=1"]
    else let* d := fmt_d i in Ok ["@" +:+ d; "D=A"]
  else if seg_is "constant~" segment then
    let* d := fmt_d i in Ok ["@" +:+ d; "D=!A"]
  else if seg_is "constant-" segment then
    let* d := fmt_d i in Ok ["@" +:+ d; "D=-A"]
  else if seg_is "static" segment then
    let* a := static_address t i in Ok [a; "D=M"]
  else if seg_is "temp" segment then
    let* a := temp_register i in Ok [a; "D=M"]
  else if seg_is "pointer" segment then
    let* a := pointer_register i in Ok [a; "D=M"]
  else match memory_segment segment with
       | Some r =>
           if int_is 0 i then Ok [memory_segment_address r; "A=M"; "D=M"]
           else if int_is 1 i then
             Ok [memory_segment_address r; "A=M+1"; "D=M"]
           else
             let* d := fmt_d i in
             Ok [memory_segment_address r; "D=M"; "@" +:+ d; "A=D+A"; "D=M"]
       | None => Ok ["???"]
       end.

Definition _push (t : ASMTranslator) (segment i : arg) : result (list string) :=
  let* '(value, op) :=
    if seg_is "constant" segment then
      if int_is 0 i then Ok ([], "M=0")
      else if int_is 1 i then Ok ([], "M=1")
      else let* d := fmt_d i in Ok (["@" +:+ d; "D=A"], "M=D")
    else let* v := _ldd t segment i in Ok (v, "M=D") in
  Ok (app value ["@SP"; "AM=M+1"; "A=A-1"; op]).

(** store contents of d register in segment *)
Definition _sdd (t : ASMTranslator) (segment i : arg) (op : string)
  : result (list string) :=
  if seg_is "static" segment then
    let* a := static_address t i in Ok [a; op]
  else if seg_is "temp" segment then
    let* a := temp_register i in Ok [a; op]
  else if seg_is "pointer" segment then
    let* a := pointer_register i in Ok [a; op]
  else match memory_segment segment with
       | Some r =>
           if int_is 0 i then Ok [memory_segment_address r; "A=M"; op]
           else
             let* z := as_int i in
             if z <? 10 then
               Ok (app [memory_segment_address r; "A=M+1"]
                     (app (replicate (Z.to_nat (z - 1)) "A=A+1") [op]))
             else
               Ok ["@R14"; "M=D"; memory_segment_address r; "D=M";
                   "@" +:+ str_of_int z; "D=D+A"; "@R13"; "M=D"; "@R14";
                   "D=M"; "@R13"; "A=M"; op]
       | None => Ok ["???"]
       end.

Definition _pop (t : ASMTranslator) (segment i : arg) : result (list string) :=
  let* s := _sdd t segment i "M=D" in Ok (app ["@SP"; "AM=M-1"; "D=M"] s).

Definition _tee (t : ASMTranslator) (segment i : arg) : result (list string) :=
  let* s := _sdd t segment i "M=D" in Ok (app ["@SP"; "A=M-1"; "D=M"] s).

Definition _label (t : ASMTranslator) (label : arg) : list string :=
  [label_label t label].

Definition _goto (t : ASMTranslator) (label : arg) : list string :=
  [label_address t label; "0; JMP"].

(** [_if_eq_goto], [_if_lt_goto], [_if_lte_goto], [_if_gt_goto] and
    [_if_gte_goto] (defined twice, with the same body) differ in the jump
    only. *)
Definition if_compare_goto (jump : string) (t : ASMTranslator)
    (segment i label : arg) : result (list string) :=
  let* '(load, op) :=
    if seg_is "constant" segment then
      if int_is 0 i then Ok ([], "D=M")
      else if int_is 1 i then Ok ([], "D=M-1")
      else let* d := fmt_d i in Ok (["@" +:+ d; "D=A"], "D=M-D")
    else let* v := _ldd t segment i in Ok (v, "D=M-D") in
  Ok (app load ["@SP"; "AM=M-1"; op; label_address t label; "D; " +:+ jump]).
Definition _if_eq_goto := if_compare_goto "JEQ".
Definition _if_lt_goto := if_compare_goto "JLT".
Definition _if_lte_goto := if_compare_goto "JLE".
Definition _if_gt_goto := if_compare_goto "JGT".
Definition _if_gte_goto := if_compare_goto "JGE".

Definition _if_goto (t : ASMTranslator) (label : arg) : list string :=
  ["@SP"; "AM=M-1"; "D=M"; label_address t label; "D; JNE"].

Definition _if_goto_not (t : ASMTranslator) (label : arg) : list string :=
  ["@SP"; "AM=M-1"; "D=M"; label_address t label; "D; JEQ"].

(** The part of [_function] and [_function_ext] that zeroes the locals. *)
Definition zero_locals (setup : list string) (vars : arg)
  : result (list string) :=
  if int_is 0 vars then Ok setup
  else
    let* v := as_int vars in
    Ok (app setup
         (app ["@SP"; "A=M"]
            (app (concat (replicate (Z.to_nat v) ["M=0"; "AD=A+1"]))
               ["@SP"; "M=D"]))).

Definition set_function_name (t : ASMTranslator) (function_name : arg)
  : ASMTranslator :=
  mkTranslator (t_filename t) function_name (call_index t) (label_index t).

(** function that saves its caller stack *)
Definition _function_ext (t : ASMTranslator) (function_name vars nargs : arg)
  : result (list string * ASMTranslator) :=
  let '((address, label), t) := next_return_address_label t in
  let t := set_function_name t function_name in
  let* setup :=
    if bool_decide (function_name <> AStr "Sys.init") then
      let* a := as_int nargs in
      Ok (app [function_declaration_label t]
            ["@R13"; "M=D"; "@" +:+ str_of_int (5 + a); "D=A"; "@R14"; "M=D";
             address; "D=A"; "@save_stack"; "0; JMP"; label])
    else Ok [function_declaration_label t] in
  let* l := zero_locals setup vars in
  Ok (l, t).

Definition _function (t : ASMTranslator) (function_name vars : arg)
  : result (list string * ASMTranslator) :=
  let t := set_function_name t function_name in
  let* l := zero_locals [function_declaration_label t] vars in
  Ok (l, t).

Definition _push_register (address : arg) : result (list string) :=
  let* a := as_instruction address in
  Ok [a; "D=M"; "@SP"; "AM=M+1"; "A=A-1"; "M=D"].

Fixpoint _push_registers (addresses : list arg) : result (list string) :=
  match addresses with
  | [] => Ok []
  | a :: rest =>
      let* l := _push_register a in
      let* ls := _push_registers rest in
      Ok (app l ls)
  end.

Definition _pop_register_lcl (address : arg) : result (list string) :=
  let* a := as_instruction address in
  Ok ["@LCL"; "AM=M-1"; "D=M"; a; "M=D"].

Fixpoint _pop_registers_lcl (addresses : list arg) : result (list string) :=
  match addresses with
  | [] => Ok []
  | a :: rest =>
      let* l := _pop_register_lcl a in
      let* ls := _pop_registers_lcl rest in
      Ok (app l ls)
  end.

Definition _call (t : ASMTranslator) (function_name nargs : arg)
  : result (list string * ASMTranslator) :=
  let '((address, label), t) := next_return_address_label t in
  let* a := as_int nargs in
  Ok ([function_call_address function_name; "D=A"; "@R13"; "M=D";
       "@" +:+ str_of_int (5 + a); "D=A"; "@R14"; "M=D"; address; "D=A";
       "@save_stack"; "0; JMP"; label], t).

Definition _call_ext (t : ASMTranslator) (function_name : arg)
  : result (list string * ASMTranslator) :=
  let '((address, label), t) := next_return_address_label t in
  Ok ([address; "D=A"; function_call_address function_name; "0; JMP"; label],
      t).

Definition saved_registers : list string :=
  concat (map (fun a => [a; "D=M"; "@SP"; "AM=M+1"; "A=A-1"; "M=D"])
            ["@LCL"; "@ARG"; "@THIS"; "@THAT"]).

Definition _save_stack (t : ASMTranslator) : list string * ASMTranslator :=
  let '(_, t) := next_address_label t "save_stack" in
  (app ["(save_stack)"; "@R15"; "M=D"; "@R13"; "D=M"; "@SP"; "AM=M+1";
        "A=A-1"; "M=D"]
     (app saved_registers
        ["@SP"; "D=M"; "@R14"; "D=D-M"; "@ARG"; "M=D"; "@SP"; "D=M"; "@LCL";
         "M=D"; "@R15"; "A=M"; "0; JMP"]), t).

Definition restored_registers : list string :=
  concat (map (fun a => ["@LCL"; "AM=M-1"; "D=M"; a; "M=D"])
            ["@THAT"; "@THIS"; "@ARG"; "@LCL"]).

Definition _pop_stack : list string :=
  app ["(pop_stack)"; "@LCL"; "D=M"; "@5"; "A=D-A"; "D=M"; "@R13"; "M=D";
       "@SP"; "A=M-1"; "D=M"; "@ARG"; "A=M"; "M=D"; "D=A+1"; "@SP"; "M=D"]
    (app restored_registers ["@R13"; "A=M"; "0; JMP"]).

Definition _return : list string := ["@pop_stack"; "0; JMP"].

(** vm init *)
Definition _init_vm (t : ASMTranslator) : list string * ASMTranslator :=
  let '(_, t) := next_address_label t "init_vm" in
  let '(save, t) := _save_stack t in
  (app ["@256"; "D=A"; "@SP"; "M=D";
        function_call_address (AStr "Sys.init"); "0; JMP"]
     (app save _pop_stack), t).

(** meta op - pushes new file/function scope for inline calls *)
Definition _inline_call (t : ASMTranslator) (filename function_name : arg)
  : ASMTranslator :=
  mkTranslator filename function_name (call_index t) (label_index t).

Definition _inline_return (t : ASMTranslator) (filename function_name : arg)
  : ASMTranslator :=
  mkTranslator filename function_name (call_index t) (label_index t).

(** drop the top of the stack *)
Definition _drop : list string := ["@SP"; "AM=M-1"].

(** write to address *)
Definition _sto (t : ASMTranslator) (segment i : arg) (op : string)
  : result (list string) :=
  if seg_is "constant" segment then
    let* d := fmt_d i in Ok ["@" +:+ d; op]
  else if seg_is "static" segment then
    let* a := static_address t i in Ok [a; "A=M"; op]
  else match memory_segment segment with
       | Some r =>
           if int_is 0 i then Ok [memory_segment_address r; "A=M"; "A=M"; op]
           else if int_is 1 i then
             Ok [memory_segment_address r; "A=M+1"; "A=M"; op]
           else Ok ["???"]
       | None => Ok ["???"]
       end.

(** [_inc] and [_dec]: increment or decrement a segment by step; [sign] is
    ["+"] or ["-"]. *)
Definition step_segment (sign : string) (t : ASMTranslator)
    (segment i step : arg) : result (list string) :=
  let* st := as_int step in
  let '(value, op) :=
    if 1 <? st then (["@" +:+ str_of_int st; "D=A"], "M=M" +:+ sign +:+ "D")
    else ([], "M=M" +:+ sign +:+ "1") in
  if seg_is "static" segment then
    let* a := static_address t i in Ok (app value [a; op])
  else if seg_is "temp" segment then
    let* a := temp_register i in Ok (app value [a; op])
  else if seg_is "pointer" segment then
    let* a := pointer_register i in Ok (app value [a; op])
  else match memory_segment segment with
       | Some r =>
           if int_is 0 i then
             Ok (app value [memory_segment_address r; "A=M"; op])
           else if int_is 1 i then
             Ok (app value [memory_segment_address r; "A=M+1"; op])
           else if int_is 1 step then
             let* d := fmt_d i in
             Ok [memory_segment_address r; "D=M"; "@" +:+ d; "A=D+A";
                 "M=M" +:+ sign +:+ "1"]
           else Ok ["???"]
       | None => Ok ["???"]
       end.
Definition _inc := step_segment "+".
Definition _dec := step_segment "-".

(** invert a segment *)
Definition _inv (t : ASMTranslator) (segment i : arg) : result (list string) :=
  if seg_is "static" segment then
    let* a := static_address t i in Ok [a; "M=!M"]
  else if seg_is "temp" segment then
    let* a := temp_register i in Ok [a; "M=!M"]
  else if seg_is "pointer" segment then
    let* a := pointer_register i in Ok [a; "M=!M"]
  else match memory_segment segment with
       | Some r =>
           if int_is 0 i then Ok [memory_segment_address r; "A=M"; "M=!M"]
           else if int_is 1 i then
             Ok [memory_segment_address r; "A=M+1"; "M=!M"]
           else
             let* d := fmt_d i in
             Ok [memory_segment_address r; "D=M"; "@" +:+ d; "A=D+A"; "M=!M"]
       | None => Ok ["???"]
       end.

(** directly copy one segment to another (avoid stack).  [value] and [op]
    are bound only for the three constant segments, and two branches read a
    name, [segment], that the method does not define. *)
Definition _poke (t : ASMTranslator) (to_segment i from_segment j : arg)
  : result (list string) :=
  let* bound :=
    if seg_is "constant" from_segment then
      if int_is 0 j then Ok (Some ([], "M=0"))
      else if int_is 1 j then Ok (Some ([], "M=1"))
      else let* d := fmt_d j in Ok (Some (["@" +:+ d; "D=A"], "M=D"))
    else if seg_is "constant~" from_segment then
      let* d := fmt_d j in Ok (Some (["@" +:+ d; "D=!A"], "M=D"))
    else if seg_is "constant-" from_segment then
      let* d := fmt_d j in Ok (Some (["@" +:+ d; "D=-A"], "M=D"))
    else Ok None in
  let value_op : result (list string * string) :=
    match bound with
    | Some vo => Ok vo
    | None => Raise (NameError "value")
    end in
  if seg_is "constant" to_segment then
    let* '(value, op) := value_op in Ok (app value ["@" +:+ str i; op])
  else if seg_is "static" to_segment then
    let* '(value, op) := value_op in
    let* a := static_address t i in Ok (app value [a; "A=M"; op])
  else match memory_segment to_segment with
       | Some r =>
           if int_is 0 i then
             let* '(value, op) := value_op in
             Ok (app value [memory_segment_address r; "A=M"; "A=M"; op])
           else
             let* z := as_int i in
             if z <? 8 then
               let* '(value, op) := value_op in Raise (NameError "segment")
             else Raise (NameError "segment")
       | None => Ok ["???"]
       end.

(** The methods [getattr] finds on the translator under a name that starts
    with one underscore.  [_sto] and [_sdd] put their third argument into
    the list as it is, in every branch but the last one: an [int] there
    makes [out.write] raise a [TypeError], and the list [['???']] of the
    last branch does not hold it. *)
Definition methods : list (string * lowering) :=
  [ ("_init_vm", arity0 (fun t => Ok (_init_vm t)));
    ("_add", arity0 (fun t => Ok (_add, t)));
    ("_sub", arity0 (fun t => Ok (_sub, t)));
    ("_neg", arity0 (fun t => Ok (_neg, t)));
    ("_eq", arity0 (fun t => Ok (_eq t)));
    ("_lt", arity0 (fun t => Ok (_lt t)));
    ("_lte", arity0 (fun t => Ok (_lte t)));
    ("_gt", arity0 (fun t => Ok (_gt t)));
    ("_gte", arity0 (fun t => Ok (_gte t)));
    ("_and", arity0 (fun t => Ok (_and, t)));
    ("_or", arity0 (fun t => Ok (_or, t)));
    ("_not", arity0 (fun t => Ok (_not, t)));
    ("_push", arity2 (fun t s i => pure_ t (_push t s i)));
    ("_poke", fun t a =>
       match a with
       | [ts; i; fs; j] => pure_ t (_poke t ts i fs j)
       | _ => Raise TypeError
       end);
    ("_ldd", arity2 (fun t s i => pure_ t (_ldd t s i)));
    ("_sto", fun t a =>
       match a with
       | [s; i] => pure_ t (_sto t s i "M=D")
       | [s; i; op] =>
           pure_ t (let* l := _sto t s i (str op) in
                    if decide (l = ["???"]) then Ok l
                    else let* _ := as_instruction op in Ok l)
       | _ => Raise TypeError
       end);
    ("_inc", arity3 (fun t s i st => pure_ t (_inc t s i st)));
    ("_dec", arity3 (fun t s i st => pure_ t (_dec t s i st)));
    ("_inv", arity2 (fun t s i => pure_ t (_inv t s i)));
    ("_drop", arity0 (fun t => Ok (_drop, t)));
    ("_sdd", fun t a =>
       match a with
       | [s; i] => pure_ t (_sdd t s i "M=D")
       | [s; i; op] =>
           pure_ t (let* l := _sdd t s i (str op) in
                    if decide (l = ["???"]) then Ok l
                    else let* _ := as_instruction op in Ok l)
       | _ => Raise TypeError
       end);
    ("_pop", arity2 (fun t s i => pure_ t (_pop t s i)));
    ("_tee", arity2 (fun t s i => pure_ t (_tee t s i)));
    ("_label", arity1 (fun t l => Ok (_label t l, t)));
    ("_goto", arity1 (fun t l => Ok (_goto t l, t)));
    ("_if_eq_goto", arity3 (fun t s i l => pure_ t (_if_eq_goto t s i l)));
    ("_if_lt_goto", arity3 (fun t s i l => pure_ t (_if_lt_goto t s i l)));
    ("_if_lte_goto", arity3 (fun t s i l => pure_ t (_if_lte_goto t s i l)));
    ("_if_gt_goto", arity3 (fun t s i l => pure_ t (_if_gt_goto t s i l)));
    ("_if_gte_goto", arity3 (fun t s i l => pure_ t (_if_gte_goto t s i l)));
    ("_if_goto", arity1 (fun t l => Ok (_if_goto t l, t)));
    ("_if_goto_not", arity1 (fun t l => Ok (_if_goto_not t l, t)));
    ("_function_ext", arity3 _function_ext);
    ("_function", arity2 _function);
    ("_push_registers", fun t a => pure_ t (_push_registers a));
    ("_push_register", arity1 (fun t a => pure_ t (_push_register a)));
    ("_pop_registers_lcl", fun t a => pure_ t (_pop_registers_lcl a));
    ("_pop_register_lcl", arity1 (fun t a => pure_ t (_pop_register_lcl a)));
    ("_call", arity2 _call);
    ("_call_ext", arity1 _call_ext);
    ("_save_stack", arity0 (fun t => Ok (_save_stack t)));
    ("_pop_stack", arity0 (fun t => Ok (_pop_stack, t)));
    ("_return", arity0 (fun t => Ok (_return, t)));
    ("_inline_call", arity2 (fun t f n => Ok ([], _inline_call t f n)));
    ("_inline_return", arity2 (fun t f n => Ok ([], _inline_return t f n))) ].

(** [command.replace('-', '_')] *)
Fixpoint replace_dash (s : string) : string :=
  match s with
  | EmptyString => EmptyString
  | String c rest =>
      String (if Ascii.eqb c "-" then "_"%char else c) (replace_dash rest)
  end.

(** [Command.visit], with the translator as the traversal: the attributes
    that [getattr] finds are the methods above.  A command whose name
    gives a member between double underscores ([-dir--] gives [__dir__])
    reaches an attribute that every Python object has; these are outside
    the model, which answers them with the [AttributeError] of a name
    that is not found. *)
Definition visit (c : Command) (t : ASMTranslator)
  : result (list string * ASMTranslator) :=
  let member := "_" +:+ replace_dash (command c) in
  match lookup_assoc member methods with
  | Some method => method t (args c)
  | None => Raise (AttributeError member)
  end.

(** [ASMTranslator.translate] *)
Definition ASMTranslator_translate (t : ASMTranslator) (c : Command)
  : result (list string * ASMTranslator) := visit c t.

(** ** Writing the output: a list of lines *)

(** [instruction.startswith('(')] *)
Definition is_label_line (instruction : string) : bool :=
  startswith "(" instruction.

(** The loop over the instructions of one command in [Function.translate]:
    the lines written, the global line count and the line count. *)
Fixpoint write_instructions (instructions : list string)
    (global_line_count line_count : Z) : list string * Z * Z :=
  match instructions with
  | [] => ([], global_line_count, line_count)
  | instruction :: rest =>
      if is_label_line instruction then
        let '(out, g, l) :=
          write_instructions rest global_line_count line_count in
        (instruction :: out, g, l)
      else
        let '(out, g, l) :=
          write_instructions rest (global_line_count + 1) (line_count + 1) in
        ((instruction +:+ " // " +:+ str_of_int global_line_count) :: out,
         g, l)
  end.

(** The loop over the commands in [Function.translate]. *)
Fixpoint translate_commands (cs : list Command) (t : ASMTranslator)
    (global_line_count line_count : Z)
  : result (list string * ASMTranslator * Z * Z) :=
  match cs with
  | [] => Ok ([], t, global_line_count, line_count)
  | c :: rest =>
      let* '(instructions, t) := ASMTranslator_translate t c in
      let '(lines, g, l) :=
        write_instructions instructions global_line_count line_count in
      let* '(out, t, g, l) := translate_commands rest t g l in
      Ok (("// " +:+ symbolic c) :: app lines out, t, g, l)
  end.

(** [Function.translate] *)
Definition Function_translate (f : Function) (t : ASMTranslator)
    (global_line_count : Z) : result (list string * ASMTranslator * Z) :=
  let t := mkTranslator (AStr (filename f)) (function_name f)
             (call_index t) (label_index t) in
  let* '(out, t, g, l) := translate_commands (commands f) t
                            global_line_count 0 in
  Ok (app (("// Begin: " +:+ str (function_name f)) :: out)
        ["// End: " +:+ str (function_name f) +:+ " / " +:+ str_of_int l
         +:+ " lines"],
      t, g).

(** ** class Preassembler *)

#[global] Instance arg_countable : Countable arg.
Proof.
  refine (inj_countable'
            (fun a => match a with AStr s => inl s | AInt z => inr z end)
            (fun x => match x with inl s => AStr s | inr z => AInt z end) _).
  intros []; reflexivity.
Defined.

(** The function table: a [dict] from function name to [Function].  The
    objects in it are shared with [current_function]; the model keeps the
    table and refers to the current function by its key, which is the entry
    the object is stored under from its creation on. *)
Record Preassembler : Type := mkPreassembler {
  functions : gmap arg Function;
  current_function : option arg;
  pre_filename : string
}.

(** [Preassembler.__init__], with the [filename] that [translate] sets before
    it parses a file. *)
Definition Preassembler_init : Preassembler :=
  mkPreassembler ∅ None "".

(** [Preassembler.add] *)
Definition Preassembler_add (p : Preassembler) (c : Command)
  : result Preassembler :=
  let* p :=
    if is_function_decl c then
      let* function_name := py_index (args c) 0 in
      Ok (mkPreassembler
            (<[function_name :=
                 mkFunction (pre_filename p) function_name [] (PySet [])]>
               (functions p))
            (Some function_name) (pre_filename p))
    else Ok p in
  match current_function p with
  | None => Raise (AttributeError "append")
  | Some k =>
      match functions p !! k with
      | None => Raise (KeyError k)
      | Some f =>
          let* f := Function_append f c in
          Ok (mkPreassembler (<[k := f]> (functions p)) (Some k)
                (pre_filename p))
      end
  end.

(** The parser loop of [translate] over the lines of one file. *)
Fixpoint add_lines (p : Preassembler) (lines : list string)
  : result Preassembler :=
  match lines with
  | [] => Ok p
  | line :: rest =>
      let* oc := parse_line line in
      match oc with
      | None => add_lines p rest
      | Some c => let* p := Preassembler_add p c in add_lines p rest
      end
  end.

(** ** class Optimizer: the inlining pass *)

Definition is_constant_accessor (f : Function) : bool :=
  match_code [lit_any "function"; lit_any "push constant "; lit "return"]
    (commands f) None.

Definition is_static_accessor (f : Function) : bool :=
  match_code [lit_any "function"; lit_any "push static "; lit "return"]
    (commands f) None.

Definition is_member_accessor (f : Function) : bool :=
  match_code [lit_any "function"; lit "push argument 0"; lit "pop pointer 0";
              lit_any "push this "; lit "return"]
    (commands f) None.

(** [Optimizer.try_inline]; [Ok None] is Python's [None]. *)
Definition try_inline (f : Function) : result (option (list Command)) :=
  if is_constant_accessor f then
    let* c := py_index (commands f) 1 in Ok (Some [c])
  else if is_static_accessor f then
    let* c := py_index (commands f) 1 in Ok (Some [c])
  else if is_member_accessor f then
    let* c := py_index (commands f) 3 in
    let* i := py_index (args c) 1 in
    Ok (Some [Cmd "pop" [AStr "pointer"; AInt 1]; Cmd "push" [AStr "that"; i]])
  else Ok None.

(** The loop of [Optimizer.inline] over the commands of [function]: the new
    command list and the new dependency list. *)
Fixpoint inline_loop (function : Function) (table : gmap arg Function)
    (cs : list Command) : result (list Command * list arg) :=
  match cs with
  | [] => Ok ([], [])
  | c :: rest =>
      if is_call c then
        let* called_function_name := py_index (args c) 0 in
        match table !! called_function_name with
        | None => Raise (KeyError called_function_name)
        | Some inline_function =>
            let* inline_commands := try_inline inline_function in
            match inline_commands with
            | Some body =>
                let* '(cs', deps) := inline_loop function table rest in
                Ok (app [Cmd "inline-call"
                           [AStr (filename inline_function);
                            function_name inline_function]]
                      (app body
                         (Cmd "inline-return"
                            [AStr (filename function);
                             function_name function] :: cs')),
                    deps)
            | None =>
                let* '(cs', deps) := inline_loop function table rest in
                Ok (c :: cs', called_function_name :: deps)
            end
        end
      else
        let* '(cs', deps) := inline_loop function table rest in
        Ok (c :: cs', deps)
  end.

(** [Optimizer.inline]: the function with its new commands and
    dependencies. *)
Definition Optimizer_inline (function : Function) (table : gmap arg Function)
  : result Function :=
  let* '(cs, deps) := inline_loop function table (commands function) in
  Ok (mkFunction (filename function) (function_name function) cs
        (PyList deps)).

(** The call [c] is one that the loop of [Optimizer.inline] gets past: its
    target is in the table, and [try_inline] returns on it. *)
Definition call_resolves (table : gmap arg Function) (c : Command) : Prop :=
  exists (d : arg) (callee : Function),
    args c !! 0%nat = Some d /\ table !! d = Some callee /\
    is_ok (try_inline callee).

(** [Optimizer.optimize] *)
Definition Optimizer_optimize (function : Function) : result Function :=
  let* cs := optimize_commands (commands function) in
  Ok (mkFunction (filename function) (function_name function) cs
        (dependencies function)).

(** ** Reachability and the passes of [translate] *)

(** The sum of the sizes of all dependency collections of the table: the
    worklist of [reachable_functions] never needs more rounds than this plus
    two. *)
Definition dependency_count (f : Function) : nat :=
  length (elems_of (dependencies f)).

Definition total_dependencies (table : gmap arg Function) : nat :=
  sum_list_with (fun kv => dependency_count kv.2) (map_to_list table).

Section Pipeline.
(** The order in which Python iterates over a [set] of strings follows the
    hashes of the strings, which change from one run of the interpreter to
    the next.  [set_iter] is that order, for the set given by the list of
    its elements. *)
Variable set_iter : list arg -> list arg.

(** Iterating over a [dependencies] collection. *)
Definition iter_coll (c : pycoll) : list arg :=
  match c with
  | PySet s => set_iter s
  | PyList l => l
  end.

(** The [while] loop of [Preassembler.reachable_functions].  [frontier] is
    kept with its last element first, so that [frontier.pop()] takes the
    head and [frontier.extend(d)] puts the reversed [d] in front. *)
Fixpoint reach_loop (fuel : nat) (table : gmap arg Function)
    (seen frontier : list arg) : result (list arg) :=
  match fuel with
  | O => Raise OutOfFuel
  | S fuel' =>
      match frontier with
      | [] => Ok seen
      | function_name :: rest =>
          if decide (function_name ∈ seen) then
            reach_loop fuel' table seen rest
          else
            match table !! function_name with
            | None => Raise (KeyError function_name)
            | Some f =>
                reach_loop fuel' table (set_add function_name seen)
                  (app (rev (iter_coll (dependencies f))) rest)
            end
      end
  end.

(** [Preassembler.reachable_functions]: the set [seen], as the list of its
    elements in the order they were added. *)
Definition reachable_functions (table : gmap arg Function)
    (start_function : arg) : result (list arg) :=
  reach_loop (S (S (total_dependencies table))) table [] [start_function].

(** A [for function_name in reachable_functions('Sys.init')] loop whose
    body replaces the function by [pass function table]. *)
Fixpoint for_each_function
    (pass : Function -> gmap arg Function -> result Function)
    (names : list arg) (table : gmap arg Function)
  : result (gmap arg Function) :=
  match names with
  | [] => Ok table
  | function_name :: rest =>
      match table !! function_name with
      | None => Raise (KeyError function_name)
      | Some function =>
          let* function := pass function table in
          for_each_function pass rest (<[function_name := function]> table)
      end
  end.

Definition Sys_init : arg := AStr "Sys.init".

(** The optimizer passes of [translate]. *)
Definition inline_pass (table : gmap arg Function)
  : result (gmap arg Function) :=
  let* names := reachable_functions table Sys_init in
  for_each_function Optimizer_inline (set_iter names) table.

Definition optimize_pass (table : gmap arg Function)
  : result (gmap arg Function) :=
  let* names := reachable_functions table Sys_init in
  for_each_function (fun f _ => Optimizer_optimize f) (set_iter names)
    table.

(** The names that the last loop of [translate] iterates over, in the
    order of the iteration: the functions that are emitted. *)
Definition emitted_names (table : gmap arg Function) : result (list arg) :=
  let* names := reachable_functions table Sys_init in
  Ok (set_iter names).

(** The body of the loop that emits the functions. *)
Fixpoint translate_functions (table : gmap arg Function)
    (names : list arg) (t : ASMTranslator) (global_line_count : Z)
  : result (list string) :=
  match names with
  | [] => Ok []
  | function_name :: rest =>
      match table !! function_name with
      | None => Raise (KeyError function_name)
      | Some function =>
          let* '(out, t, g) :=
            Function_translate function t global_line_count in
          let* outs := translate_functions table rest t g in
          Ok (app out outs)
      end
  end.

(** The preamble of [translate]. *)
Definition emit_preamble (program : string) (init_vm : bool)
  : list string * ASMTranslator * Z :=
  let t := ASMTranslator_init in
  if init_vm then
    let '(instructions, t) := _init_vm t in
    let '(lines, g, _) := write_instructions instructions 0 0 in
    (("// Program: " +:+ program) :: lines, t, g)
  else (["// Program: " +:+ program], t, 0).

(** The operating system, as far as [translate] and the main program use
    it. *)
Record os : Type := mkOs {
  isdir : string -> bool;
  listdir : string -> list string;
  normpath : string -> string;
  basename : string -> string;
  dirname : string -> string;
  splitext : string -> string * string;
  path_join : string -> string -> string;
  (* the lines of a text file, or the failure to open it *)
  read_lines : string -> result (list string)
}.

(** The loop of [translate] that parses the files. *)
Fixpoint preassemble (sys : os) (p : Preassembler) (vm_files : list string)
  : result Preassembler :=
  match vm_files with
  | [] => Ok p
  | vm_file :: rest =>
      let filename := (splitext sys (basename sys vm_file)).1 in
      let p := mkPreassembler (functions p) (current_function p) filename in
      let* lines := read_lines sys vm_file in
      let* p := add_lines p lines in
      preassemble sys p rest
  end.

(** [translate(program, init_vm, vm_files, out)]: the lines written to
    [out]. *)
Definition translate (sys : os) (program : string) (init_vm : bool)
    (vm_files : list string) : result (list string) :=
  let* p := preassemble sys Preassembler_init vm_files in
  let* table := inline_pass (functions p) in
  let* table := optimize_pass table in
  let '(preamble, t, g) := emit_preamble program init_vm in
  let* names := emitted_names table in
  let* body := translate_functions table names t g in
  Ok (app preamble body).



End Pipeline.

(** ** A reference interpreter for the stack arithmetic of the VM

    The stack holds 16-bit words, the top first; a word is kept as the
    signed integer it stands for.  Each opcode does what its lowering does
    to the stack: the comparisons jump on the sign of the 16-bit difference
    [x - y] and leave -1 (true) or 0 (false). *)

Definition wrap16 (z : Z) : Z := (z + 32768) mod 65536 - 32768.

Definition truth (b : bool) : Z := if b then -1 else 0.

Definition ref_binary (f : Z -> Z -> Z) (stack : list Z) : option (list Z) :=
  match stack with
  | y :: x :: rest => Some (f x y :: rest)
  | _ => None
  end.

Definition ref_unary (f : Z -> Z) (stack : list Z) : option (list Z) :=
  match stack with
  | y :: rest => Some (f y :: rest)
  | _ => None
  end.

Definition ref_compare (test : Z -> bool) : list Z -> option (list Z) :=
  ref_binary (fun x y => truth (test (wrap16 (x - y)))).

Definition ref_step (c : Command) (stack : list Z) : option (list Z) :=
  match args c with
  | [] =>
      if decide (command c = "add") then
        ref_binary (fun x y => wrap16 (x + y)) stack
      else if decide (command c = "sub") then
        ref_binary (fun x y => wrap16 (x - y)) stack
      else if decide (command c = "neg") then
        ref_unary (fun y => wrap16 (- y)) stack
      else if decide (command c = "and") then ref_binary Z.land stack
      else if decide (command c = "or") then ref_binary Z.lor stack
      else if decide (command c = "not") then ref_unary Z.lnot stack
      else if decide (command c = "eq") then
        ref_compare (fun d => d =? 0) stack
      else if decide (command c = "lt") then
        ref_compare (fun d => d <? 0) stack
      else if decide (command c = "lte") then
        ref_compare (fun d => d <=? 0) stack
      else if decide (command c = "gt") then
        ref_compare (fun d => 0 <? d) stack
      else if decide (command c = "gte") then
        ref_compare (fun d => 0 <=? d) stack
      else None
  | [AStr segment; AInt k] =>
      if decide (command c = "push") then
        if decide (segment = "constant") then Some (wrap16 k :: stack)
        else if decide (segment = "constant~") then
          Some (Z.lnot (wrap16 k) :: stack)
        else if decide (segment = "constant-") then
          Some (wrap16 (- wrap16 k) :: stack)
        else None
      else None
  | _ => None
  end.

Fixpoint ref_run (cs : list Command) (stack : list Z) : option (list Z) :=
  match cs with
  | [] => Some stack
  | c :: rest =>
      match ref_step c stack with
      | Some stack' => ref_run rest stack'
      | None => None
      end
  end.

(** ** Positional typing of the tokens of a line *)

(** The positions, counted from 1 over all [n] tokens of the line, that
    [Parser.__next__] passes through [int]. *)
Definition int_position (n p : nat) : bool :=
  (p =? 3)%nat || ((p =? 4) && (n =? 4))%nat || (p =? 5)%nat.

(** The command [c] keeps the tokens, with those at the positions picked by
    [int_pos] turned into integers and all others kept as strings. *)
Definition typed_as (int_pos : nat -> bool) (tokens : list string)
    (c : Command) : Prop :=
  tokens !! 0%nat = Some (command c) /\
  length (args c) = (length tokens - 1)%nat /\
  forall (p : nat) (tok : string),
    (2 <= p)%nat -> tokens !! (p - 1)%nat = Some tok ->
    if int_pos p
    then exists z, py_int tok = Ok z /\ args c !! (p - 2)%nat = Some (AInt z)
    else args c !! (p - 2)%nat = Some (AStr tok).

(** The first token, in the order the conversions are made, that [int]
    rejects. *)
Definition first_bad_int (tokens : list string) : option string :=
  let n := length tokens in
  let bad (p : nat) : option string :=
    match tokens !! (p - 1)%nat with
    | Some tok =>
        if int_position n p then
          match py_int tok with Ok _ => None | Raise _ => Some tok end
        else None
    | None => None
    end in
  if (n <=? 5)%nat then
    match bad 3%nat with
    | Some t => Some t
    | None => match bad 4%nat with
              | Some t => Some t
              | None => bad 5%nat
              end
    end
  else None.

(** ** A file system in memory

    Plain POSIX paths over a given list of files, for running the main
    program on concrete inputs. *)

(** Splits [s] at the last [c]. *)
Fixpoint rsplit (c : ascii) (s : string) : option (string * string) :=
  match s with
  | EmptyString => None
  | String a rest =>
      match rsplit c rest with
      | Some (l, r) => Some (String a l, r)
      | None => if Ascii.eqb a c then Some (EmptyString, rest) else None
      end
  end.

Definition posix_basename (path : string) : string :=
  match rsplit "/" path with Some (_, b) => b | None => path end.

Definition posix_dirname (path : string) : string :=
  match rsplit "/" path with Some (d, _) => d | None => "" end.

Definition posix_splitext (path : string) : string * string :=
  match rsplit "." path with
  | Some (EmptyString, _) => (path, "")
  | Some (stem, ext) => (stem, "." +:+ ext)
  | None => (path, "")
  end.

Definition posix_join (a b : string) : string :=
  if decide (a = "") then b else a +:+ "/" +:+ b.

Definition memory_os (files : list (string * list string)) : os :=
  mkOs
    (fun path => bool_decide (Exists (fun f => posix_dirname f.1 = path) files))
    (fun path =>
       map (fun f => posix_basename f.1)
         (filter (fun f => posix_dirname f.1 = path) files))
    id posix_basename posix_dirname posix_splitext posix_join
    (fun path =>
       match lookup_assoc path files with
       | Some lines => Ok lines
       | None => Raise (OSError path)
       end).

(** Every line of every file of the list is plain. *)
Definition plain_files (sys : os) (vm_files : list string) : Prop :=
  Forall (fun vm_file =>
            forall lines, read_lines sys vm_file = Ok lines ->
                          Forall (fun line => plain_line line = true) lines)
    vm_files.

(** ** The invariant of the function table *)

(** The first command of the function is a [function] or [function-ext]
    declaration that names the function. *)
Definition function_invariant (f : Function) : Prop :=
  exists c rest,
    commands f = c :: rest /\
    is_function_decl c = true /\
    args c !! 0%nat = Some (function_name f).

(** Every function of the table satisfies the invariant and is stored under
    its own name. *)
Definition table_invariant (table : gmap arg Function) : Prop :=
  forall k f, table !! k = Some f ->
    function_name f = k /\ function_invariant f.

(** ** Member accessors *)

(** The command sequence of a member accessor that pushes field [i]. *)
Definition member_accessor_body (decl : Command) (i : arg) : list Command :=
  [decl; Cmd "push" [AStr "argument"; AInt 0];
   Cmd "pop" [AStr "pointer"; AInt 0]; Cmd "push" [AStr "this"; i];
   Cmd "return" []].

(** What a call of the member accessor [callee_name], defined in the file
    [callee_filename], becomes in the body of [caller]. *)
Definition inlined_member_call (callee_filename : string) (callee_name : arg)
    (caller : Function) (i : arg) : list Command :=
  [Cmd "inline-call" [AStr callee_filename; callee_name];
   Cmd "pop" [AStr "pointer"; AInt 1]; Cmd "push" [AStr "that"; i];
   Cmd "inline-return" [AStr (filename caller); function_name caller]].

(** A small program: [Sys.init] reads a field through a member accessor and
    calls a function that is not an accessor. *)
Definition example_program : list (string * list string) :=
  [("Main.vm",
    ["function Sys.init 0"; "push constant 3"; "call Point.getx 1";
     "pop temp 0"; "call Main.run 0"; "label LOOP"; "goto LOOP"]);
   ("Point.vm",
    ["function Point.getx 0  // accessor"; "push argument 0";
     "pop pointer 0"; "push this 0"; "return";
     "function Main.run 0"; "push constant 7"; "call Main.twice 1"; "return";
     "function Main.twice 0"; "push argument 0"; "push argument 0"; "add";
     "return";
     "function Main.unused 0"; "call Nowhere.f 0"; "return"])].

(** The example program after preassembly, by hand: the accessor and a
    caller, and the table that holds them. *)
Definition example_callee : Function :=
  mkFunction "Point" (AStr "Point.getx")
    (member_accessor_body (Cmd "function" [AStr "Point.getx"; AInt 0])
       (AInt 0))
    (PySet []).

Definition example_caller : Function :=
  mkFunction "Main" (AStr "Sys.init")
    [Cmd "function" [AStr "Sys.init"; AInt 0];
     Cmd "push" [AStr "constant"; AInt 3];
     Cmd "call" [AStr "Point.getx"; AInt 1];
     Cmd "pop" [AStr "temp"; AInt 0]]
    (PySet [AStr "Point.getx"]).

Definition example_table : gmap arg Function :=
  <[AStr "Point.getx" := example_callee]>
    (<[AStr "Sys.init" := example_caller]> ∅).

Definition example_caller_inlined : Function :=
  mkFunction "Main" (AStr "Sys.init")
    [Cmd "function" [AStr "Sys.init"; AInt 0];
     Cmd "push" [AStr "constant"; AInt 3];
     Cmd "inline-call" [AStr "Point"; AStr "Point.getx"];
     Cmd "pop" [AStr "pointer"; AInt 1];
     Cmd "push" [AStr "that"; AInt 0];
     Cmd "inline-return" [AStr "Main"; AStr "Sys.init"];
     Cmd "pop" [AStr "temp"; AInt 0]]
    (PyList []).

(** ** Return-address labels *)

(** The commands whose lowering calls [next_return_address_label]: [call],
    [call-ext] and [function-ext], under the member name that [visit]
    looks up. *)
Definition allocates_return_label (c : Command) : bool :=
  bool_decide ("_" +:+ replace_dash (command c)
               ∈ ["_function_ext"; "_call"; "_call_ext"]).

Definition count_allocations (cs : list Command) : Z :=
  Z.of_nat (length (filter (fun c => allocates_return_label c = true) cs)).

(** The emitter state after the commands [cs] have been lowered. *)
Fixpoint state_after (cs : list Command) (t : ASMTranslator)
  : result ASMTranslator :=
  match cs with
  | [] => Ok t
  | c :: rest => let* '(_, t) := visit c t in state_after rest t
  end.

(** The emitter state in which [Function.translate] starts on the commands
    of [f]. *)
Definition enter_function (f : Function) (t : ASMTranslator) : ASMTranslator :=
  mkTranslator (AStr (filename f)) (function_name f) (call_index t)
    (label_index t).

(** The return-address label [(name$ret.N)]. *)
Definition return_label (name : arg) (N : Z) : string :=
  let label := str name +:+ "$ret." +:+ str_of_int N in
  "(" +:+ label +:+ ")".

(** The return-address labels allocated by the functions [names]. *)
Fixpoint allocations_of (table : gmap arg Function) (names : list arg) : Z :=
  match names with
  | [] => 0
  | n :: rest =>
      match table !! n with
      | Some f => count_allocations (commands f)
      | None => 0
      end + allocations_of table rest
  end.

(** The emitter state after the functions [names] have been lowered. *)
Fixpoint state_after_functions (table : gmap arg Function) (names : list arg)
    (t : ASMTranslator) : result ASMTranslator :=
  match names with
  | [] => Ok t
  | n :: rest =>
      match table !! n with
      | None => Raise (KeyError n)
      | Some f =>
          let* t := state_after (commands f) (enter_function f t) in
          state_after_functions table rest t
      end
  end.

(** Two functions with one call each, as the optimizer leaves them. *)
Definition example_run : Function :=
  mkFunction "Main" (AStr "Main.run")
    [Cmd "function" [AStr "Main.run"; AInt 0];
     Cmd "push" [AStr "constant"; AInt 7];
     Cmd "call" [AStr "Main.twice"; AInt 1];
     Cmd "return" []]
    (PyList [AStr "Main.twice"]).

Definition example_optimized : gmap arg Function :=
  <[AStr "Main.run" := example_run]>
    (<[AStr "Sys.init" :=
         mkFunction "Main" (AStr "Sys.init")
           [Cmd "function" [AStr "Sys.init"; AInt 0];
            Cmd "call" [AStr "Main.run"; AInt 0];
            Cmd "label" [AStr "LOOP"]; Cmd "goto" [AStr "LOOP"]]
           (PyList [AStr "Main.run"])]> ∅).

(** ** The call graph *)

(** [a] has [b] among its dependencies. *)
Definition calls (table : gmap arg Function) (a b : arg) : Prop :=
  exists f, table !! a = Some f /\ b ∈ elems_of (dependencies f).

(** [b] is reachable from [a] along the dependency edges. *)
Definition reaches (table : gmap arg Function) : arg -> arg -> Prop :=
  rtc (calls table).

(** Every function that is reachable from [start] is in the table. *)
Definition resolved (table : gmap arg Function) (start : arg) : Prop :=
  forall x, reaches table start x -> is_Some (table !! x).

(** The dependencies of the functions of the table that are not in [seen]:
    what the worklist may still have to take in. *)
Definition pending (table : gmap arg Function) (seen : list arg) : nat :=
  sum_list_with
    (fun kv => if decide (kv.1 ∈ seen) then 0%nat else dependency_count kv.2)
    (map_to_list table).

(** The dependencies of [f] hold the target of every call in its body. *)
Definition dependencies_cover (f : Function) : Prop :=
  forall c d, c ∈ commands f -> is_call c = true ->
    args c !! 0%nat = Some d -> d ∈ elems_of (dependencies f).

(** Every function of [table] is in [source] under the same name, with no
    other dependencies than it has there. *)
Definition dependencies_within (source table : gmap arg Function) : Prop :=
  forall k f, table !! k = Some f ->
    exists f0, source !! k = Some f0 /\
      forall d, d ∈ elems_of (dependencies f) ->
                d ∈ elems_of (dependencies f0).

(** ** Runs that differ in the order of set iteration *)


(** The [Function] objects that the last loop of [translate] looks up, in
    the order of the loop. *)
Fixpoint lookup_functions (table : gmap arg Function) (names : list arg)
  : result (list Function) :=
  match names with
  | [] => Ok []
  | n :: rest =>
      match table !! n with
      | None => Raise (KeyError n)
      | Some f => let* fs := lookup_functions table rest in Ok (f :: fs)
      end
  end.

(** The functions that a run of [translate] emits, as the optimizer leaves
    them, in the order of emission. *)
Definition emitted_functions (set_iter : list arg -> list arg) (sys : os)
    (vm_files : list string) : result (list Function) :=
  let* p := preassemble sys Preassembler_init vm_files in
  let* table := inline_pass set_iter (functions p) in
  let* table := optimize_pass set_iter table in
  let* names := emitted_names set_iter table in
  lookup_functions table names.


(** The loop that emits the functions, over the [Function] objects. *)
Fixpoint translate_function_list (fs : list Function) (t : ASMTranslator)
    (global_line_count : Z) : result (list string) :=
  match fs with
  | [] => Ok []
  | f :: rest =>
      let* '(out, t, g) := Function_translate f t global_line_count in
      let* outs := translate_function_list rest t g in
      Ok (app out outs)
  end.

(** ** Well-formed VM commands

    The commands of the VM language and the ones that the optimizer makes
    out of them, as a data type, with the [Command] that each one stands
    for. *)

Inductive segment : Type :=
  | SArgument | SLocal | SStatic | SConstant | SThis | SThat | SPointer
  | STemp
  | SConstantNot | SConstantNeg.   (* the pseudo-segments [constant~] and
                                      [constant-] *)







Inductive jump : Type :=
  | JLabel | JGoto | JIfGoto
  | JIfGotoNot.                    (* made by the optimizer *)

















(** ** Single-file runs *)


(** A test file whose only function is not [Sys.init]. *)
Definition no_Sys_init_example : list string :=
  ["function Main.main 0"; "push constant 7"; "push constant 8"; "add";
   "return"].

(** ** The sliding window of the debugging scans *)

(** The [for elem in it] loop of [window]: the tuples it yields. *)
Fixpoint window_rest {A : Type} (result it : list A) : list (list A) :=
  match it with
  | [] => []
  | elem :: it' =>
      let result := app (drop 1 result) [elem] in
      result :: window_rest result it'
  end.

(** [window(seq, n)]: the tuples that the generator yields, in order. *)
Definition window {A : Type} (seq : list A) (n : nat) : list (list A) :=
  let result := take n seq in
  let it := drop n seq in
  app (if Nat.eqb (length result) n then [result] else [])
    (window_rest result it).

(** ** The calls of a command list *)

(** [command.args[0]] of the [call] and [call-ext] commands of the list, in
    order. *)
Definition call_targets (cs : list Command) : list arg :=
  omap (fun c => if is_call c then args c !! 0%nat else None) cs.

(** The dependency set of [f] holds the targets of the calls of [f], each
    once, and nothing else. *)
Definition dependencies_exact (f : Function) : Prop :=
  exists s, dependencies f = PySet s /\ NoDup s /\
    forall d, d ∈ s <-> d ∈ call_targets (commands f).

(** ** Command lines as the parser takes them *)

(** A character of a token: an ASCII character that is no white space
    and no slash, so that no comment starts inside a token. *)
Definition token_char (c : ascii) : bool :=
  (nat_of_ascii c <? 128)%nat && negb (is_space c) && negb (Ascii.eqb c "/").

Fixpoint all_chars (P : ascii -> bool) (s : string) : bool :=
  match s with
  | EmptyString => true
  | String c rest => P c && all_chars P rest
  end.

Definition is_token (s : string) : bool :=
  match s with
  | EmptyString => false
  | _ => all_chars token_char s
  end.

(** The commands that [Parser.__next__] builds: an opcode and up to four
    arguments, integers at the positions that the parser converts. *)
Definition parser_shape (c : Command) : bool :=
  is_token (command c) &&
  match args c with
  | [] => true
  | [AStr s1] => is_token s1
  | [AStr s1; AInt _] => is_token s1
  | [AStr s1; AInt _; AInt _] => is_token s1
  | [AStr s1; AInt _; AStr s3; AInt _] => is_token s1 && is_token s3
  | _ => false
  end.

(** A line as the iteration over a text file gives it: a newline is its
    last character or does not occur. *)
Definition file_line (s : string) : Prop :=
  forall k, String.get k s = Some newline -> S k = String.length s.

(** ** The blocks of the output *)

(** The line that opens the block of a function in the output. *)
Definition begin_line (name : arg) : string := "// Begin: " +:+ str name.

(** [blocks] are the blocks that [Function.translate] writes for the
    functions [names] of [table], one after the other, from the state [t]
    of the code generator and the line count [g]. *)
Inductive function_blocks (table : gmap arg Function)
  : list arg -> ASMTranslator -> Z -> list (list string) -> Prop :=
  | function_blocks_nil t g : function_blocks table [] t g []
  | function_blocks_cons n names f t g block t' g' blocks :
      table !! n = Some f ->
      Function_translate f t g = Ok (block, t', g') ->
      function_blocks table names t' g' blocks ->
      function_blocks table (n :: names) t g (block :: blocks).

(** The number of spaces of a text. *)
Fixpoint spaces (s : string) : nat :=
  match s with
  | EmptyString => 0
  | String c rest => (if Ascii.eqb c " " then 1 else 0) + spaces rest
  end.

(** A name as the parser gives it: a string without a space. *)
Definition is_name (k : arg) : bool :=
  match k with
  | AStr s => Nat.eqb (spaces s) 0
  | AInt _ => false
  end.

(** Every function of the table is stored under a name of the parser. *)
Definition named_table (table : gmap arg Function) : Prop :=
  forall k, is_Some (table !! k) -> is_name k = true.

(** A line that the loop over the instructions of a command writes: a
    label, or an instruction with its number after it. *)
Definition instruction_line (l : string) : Prop :=
  startswith "(" l = true \/ exists i d, l = i +:+ " // " +:+ d.

(** A line of the body of a block: the comment that shows a command that
    the code generator has taken, or an instruction line. *)
Definition body_line (l : string) : Prop :=
  instruction_line l \/
  exists c t, l = "// " +:+ symbolic c /\ is_ok (visit c t).

(** * Properties *)

Lemma is_okb_ok {A : Type} (m : result A) : is_okb m = true -> is_ok m.
Proof. destruct m; [by eexists|done]. Qed.

(** ** Regular expressions *)

Lemma re_match_none s : re_match s RNone = false.
Proof. induction s as [|a s IH]; simpl; auto. Qed.

Lemma re_match_alt s r1 r2 :
  re_match s (RAlt r1 r2) = re_match s r1 || re_match s r2.
Proof.
  revert r1 r2; induction s as [|a s IH]; intros r1 r2; simpl.
  - by rewrite !orb_false_r.
  - rewrite IH. destruct (nullable r1), (nullable r2); simpl;
      rewrite ?orb_true_r; auto.
Qed.

Lemma re_match_seq_none s r : re_match s (RSeq RNone r) = false.
Proof.
  induction s as [|a s IH]; simpl; auto.
  by rewrite re_match_alt, IH, re_match_none.
Qed.

Lemma re_match_seq_eps s r : re_match s (RSeq REps r) = re_match s r.
Proof.
  destruct s as [|a s]; simpl.
  - by rewrite !orb_false_r.
  - rewrite re_match_alt, re_match_seq_none. done.
Qed.

Lemma re_match_lit p s : re_match s (lit p) = startswith p s.
Proof.
  revert s; induction p as [|c p IH]; intros s.
  - by destruct s.
  - destruct s as [|a s]; simpl; [done|].
    rewrite re_match_alt, re_match_none, orb_false_r.
    rewrite Ascii.eqb_sym.
    destruct (Ascii.eqb c a); simpl.
    + by rewrite re_match_seq_eps.
    + by rewrite re_match_seq_none.
Qed.

(** A nullable tail never decides an anchored match. *)
Lemma re_match_seq_nullable s r1 r2 :
  nullable r2 = true -> re_match s (RSeq r1 r2) = re_match s r1.
Proof.
  intros Hn; revert r1; induction s as [|a s IH]; intros r1; simpl.
  - by rewrite Hn, andb_true_r.
  - rewrite Hn, andb_true_r, re_match_alt, IH.
    destruct (nullable r1); simpl; [done|].
    by rewrite re_match_none, orb_false_r.
Qed.

Lemma re_match_lit_any p s : re_match s (lit_any p) = startswith p s.
Proof. unfold lit_any. by rewrite re_match_seq_nullable, re_match_lit. Qed.

(** ** The parser *)

Lemma py_int_error token e : py_int token = Raise e -> e = ValueError token.
Proof.
  unfold py_int. intros H.
  repeat case_match; simplify_eq; done.
Qed.

(** C6 (counterexample): on [push constant 5] the second token stays a
    string and the third becomes an integer, so the command is not typed
    with integers at positions 2 and 4. *)
Lemma positions_2_4_counterexample :
  command_of_components ["push"; "constant"; "5"]
    = Ok (Some (Cmd "push" [AStr "constant"; AInt 5])) /\
  ~ typed_as (fun p => (p =? 2)%nat || (p =? 4)%nat)
      ["push"; "constant"; "5"] (Cmd "push" [AStr "constant"; AInt 5]).
Proof.
  split; [reflexivity|].
  intros (_ & _ & H). specialize (H 2%nat "constant").
  simpl in H. destruct H as (z & Hz & _); [lia|done|]. discriminate Hz.
Qed.

(** Goes through the token positions of a line of at most five tokens. *)
Ltac check_positions :=
  try done;
  try (intros p tok Hp Hl;
       do 6 (try destruct p as [|p]); simpl in *; try lia; simplify_eq;
       eauto).

(** C6 (amended): for a line of [n] tokens, 1 to 5 of them, whose tokens at
    the integer positions are integer literals, the parser produces a command
    whose integer positions are 3, 4 when [n = 4], and 5; every other
    position is kept as a string. *)
Theorem parser_positional_typing (tokens : list string) :
  (1 <= length tokens <= 5)%nat ->
  (forall p tok, int_position (length tokens) p = true ->
     tokens !! (p - 1)%nat = Some tok -> is_ok (py_int tok)) ->
  exists c, command_of_components tokens = Ok (Some c) /\
            typed_as (int_position (length tokens)) tokens c.
Proof.
  intros Hlen Hint.
  destruct tokens as [|c0 [|c1 [|c2 [|c3 [|c4 [|c5 rest]]]]]];
    simpl in Hlen; try lia; clear Hlen.
  - eexists; split; [reflexivity|]. repeat split; check_positions.
  - eexists; split; [reflexivity|]. repeat split; check_positions.
  - destruct (Hint 3%nat c2) as [z2 Hz2]; [done..|].
    exists (Cmd c0 [AStr c1; AInt z2]). simpl. rewrite Hz2. simpl.
    repeat split; check_positions.
  - destruct (Hint 3%nat c2) as [z2 Hz2]; [done..|].
    destruct (Hint 4%nat c3) as [z3 Hz3]; [done..|].
    exists (Cmd c0 [AStr c1; AInt z2; AInt z3]). simpl.
    rewrite Hz2, Hz3. simpl.
    repeat split; check_positions.
  - destruct (Hint 3%nat c2) as [z2 Hz2]; [done..|].
    destruct (Hint 5%nat c4) as [z4 Hz4]; [done..|].
    exists (Cmd c0 [AStr c1; AInt z2; AStr c3; AInt z4]). simpl.
    rewrite Hz2, Hz4. simpl.
    repeat split; check_positions.
Qed.

Lemma parser_positional_typing_witness :
  exists c, command_of_components ["push"; "local"; "-2"] = Ok (Some c) /\
            typed_as (int_position 3) ["push"; "local"; "-2"] c.
Proof.
  apply (parser_positional_typing ["push"; "local"; "-2"]).
  - simpl; lia.
  - intros p tok Hp Hl.
    do 6 (try destruct p as [|p]); simpl in *; try discriminate.
    injection Hl as <-. eexists; reflexivity.
Defined.

Lemma command_of_components_bad_int tokens tok :
  first_bad_int tokens = Some tok ->
  command_of_components tokens = Raise (ValueError tok).
Proof.
  unfold first_bad_int.
  destruct tokens as [|c0 [|c1 [|c2 [|c3 [|c4 [|c5 rest]]]]]]; simpl;
    try discriminate.
  - destruct (py_int c2) eqn:E2; [discriminate|].
    intros [= <-]. by rewrite (py_int_error _ _ E2).
  - destruct (py_int c2) eqn:E2; simpl.
    + destruct (py_int c3) eqn:E3; [discriminate|].
      intros [= <-]. by rewrite (py_int_error _ _ E3).
    + intros [= <-]. by rewrite (py_int_error _ _ E2).
  - destruct (py_int c2) eqn:E2; simpl.
    + destruct (py_int c4) eqn:E4; [discriminate|].
      intros [= <-]. by rewrite (py_int_error _ _ E4).
    + intros [= <-]. by rewrite (py_int_error _ _ E2).
Qed.

(** A line of more than five tokens yields no command and no error: the
    parser goes on to the next line. *)
Lemma command_of_components_long tokens :
  (5 < length tokens)%nat -> command_of_components tokens = Ok None.
Proof.
  destruct tokens as [|c0 [|c1 [|c2 [|c3 [|c4 [|c5 rest]]]]]]; simpl;
    intros; try lia; done.
Qed.

Lemma add_lines_app p lines1 lines2 :
  add_lines p (lines1 ++ lines2)%list =
  let* p1 := add_lines p lines1 in add_lines p1 lines2.
Proof.
  revert p; induction lines1 as [|l lines1 IH]; intros p; simpl; [done|].
  destruct (parse_line l) as [[c|]|e]; simpl; [|by apply IH|done].
  destruct (Preassembler_add p c); simpl; [by apply IH|done].
Qed.

Lemma preassemble_app sys p files1 files2 :
  preassemble sys p (files1 ++ files2)%list =
  let* p1 := preassemble sys p files1 in preassemble sys p1 files2.
Proof.
  revert p; induction files1 as [|f files1 IH]; intros p; simpl; [done|].
  destruct (read_lines sys f); simpl; [|done].
  destruct (add_lines _ _); simpl; [by apply IH|done].
Qed.

(** C7 (counterexample): a line of six tokens does not make the translator
    fail, and the failure on a bad integer is the same exception whatever the
    file and the line are. *)
Lemma malformed_line_counterexample :
  parse_line "push constant 1 2 3 4" = Ok None /\
  is_ok (translate id
           (memory_os [("Main.vm", ["function Sys.init 0";
                                    "push constant 1 2 3 4"; "return"])])
           "Main" false ["Main.vm"]) /\
  translate id (memory_os [("A.vm", ["function Sys.init 0";
                                     "push constant x"])])
    "A" false ["A.vm"] = Raise (ValueError "x") /\
  translate id (memory_os [("B.vm", ["function Sys.init 0"; "return";
                                     "push constant x"])])
    "B" false ["B.vm"] = Raise (ValueError "x").
Proof.
  repeat split; try (vm_compute; reflexivity).
  eexists. vm_compute. reflexivity.
Qed.

(** C7 (amended): a line of plain text with a token that is not an integer
    literal at an integer position makes the translator fail at that line,
    with a [ValueError] that names the token, and neither the file nor the
    line.  The files and the lines read before it are plain text that is
    parsed without an error. *)
Theorem bad_integer_fails_fast (set_iter : list arg -> list arg) (sys : os)
    (program : string) (init_vm : bool)
    (files_before files_after : list string) (vm_file : string)
    (lines_before lines_after : list string) (line : string)
    (tokens : list string) (tok : string) (p0 p1 : Preassembler) :
  plain_files sys files_before ->
  Forall (fun l => plain_line l = true) (lines_before ++ [line])%list ->
  preassemble sys Preassembler_init files_before = Ok p0 ->
  read_lines sys vm_file = Ok (lines_before ++ line :: lines_after)%list ->
  add_lines
    (mkPreassembler (functions p0) (current_function p0)
       (splitext sys (basename sys vm_file)).1)
    lines_before = Ok p1 ->
  components_of line = Some tokens ->
  first_bad_int tokens = Some tok ->
  translate set_iter sys program init_vm
    (files_before ++ vm_file :: files_after)%list = Raise (ValueError tok).
Proof.
  intros _ _ Hpre Hread Hadd Hcomp Hbad.
  unfold translate. rewrite preassemble_app, Hpre. simpl.
  rewrite Hread. simpl. rewrite add_lines_app, Hadd. simpl.
  unfold parse_line. rewrite Hcomp.
  by rewrite (command_of_components_bad_int _ _ Hbad).
Qed.

Lemma bad_integer_fails_fast_witness :
  translate id (memory_os [("Lib.vm", ["function Lib.f 0"; "return"]);
                           ("Main.vm", ["function Sys.init 0";
                                        "push constant 1";
                                        "pop local zero"])])
    "Prog" true ["Lib.vm"; "Main.vm"] = Raise (ValueError "zero").
Proof.
  set (sys := memory_os [("Lib.vm", ["function Lib.f 0"; "return"]);
                         ("Main.vm", ["function Sys.init 0";
                                      "push constant 1";
                                      "pop local zero"])]).
  destruct (is_okb_ok (preassemble sys Preassembler_init ["Lib.vm"]))
    as [p0 H0]; [vm_compute; reflexivity|].
  destruct (is_okb_ok
              (let* p0 := preassemble sys Preassembler_init ["Lib.vm"] in
               add_lines
                 (mkPreassembler (functions p0) (current_function p0)
                    (splitext sys (basename sys "Main.vm")).1)
                 ["function Sys.init 0"; "push constant 1"]))
    as [p1 H1]; [vm_compute; reflexivity|].
  rewrite H0 in H1. cbn [rbind] in H1.
  apply (bad_integer_fails_fast id sys "Prog" true ["Lib.vm"] [] "Main.vm"
           ["function Sys.init 0"; "push constant 1"] []
           "pop local zero" ["pop"; "local"; "zero"] "zero" p0 p1).
  - apply Forall_singleton. intros lines Hlines.
    vm_compute in Hlines. injection Hlines as <-.
    repeat apply Forall_cons_2; try apply Forall_nil_2; reflexivity.
  - repeat apply Forall_cons_2; try apply Forall_nil_2; reflexivity.
  - exact H0.
  - reflexivity.
  - exact H1.
  - reflexivity.
  - reflexivity.
Defined.

(** ** Windows and patterns *)

Lemma match_code_length e w ex :
  match_code e w ex = true -> length w = length e.
Proof.
  unfold match_code. destruct (Nat.eqb_spec (length e) (length w)); simpl;
    [done|discriminate].
Qed.

Lemma match_code_2 r1 r2 ex w :
  match_code [r1; r2] w ex =
  match w with
  | [a; b] =>
      re_match (symbolic a) r1 && re_match (symbolic b) r2 &&
      match ex with None => true | Some e => negb (e w) end
  | _ => false
  end.
Proof.
  destruct w as [|a [|b [|c w]]]; try reflexivity.
  unfold match_code; simpl.
  destruct (re_match (symbolic a) r1), (re_match (symbolic b) r2); done.
Qed.

Lemma match_code_3 r1 r2 r3 ex w :
  match_code [r1; r2; r3] w ex =
  match w with
  | [a; b; c] =>
      re_match (symbolic a) r1 && re_match (symbolic b) r2 &&
      re_match (symbolic c) r3 &&
      match ex with None => true | Some e => negb (e w) end
  | _ => false
  end.
Proof.
  destruct w as [|a [|b [|c [|d w]]]]; try reflexivity.
  unfold match_code; simpl.
  destruct (re_match (symbolic a) r1), (re_match (symbolic b) r2),
    (re_match (symbolic c) r3); done.
Qed.

(** C4 (counterexample): the rewrite leaves [pop local 2; push local 3]
    alone, where the arguments differ, and turns [pop local 2; push local 2],
    where they are the same, into [tee local 2]. *)
Lemma tee_rule_counterexample :
  fires rule_tee [Cmd "pop" [AStr "local"; AInt 2];
                  Cmd "push" [AStr "local"; AInt 3]] = false /\
  apply_rule rule_tee [Cmd "pop" [AStr "local"; AInt 2];
                       Cmd "push" [AStr "local"; AInt 3]]
    = Ok [Cmd "pop" [AStr "local"; AInt 2];
          Cmd "push" [AStr "local"; AInt 3]] /\
  fires rule_tee [Cmd "pop" [AStr "local"; AInt 2];
                  Cmd "push" [AStr "local"; AInt 2]] = true /\
  apply_rule rule_tee [Cmd "pop" [AStr "local"; AInt 2];
                       Cmd "push" [AStr "local"; AInt 2]]
    = Ok [Cmd "tee" [AStr "local"; AInt 2]].
Proof. repeat split; vm_compute; reflexivity. Qed.

(** C4 (amended): the rewrite [pop X; push X'] -> [tee X] fires exactly on
    the windows of a [pop] and a [push] whose argument lists are the same,
    and replaces such a window by [tee X]; a window whose argument lists
    differ is excluded. *)
Theorem tee_rule_fires_iff (w : list Command) :
  fires rule_tee w = true <->
  exists p q, w = [p; q] /\
    startswith "pop " (symbolic p) = true /\
    startswith "push " (symbolic q) = true /\
    args p = args q /\
    replace rule_tee w = Ok [Cmd "tee" (args p)].
Proof.
  unfold fires. cbn [expr exclude rule_tee]. rewrite match_code_2.
  split.
  - destruct w as [|p [|q [|r w]]]; try discriminate.
    rewrite !re_match_lit_any. unfold args_differ. cbn [lookup list_lookup].
    intros H. apply andb_prop in H as [H Hex]. apply andb_prop in H as [Hp Hq].
    exists p, q. repeat split; try done.
    apply negb_true_iff, bool_decide_eq_false in Hex.
    by destruct (decide (args p = args q)).
  - intros (p & q & -> & Hp & Hq & Heq & _).
    rewrite !re_match_lit_any, Hp, Hq. unfold args_differ.
    cbn [lookup list_lookup andb].
    apply negb_true_iff, bool_decide_eq_false. by intros ?.
Qed.

(** ** The reference interpreter and the comparison rewrites *)

(** On the windows that their comments name, the two comparison rewrites
    keep the result. *)
Lemma lt_not_is_gte x y stack :
  ref_run [Cmd "lt" []; Cmd "not" []] (y :: x :: stack)
  = ref_run [Cmd "gte" []] (y :: x :: stack).
Proof.
  cbn. unfold truth. destruct (Z.ltb_spec (wrap16 (x - y)) 0),
    (Z.leb_spec 0 (wrap16 (x - y))); try lia; reflexivity.
Qed.

Lemma gt_not_is_lte x y stack :
  ref_run [Cmd "gt" []; Cmd "not" []] (y :: x :: stack)
  = ref_run [Cmd "lte" []] (y :: x :: stack).
Proof.
  cbn. unfold truth. destruct (Z.ltb_spec 0 (wrap16 (x - y))),
    (Z.leb_spec (wrap16 (x - y)) 0); try lia; reflexivity.
Qed.

(** C1 (code bug): the pattern [gt] of the rewrite [gt; not] -> [lte] is
    matched at the start of the symbolic form only, so it also takes [gte],
    which the rewrite before it has just produced out of [lt; not].  The
    peephole pass turns [lt; not; not] into [lte], and the two differ on
    equal operands. *)
Theorem peephole_gte_not_miscompiled :
  apply_rule rule_lt_not [Cmd "lt" []; Cmd "not" []; Cmd "not" []]
    = Ok [Cmd "gte" []; Cmd "not" []] /\
  apply_rule rule_gt_not [Cmd "gte" []; Cmd "not" []] = Ok [Cmd "lte" []] /\
  optimize_commands [Cmd "lt" []; Cmd "not" []; Cmd "not" []]
    = Ok [Cmd "lte" []] /\
  ref_run [Cmd "gte" []; Cmd "not" []] [3; 3] = Some [0] /\
  ref_run [Cmd "lt" []; Cmd "not" []; Cmd "not" []] [3; 3] = Some [0] /\
  ref_run [Cmd "lte" []] [3; 3] = Some [-1].
Proof. repeat split; vm_compute; reflexivity. Qed.

Lemma window_loop_unfold {A : Type} (n : nat) (matches : list A -> bool)
    (sub : list A -> result (list A)) (fuel : nat) (window it : list A) :
  window_loop n matches sub (S fuel) window it =
  if Nat.eqb (length window) n then
    if matches window then
      let* out := sub window in
      let* rest := window_loop n matches sub fuel (take n it) (drop n it) in
      Ok (app out rest)
    else
      match window with
      | [] => Raise IndexError
      | r0 :: tl =>
          let* rest := window_loop n matches sub fuel (app tl (take 1 it))
                         (drop 1 it) in
          Ok (r0 :: rest)
      end
  else Ok window.
Proof. reflexivity. Qed.

Lemma window_replace_head {A : Type} (n : nat) (matches : list A -> bool)
    (sub : list A -> result (list A)) (c0 : A) (rest out : list A) :
  (1 <= n)%nat ->
  (forall w, matches (c0 :: w) = false) ->
  window_replace n matches sub (c0 :: rest) = Ok out ->
  exists out', out = c0 :: out'.
Proof.
  intros Hn Hno. destruct n as [|n]; [lia|].
  unfold window_replace. rewrite window_loop_unfold.
  change (take (S n) (c0 :: rest)) with (c0 :: take n rest).
  destruct (Nat.eqb _ _).
  - rewrite Hno. destruct (window_loop _ _ _ _ _ _); simpl; [|done].
    intros [= <-]. eauto.
  - intros [= <-]. eauto.
Qed.

(** ** The function table keeps its invariant (C10) *)

Lemma function_decl_not_call c : is_function_decl c = true -> is_call c = false.
Proof.
  unfold is_function_decl, is_call. intros H.
  apply orb_true_iff in H as [H|H]; apply bool_decide_eq_true in H;
    rewrite H; reflexivity.
Qed.

Lemma symbolic_function_decl c :
  is_function_decl c = true -> exists s, symbolic c = String "f" s.
Proof.
  unfold is_function_decl, symbolic. intros H.
  apply orb_true_iff in H as [H|H]; apply bool_decide_eq_true in H;
    rewrite H; destruct (args c); simpl; eauto.
Qed.

Lemma Preassembler_add_invariant p c p' :
  Preassembler_add p c = Ok p' ->
  table_invariant (functions p) -> table_invariant (functions p').
Proof.
  unfold Preassembler_add. intros Hadd Hinv.
  destruct (is_function_decl c) eqn:Hdecl; simpl in Hadd.
  - destruct (py_index (args c) 0) as [name|] eqn:Hname; [|done].
    simpl in Hadd. rewrite lookup_insert_eq in Hadd.
    unfold Function_append in Hadd.
    rewrite (function_decl_not_call _ Hdecl) in Hadd. simpl in Hadd.
    injection Hadd as <-. simpl.
    intros k f. rewrite insert_insert_eq, lookup_insert.
    case_decide as Hk; [|by apply Hinv].
    intros [= <-]. simpl. split; [done|].
    exists c, []. repeat split; try done.
    unfold py_index in Hname. by destruct (args c !! 0%nat); simplify_eq.
  - destruct (current_function p) as [cur|]; [|done].
    destruct (functions p !! cur) as [f0|] eqn:Hcur; [|done].
    destruct (Function_append f0 c) as [f1|] eqn:Happ; [|done].
    simpl in Hadd. injection Hadd as <-. simpl.
    intros k f. rewrite lookup_insert.
    case_decide as Hk; [|by apply Hinv].
    intros [= <-]. destruct (Hinv _ _ Hcur) as (Hn & c0 & rest & Hc & Hd & Ha).
    unfold Function_append in Happ.
    assert (function_name f1 = function_name f0 /\
            commands f1 = (commands f0 ++ [c])%list) as [Hn1 Hc1].
    { destruct (is_call c); [|by injection Happ as <-].
      destruct (py_index (args c) 0); [|done]. simpl in Happ.
      destruct (dependencies f0); [|done]. by injection Happ as <-. }
    split; [congruence|].
    exists c0, (rest ++ [c])%list. rewrite Hc1, Hc, Hn1. done.
Qed.

Lemma add_lines_invariant lines : forall p p',
  add_lines p lines = Ok p' ->
  table_invariant (functions p) -> table_invariant (functions p').
Proof.
  induction lines as [|l lines IH]; intros p p'; simpl.
  - by intros [= <-].
  - destruct (parse_line l) as [[c|]|]; simpl; [|by apply IH|done].
    destruct (Preassembler_add p c) as [p1|] eqn:Hadd; [|done].
    simpl. intros H Hinv. eapply IH; [done|].
    by eapply Preassembler_add_invariant.
Qed.

Lemma preassemble_invariant sys vm_files : forall p p',
  preassemble sys p vm_files = Ok p' ->
  table_invariant (functions p) -> table_invariant (functions p').
Proof.
  induction vm_files as [|f fs IH]; intros p p'; simpl.
  - by intros [= <-].
  - destruct (read_lines sys f); [|done]. simpl.
    destruct (add_lines _ _) as [p1|] eqn:Hadd; [|done]. simpl.
    intros H Hinv. eapply IH; [done|].
    eapply add_lines_invariant; [done|]. done.
Qed.

Lemma inline_loop_head function table c rest cs deps :
  is_call c = false ->
  inline_loop function table (c :: rest) = Ok (cs, deps) ->
  exists cs', cs = c :: cs'.
Proof.
  intros Hc. simpl. rewrite Hc.
  destruct (inline_loop function table rest) as [[cs' deps']|]; [|done].
  simpl. intros [= <- <-]. eauto.
Qed.

Lemma Optimizer_inline_invariant f table f' :
  Optimizer_inline f table = Ok f' ->
  function_invariant f ->
  function_name f' = function_name f /\ filename f' = filename f /\
  function_invariant f'.
Proof.
  unfold Optimizer_inline. intros H (c & rest & Hc & Hd & Ha).
  destruct (inline_loop f table (commands f)) as [[cs deps]|] eqn:Hl;
    [|done].
  simpl in H. injection H as <-. simpl. split; [done|]. split; [done|].
  rewrite Hc in Hl.
  destruct (inline_loop_head _ _ _ _ _ _ (function_decl_not_call _ Hd) Hl)
    as [cs' ->].
  exists c, cs'. done.
Qed.

Ltac unfold_rules :=
  unfold rule_push_constant_not, rule_push_constant_neg, rule_add_zero,
    rule_true, rule_lt_not, rule_gt_not, rule_compare_goto, rule_push_pop,
    rule_push_inline_pop, rule_tee, rule_if_goto_not;
  cbn [expr exclude replace].

Lemma rule_keeps_declaration r c :
  r ∈ rules -> is_function_decl c = true ->
  (1 <= length (expr r))%nat /\ forall w, fires r (c :: w) = false.
Proof.
  intros Hr Hd. destruct (symbolic_function_decl _ Hd) as [s Hs].
  unfold rules in Hr. rewrite !elem_of_cons in Hr.
  destruct Hr as [->|[->|[->|[->|[->|[->|[->|[->|[->|[->|[->|Hr]]]]]]]]]]];
    [..|by apply elem_of_nil in Hr];
    (split; [simpl; lia|]); intros w; unfold fires; unfold_rules;
    first [rewrite match_code_2 | rewrite match_code_3];
    destruct w as [|a [|b [|d w]]]; try reflexivity;
    rewrite ?re_match_lit_any, ?re_match_lit, Hs; reflexivity.
Qed.

Lemma apply_rules_head rs c rest out :
  (forall r, r ∈ rs -> r ∈ rules) ->
  is_function_decl c = true ->
  apply_rules rs (c :: rest) = Ok out -> exists out', out = c :: out'.
Proof.
  intros Hrs Hd. revert rest out.
  induction rs as [|r rs IH]; intros rest out; simpl.
  - intros [= <-]. eauto.
  - destruct (apply_rule r (c :: rest)) as [cs|] eqn:Hr; [|done].
    simpl. intros H.
    destruct (rule_keeps_declaration r c) as [Hn Hno];
      [apply Hrs; left|done|].
    destruct (window_replace_head _ _ _ _ _ _ Hn Hno Hr) as [cs' ->].
    eapply IH; [|done]. intros r' Hr'. apply Hrs. by right.
Qed.

Lemma Optimizer_optimize_invariant f f' :
  Optimizer_optimize f = Ok f' ->
  function_invariant f ->
  function_name f' = function_name f /\ filename f' = filename f /\
  dependencies f' = dependencies f /\ function_invariant f'.
Proof.
  unfold Optimizer_optimize, optimize_commands.
  intros H (c & rest & Hc & Hd & Ha).
  destruct (apply_rules rules (commands f)) as [cs|] eqn:Hr; [|done].
  simpl in H. injection H as <-. simpl. repeat split.
  rewrite Hc in Hr.
  destruct (apply_rules_head rules c rest cs) as [cs' ->]; [done..|].
  exists c, cs'. done.
Qed.

Lemma for_each_function_invariant pass names : forall table table',
  (forall f t f', pass f t = Ok f' -> function_invariant f ->
     function_name f' = function_name f /\ function_invariant f') ->
  for_each_function pass names table = Ok table' ->
  table_invariant table -> table_invariant table'.
Proof.
  induction names as [|n names IH]; intros table table' Hpass; simpl.
  - by intros [= <-].
  - destruct (table !! n) as [f|] eqn:Hn; [|done].
    destruct (pass f table) as [f1|] eqn:Hp; [|done]. simpl.
    intros H Hinv. eapply IH; [done..|].
    destruct (Hinv _ _ Hn) as [Hname Hf].
    destruct (Hpass _ _ _ Hp Hf) as [Hname1 Hf1].
    intros k g. rewrite lookup_insert. case_decide; [|by apply Hinv].
    intros [= <-]. split; [congruence|done].
Qed.

Lemma inline_pass_invariant set_iter table table' :
  inline_pass set_iter table = Ok table' ->
  table_invariant table -> table_invariant table'.
Proof.
  unfold inline_pass.
  destruct (reachable_functions set_iter table Sys_init); [|done].
  simpl. apply for_each_function_invariant.
  intros f t f' H Hf. by destruct (Optimizer_inline_invariant _ _ _ H Hf) as (?&?&?).
Qed.

Lemma optimize_pass_invariant set_iter table table' :
  optimize_pass set_iter table = Ok table' ->
  table_invariant table -> table_invariant table'.
Proof.
  unfold optimize_pass.
  destruct (reachable_functions set_iter table Sys_init); [|done].
  simpl. apply for_each_function_invariant.
  intros f t f' H Hf.
  by destruct (Optimizer_optimize_invariant _ _ H Hf) as (?&?&?&?).
Qed.

(** C10: after preassembly, after the inlining pass and after the peephole
    pass, the first command of every function of the table is a [function]
    or [function-ext] declaration whose name argument is the name of the
    function. *)
Theorem function_declaration_first (set_iter : list arg -> list arg)
    (sys : os) (vm_files : list string) (p : Preassembler)
    (inlined optimized : gmap arg Function) :
  preassemble sys Preassembler_init vm_files = Ok p ->
  inline_pass set_iter (functions p) = Ok inlined ->
  optimize_pass set_iter inlined = Ok optimized ->
  forall table, table ∈ [functions p; inlined; optimized] ->
  forall k f, table !! k = Some f ->
    exists c rest,
      commands f = c :: rest /\
      (command c = "function" \/ command c = "function-ext") /\
      args c !! 0%nat = Some (function_name f).
Proof.
  intros Hpre Hinl Hopt.
  assert (table_invariant (functions p)) as H0.
  { eapply preassemble_invariant; [done|]. intros k f. simpl.
    by rewrite lookup_empty. }
  assert (table_invariant inlined) as H1
    by (by eapply inline_pass_invariant).
  assert (table_invariant optimized) as H2
    by (by eapply optimize_pass_invariant).
  intros table Ht k f Hk.
  assert (table_invariant table) as Hinv.
  { rewrite !elem_of_cons in Ht.
    destruct Ht as [->|[->|[->|Ht]]]; try done. by apply elem_of_nil in Ht. }
  destruct (Hinv _ _ Hk) as (_ & c & rest & Hc & Hd & Ha).
  exists c, rest. repeat split; try done.
  unfold is_function_decl in Hd. apply orb_true_iff in Hd as [Hd|Hd];
    apply bool_decide_eq_true in Hd; auto.
Qed.

Lemma function_declaration_first_witness :
  exists p inlined optimized,
    preassemble (memory_os example_program) Preassembler_init
      ["Main.vm"; "Point.vm"] = Ok p /\
    inline_pass id (functions p) = Ok inlined /\
    optimize_pass id inlined = Ok optimized /\
    forall table, table ∈ [functions p; inlined; optimized] ->
    forall k f, table !! k = Some f ->
      exists c rest,
        commands f = c :: rest /\
        (command c = "function" \/ command c = "function-ext") /\
        args c !! 0%nat = Some (function_name f).
Proof.
  set (sys := memory_os example_program).
  destruct (is_okb_ok (preassemble sys Preassembler_init
                         ["Main.vm"; "Point.vm"]))
    as [p Hp]; [vm_compute; reflexivity|].
  destruct (is_okb_ok
              (let* p := preassemble sys Preassembler_init
                           ["Main.vm"; "Point.vm"] in
               inline_pass id (functions p)))
    as [t1 H1]; [vm_compute; reflexivity|].
  destruct (is_okb_ok
              (let* p := preassemble sys Preassembler_init
                           ["Main.vm"; "Point.vm"] in
               let* t1 := inline_pass id (functions p) in
               optimize_pass id t1))
    as [t2 H2]; [vm_compute; reflexivity|].
  rewrite Hp in H1, H2. cbn [rbind] in H1, H2.
  rewrite H1 in H2. cbn [rbind] in H2.
  exists p, t1, t2.
  split; [exact Hp|]. split; [exact H1|]. split; [exact H2|].
  exact (function_declaration_first id sys ["Main.vm"; "Point.vm"] p t1 t2
           Hp H1 H2).
Defined.

(** ** Inlining of member accessors (C8) *)

Lemma startswith_function_decl c :
  is_function_decl c = true -> startswith "function" (symbolic c) = true.
Proof.
  unfold is_function_decl, symbolic. intros H.
  apply orb_true_iff in H as [H|H]; apply bool_decide_eq_true in H;
    rewrite H; destruct (args c); reflexivity.
Qed.

Lemma try_inline_member_accessor callee decl i :
  is_function_decl decl = true ->
  commands callee = member_accessor_body decl i ->
  try_inline callee
  = Ok (Some [Cmd "pop" [AStr "pointer"; AInt 1]; Cmd "push" [AStr "that"; i]]).
Proof.
  intros Hd Hc. unfold try_inline, is_constant_accessor, is_static_accessor,
    is_member_accessor. rewrite Hc.
  assert (match_code [lit_any "function"; lit "push argument 0";
                      lit "pop pointer 0"; lit_any "push this "; lit "return"]
            (member_accessor_body decl i) None = true) as ->.
  { unfold match_code, member_accessor_body.
    cbn [length Nat.eqb negb zip zip_with forallb fst snd].
    rewrite !re_match_lit_any, !re_match_lit, (startswith_function_decl _ Hd).
    reflexivity. }
  reflexivity.
Qed.

Lemma inline_loop_app function table pre post :
  inline_loop function table (pre ++ post)%list =
  let* '(cs1, deps1) := inline_loop function table pre in
  let* '(cs2, deps2) := inline_loop function table post in
  Ok ((cs1 ++ cs2)%list, (deps1 ++ deps2)%list).
Proof.
  induction pre as [|c pre IH]; simpl.
  - by destruct (inline_loop function table post) as [[??]|].
  - rewrite IH.
    destruct (is_call c);
      [destruct (py_index (args c) 0); simpl;
       [destruct (table !! _); simpl;
        [destruct (try_inline _) as [[?|]|]; simpl|]|]|];
      destruct (inline_loop function table pre) as [[??]|]; simpl; try done;
      destruct (inline_loop function table post) as [[??]|]; simpl; try done.
    rewrite <- app_assoc. done.
Qed.

(** Only a callee that [try_inline] declines stays in the dependencies. *)
Lemma inline_loop_dependencies function table cs :
  forall cs' deps, inline_loop function table cs = Ok (cs', deps) ->
  forall d, d ∈ deps ->
    exists callee, table !! d = Some callee /\ try_inline callee = Ok None.
Proof.
  induction cs as [|c cs IH]; intros cs' deps; simpl.
  - intros [= <- <-] d Hd. by apply elem_of_nil in Hd.
  - destruct (is_call c).
    + destruct (py_index (args c) 0) as [name|]; [|done]. simpl.
      destruct (table !! name) as [callee|] eqn:Hname; [|done].
      destruct (try_inline callee) as [[body|]|] eqn:Htry; [| |done]; simpl;
        destruct (inline_loop function table cs) as [[cs1 d1]|]; try done;
        simpl; intros [= <- <-] d Hd.
      * by eapply IH.
      * apply elem_of_cons in Hd as [->|Hd]; [eauto|by eapply IH].
    + destruct (inline_loop function table cs) as [[cs1 d1]|]; [|done].
      simpl. intros [= <- <-] d Hd. by eapply IH.
Qed.

(** C8: a call of a member accessor is replaced, in the body of the caller,
    by [inline-call], [pop pointer 1], [push that I] and [inline-return], the
    commands before and after it are inlined on their own, the call site adds
    nothing to the dependencies, and the callee is not among them. *)
Theorem member_accessor_inlined (caller caller' : Function)
    (table : gmap arg Function) (callee_name : arg) (callee : Function)
    (decl : Command) (i : arg) :
  table !! callee_name = Some callee ->
  function_name callee = callee_name ->
  is_function_decl decl = true ->
  commands callee = member_accessor_body decl i ->
  Optimizer_inline caller table = Ok caller' ->
  (forall pre c post,
     commands caller = (pre ++ c :: post)%list ->
     is_call c = true ->
     args c !! 0%nat = Some callee_name ->
     exists pre' post' deps1 deps2,
       inline_loop caller table pre = Ok (pre', deps1) /\
       inline_loop caller table post = Ok (post', deps2) /\
       commands caller' =
         (pre' ++ inlined_member_call (filename callee) callee_name caller i
            ++ post')%list /\
       dependencies caller' = PyList (deps1 ++ deps2)) /\
  callee_name ∉ elems_of (dependencies caller').
Proof.
  intros Hlook Hname Hdecl Hbody Hinl.
  pose proof (try_inline_member_accessor _ _ _ Hdecl Hbody) as Htry.
  unfold Optimizer_inline in Hinl.
  destruct (inline_loop caller table (commands caller)) as [[cs deps]|] eqn:Hl;
    [|done].
  simpl in Hinl. injection Hinl as <-. simpl. split.
  - intros pre c post Hc Hcall Harg. rewrite Hc, inline_loop_app in Hl.
    destruct (inline_loop caller table pre) as [[pre' deps1]|]; [|done].
    simpl in Hl. rewrite Hcall in Hl. unfold py_index in Hl.
    rewrite Harg in Hl. simpl in Hl. rewrite Hlook, Htry in Hl. simpl in Hl.
    destruct (inline_loop caller table post) as [[post' deps2]|]; [|done].
    simpl in Hl. injection Hl as <- <-.
    exists pre', post', deps1, deps2. rewrite Hname. done.
  - intros Hin.
    destruct (inline_loop_dependencies _ _ _ _ _ Hl _ Hin) as (g & Hg & Hnone).
    rewrite Hlook in Hg. injection Hg as <-. rewrite Htry in Hnone. done.
Qed.

Lemma member_accessor_inlined_witness :
  (forall pre c post,
     commands example_caller = (pre ++ c :: post)%list ->
     is_call c = true ->
     args c !! 0%nat = Some (AStr "Point.getx") ->
     exists pre' post' deps1 deps2,
       inline_loop example_caller example_table pre = Ok (pre', deps1) /\
       inline_loop example_caller example_table post = Ok (post', deps2) /\
       commands example_caller_inlined =
         (pre' ++ inlined_member_call "Point" (AStr "Point.getx")
                    example_caller (AInt 0) ++ post')%list /\
       dependencies example_caller_inlined = PyList (deps1 ++ deps2)) /\
  AStr "Point.getx" ∉ elems_of (dependencies example_caller_inlined).
Proof.
  apply (member_accessor_inlined example_caller example_caller_inlined
           example_table (AStr "Point.getx") example_callee
           (Cmd "function" [AStr "Point.getx"; AInt 0]) (AInt 0));
    vm_compute; reflexivity.
Defined.

(** ** Return-address labels are numbered across functions (C9) *)

Lemma rbind_ok {A B : Type} (m : result A) (k : A -> result B) b :
  rbind m k = Ok b -> exists a, m = Ok a /\ k a = Ok b.
Proof. destruct m; simpl; [eauto|done]. Qed.

Lemma pure_state t r l t' : pure_ t r = Ok (l, t') -> t' = t.
Proof. unfold pure_. destruct r; simpl; [|done]. by intros [= _ <-]. Qed.

Lemma lookup_assoc_Forall {V : Type} (P : string -> V -> Prop) k l v :
  Forall (fun kv => P kv.1 kv.2) l -> lookup_assoc k l = Some v -> P k v.
Proof.
  induction 1 as [|[k' v'] l HP _ IH]; simpl; [done|].
  case_decide; [|done]. intros [= <-]. by subst.
Qed.

(** What a method does to [call_index]. *)
Definition counts_allocation (name : string) (method : lowering) : Prop :=
  forall t a l t', method t a = Ok (l, t') ->
    call_index t' = call_index t +
      (if bool_decide (name ∈ ["_function_ext"; "_call"; "_call_ext"])
       then 1 else 0).

Ltac solve_method :=
  intros t a l t' H; cbn [fst snd] in *;
  unfold arity0, arity1, arity2, arity3 in H;
  try (apply pure_state in H; subst t'; simpl; lia);
  do 5 (try (let x := fresh in destruct a as [|x a]; try discriminate H));
  first
    [ apply pure_state in H; subst t'; simpl; lia
    | injection H as <- <-; simpl; lia
    | idtac ].

Lemma methods_count_allocations :
  Forall (fun kv => counts_allocation kv.1 kv.2) methods.
Proof.
  unfold methods.
  repeat (apply Forall_cons_2; [solve_method|]); [| |apply Forall_nil_2].
  - unfold _function_ext in H. cbn [next_return_address_label] in H.
    apply rbind_ok in H as (setup & _ & H).
    apply rbind_ok in H as (ls & _ & H).
    injection H as <- <-. simpl. lia.
  - unfold _call in H. cbn [next_return_address_label] in H.
    apply rbind_ok in H as (z & _ & H).
    injection H as <- <-. simpl. lia.
Qed.

Lemma visit_call_index c t instrs t' :
  visit c t = Ok (instrs, t') ->
  call_index t' = call_index t + (if allocates_return_label c then 1 else 0).
Proof.
  unfold visit, allocates_return_label.
  destruct (lookup_assoc _ methods) as [method|] eqn:Hm; [|done].
  intros H.
  exact (lookup_assoc_Forall counts_allocation _ _ _
           methods_count_allocations Hm _ _ _ _ H).
Qed.

Lemma count_allocations_cons c cs :
  count_allocations (c :: cs) =
  (if allocates_return_label c then 1 else 0) + count_allocations cs.
Proof.
  unfold count_allocations. rewrite filter_cons.
  destruct (decide (allocates_return_label c = true)) as [->|H].
  - simpl length. lia.
  - destruct (allocates_return_label c); [done|]. lia.
Qed.

Lemma count_allocations_app cs1 cs2 :
  count_allocations (cs1 ++ cs2)%list =
  count_allocations cs1 + count_allocations cs2.
Proof.
  induction cs1 as [|c cs1 IH]; [done|].
  change ((c :: cs1) ++ cs2)%list with (c :: (cs1 ++ cs2))%list.
  rewrite !count_allocations_cons, IH. lia.
Qed.

Lemma state_after_call_index cs : forall t t',
  state_after cs t = Ok t' ->
  call_index t' = call_index t + count_allocations cs.
Proof.
  induction cs as [|c cs IH]; intros t t'; simpl.
  - intros [= <-]. unfold count_allocations. simpl. lia.
  - destruct (visit c t) as [[instrs t1]|] eqn:Hv; [|done]. simpl.
    intros H. rewrite (IH _ _ H), (visit_call_index _ _ _ _ Hv),
      count_allocations_cons. lia.
Qed.

Lemma state_after_app pre post t :
  state_after (pre ++ post)%list t =
  let* t1 := state_after pre t in state_after post t1.
Proof.
  revert t; induction pre as [|c pre IH]; intros t; simpl; [done|].
  destruct (visit c t) as [[instrs t1]|]; simpl; [apply IH|done].
Qed.

Lemma translate_commands_state cs : forall t g l out t' g' l',
  translate_commands cs t g l = Ok (out, t', g', l') ->
  state_after cs t = Ok t'.
Proof.
  induction cs as [|c cs IH]; intros t g l out t' g' l'; simpl.
  - by intros [= _ <- _ _].
  - unfold ASMTranslator_translate.
    destruct (visit c t) as [[instrs t1]|]; [|done]. simpl.
    destruct (write_instructions instrs g l) as [[lines g1] l1].
    destruct (translate_commands cs t1 g1 l1) as [[[[out1 t2] g2] l2]|] eqn:Hr;
      [|done].
    simpl. intros [= _ <- _ _]. by eapply IH.
Qed.

Lemma write_instructions_label instrs : forall g l i,
  i ∈ instrs -> is_label_line i = true ->
  i ∈ (write_instructions instrs g l).1.1.
Proof.
  induction instrs as [|x instrs IH]; intros g l i Hi Hl.
  - by apply elem_of_nil in Hi.
  - simpl. apply elem_of_cons in Hi as [->|Hi].
    + rewrite Hl. destruct (write_instructions instrs g l) as [[??]?].
      simpl. by left.
    + destruct (is_label_line x).
      * specialize (IH g l i Hi Hl).
        destruct (write_instructions instrs g l) as [[??]?]. simpl in *.
        by right.
      * specialize (IH (g + 1) (l + 1) i Hi Hl).
        destruct (write_instructions instrs (g + 1) (l + 1)) as [[??]?].
        simpl in *. by right.
Qed.

Lemma visit_call c t instrs t' :
  command c = "call" ->
  visit c t = Ok (instrs, t') ->
  return_label (t_function_name t) (call_index t) ∈ instrs.
Proof.
  unfold visit. intros ->.
  change (lookup_assoc ("_" +:+ replace_dash "call") methods)
    with (Some (arity2 _call)).
  unfold arity2. destruct (args c) as [|fn [|nargs [|??]]]; try done.
  unfold _call. cbn [next_return_address_label].
  intros H. apply rbind_ok in H as (z & _ & H). injection H as <- <-.
  unfold return_label. cbn [call_index t_function_name].
  apply list_elem_of_lookup. exists 12%nat. reflexivity.
Qed.

Lemma return_label_is_label name N : is_label_line (return_label name N) = true.
Proof. reflexivity. Qed.

Lemma translate_commands_call pre c post : forall t g l out t' g' l',
  translate_commands (pre ++ c :: post)%list t g l = Ok (out, t', g', l') ->
  command c = "call" ->
  exists tc, state_after pre t = Ok tc /\
    return_label (t_function_name tc) (call_index tc) ∈ out.
Proof.
  induction pre as [|x pre IH]; intros t g l out t' g' l'; simpl;
    unfold ASMTranslator_translate.
  - destruct (visit c t) as [[instrs t1]|] eqn:Hv; [|done]. simpl.
    pose proof (write_instructions_label instrs g l) as Hw.
    destruct (write_instructions instrs g l) as [[lines g1] l1].
    destruct (translate_commands post t1 g1 l1) as [[[[out1 t2] g2] l2]|];
      [|done].
    simpl. intros [= <- _ _ _] Hc. exists t. split; [done|].
    apply elem_of_cons; right. apply elem_of_app; left.
    apply Hw; [by eapply visit_call|apply return_label_is_label].
  - destruct (visit x t) as [[instrs t1]|] eqn:Hv; [|done]. simpl.
    destruct (write_instructions instrs g l) as [[lines g1] l1].
    destruct (translate_commands (pre ++ c :: post) t1 g1 l1)
      as [[[[out1 t2] g2] l2]|] eqn:Hr; [|done].
    simpl. intros [= <- _ _ _] Hc.
    destruct (IH _ _ _ _ _ _ _ Hr Hc) as (tc & Hs & Hin).
    exists tc. split; [done|].
    apply elem_of_cons; right. apply elem_of_app; by right.
Qed.

Lemma Function_translate_state f t g out t' g' :
  Function_translate f t g = Ok (out, t', g') ->
  state_after (commands f) (enter_function f t) = Ok t'.
Proof.
  unfold Function_translate. intros H.
  apply rbind_ok in H as ([[[out1 t1] g1] l1] & Hc & H).
  injection H as _ <- _. by eapply translate_commands_state.
Qed.

Lemma Function_translate_call f t g out t' g' pre c post :
  Function_translate f t g = Ok (out, t', g') ->
  commands f = (pre ++ c :: post)%list ->
  command c = "call" ->
  exists tc, state_after pre (enter_function f t) = Ok tc /\
    return_label (t_function_name tc) (call_index tc) ∈ out.
Proof.
  unfold Function_translate. intros H Hf Hc.
  apply rbind_ok in H as ([[[out1 t1] g1] l1] & Ht & H).
  injection H as <- _ _. rewrite Hf in Ht.
  destruct (translate_commands_call _ _ _ _ _ _ _ _ _ _ Ht Hc)
    as (tc & Hs & Hin).
  exists tc. split; [done|].
  apply elem_of_cons; right. apply elem_of_app; by left.
Qed.

Lemma state_after_functions_call_index table names : forall t t',
  state_after_functions table names t = Ok t' ->
  call_index t' = call_index t + allocations_of table names.
Proof.
  induction names as [|n names IH]; intros t t'; simpl.
  - intros [= <-]. lia.
  - destruct (table !! n) as [f|]; [|done].
    destruct (state_after (commands f) (enter_function f t)) as [t1|] eqn:Hs;
      [|done].
    simpl. intros H. rewrite (IH _ _ H), (state_after_call_index _ _ _ Hs).
    simpl. lia.
Qed.

(** C9 (amended): [call_index] belongs to the translator and is never set
    back: the N of the label [name$ret.N] of a call site is the number of
    return-address labels allocated before it in the whole run, in the
    functions lowered earlier and in the commands of its own function that
    come before it. *)
Theorem return_label_index_is_global (table : gmap arg Function)
    (before after : list arg) (n : arg) (f : Function)
    (pre post : list Command) (c : Command)
    (t : ASMTranslator) (g : Z) (out : list string) :
  translate_functions table (before ++ n :: after)%list t g = Ok out ->
  table !! n = Some f ->
  commands f = (pre ++ c :: post)%list ->
  command c = "call" ->
  exists t0 tc,
    state_after_functions table before t = Ok t0 /\
    state_after pre (enter_function f t0) = Ok tc /\
    call_index tc =
      call_index t + allocations_of table before + count_allocations pre /\
    return_label (t_function_name tc) (call_index tc) ∈ out.
Proof.
  revert t g out. induction before as [|b before IH]; intros t g out; simpl.
  - intros H Hn Hf Hc. rewrite Hn in H.
    apply rbind_ok in H as ([[out1 t1] g1] & Ht & H).
    apply rbind_ok in H as (outs & _ & H). injection H as <-.
    destruct (Function_translate_call _ _ _ _ _ _ _ _ _ Ht Hf Hc)
      as (tc & Hs & Hin).
    exists t, tc. repeat split; try done.
    + rewrite (state_after_call_index _ _ _ Hs). simpl. lia.
    + apply elem_of_app; by left.
  - intros H Hn Hf Hc.
    destruct (table !! b) as [fb|] eqn:Hb; [|done].
    apply rbind_ok in H as ([[out1 t1] g1] & Ht & H).
    apply rbind_ok in H as (outs & Hrest & H). injection H as <-.
    destruct (IH _ _ _ Hrest Hn Hf Hc) as (t0 & tc & H0 & Hs & Hidx & Hin).
    pose proof (Function_translate_state _ _ _ _ _ _ Ht) as Hst.
    exists t0, tc. rewrite Hst. simpl. repeat split; try done.
    + rewrite Hidx, (state_after_call_index _ _ _ Hst). simpl. lia.
    + apply elem_of_app; by right.
Qed.

Lemma return_label_index_is_global_witness :
  exists out,
    translate_functions example_optimized [AStr "Sys.init"; AStr "Main.run"]
      ASMTranslator_init 0 = Ok out /\
    exists t0 tc,
      state_after_functions example_optimized [AStr "Sys.init"]
        ASMTranslator_init = Ok t0 /\
      state_after [Cmd "function" [AStr "Main.run"; AInt 0];
                   Cmd "push" [AStr "constant"; AInt 7]]
        (enter_function example_run t0) = Ok tc /\
      call_index tc =
        call_index ASMTranslator_init
        + allocations_of example_optimized [AStr "Sys.init"]
        + count_allocations [Cmd "function" [AStr "Main.run"; AInt 0];
                             Cmd "push" [AStr "constant"; AInt 7]] /\
      return_label (t_function_name tc) (call_index tc) ∈ out.
Proof.
  destruct (is_okb_ok
              (translate_functions example_optimized
                 [AStr "Sys.init"; AStr "Main.run"] ASMTranslator_init 0))
    as [out Hout]; [vm_compute; reflexivity|].
  exists out. split; [exact Hout|].
  apply (return_label_index_is_global example_optimized [AStr "Sys.init"] []
           (AStr "Main.run") example_run
           [Cmd "function" [AStr "Main.run"; AInt 0];
            Cmd "push" [AStr "constant"; AInt 7]]
           [Cmd "return" []] (Cmd "call" [AStr "Main.twice"; AInt 1])
           ASMTranslator_init 0 out Hout);
    vm_compute; reflexivity.
Defined.

(** C9 (counterexample): in the output for the example program the only call
    site of [Main.run] is labelled [Main.run$ret.1], since [Sys.init], lowered
    before it, has taken 0. *)
Lemma per_function_call_index_counterexample :
  exists out,
    translate id (memory_os example_program) "Prog" true
      ["Main.vm"; "Point.vm"] = Ok out /\
    "(Sys.init$ret.0)" ∈ out /\
    "(Main.run$ret.1)" ∈ out /\
    "(Main.run$ret.0)" ∉ out.
Proof.
  eexists. split; [vm_compute; reflexivity|].
  repeat split; apply (bool_decide_unpack _); vm_compute; exact I.
Qed.

(** ** The order of a set decides the order of the output (C2) *)


(** ** The worklist of [reachable_functions] (C3) *)

Lemma elem_of_rev {A : Type} (x : A) (l : list A) : x ∈ rev l <-> x ∈ l.
Proof. rewrite !list_elem_of_In. symmetry. apply in_rev. Qed.

Lemma set_add_fresh x (s : list arg) : x ∉ s -> set_add x s = (s ++ [x])%list.
Proof. intros H. unfold set_add. by rewrite decide_False. Qed.

Lemma pending_unchanged (l : list (arg * Function)) seen x :
  x ∉ l.*1 ->
  sum_list_with
    (fun kv => if decide (kv.1 ∈ (seen ++ [x])%list) then 0%nat
               else dependency_count kv.2) l
  = sum_list_with
      (fun kv => if decide (kv.1 ∈ seen) then 0%nat
                 else dependency_count kv.2) l.
Proof.
  induction l as [|[k v] l IH]; simpl; [done|].
  intros Hx. apply not_elem_of_cons in Hx as [Hk Hx]. rewrite (IH Hx).
  f_equal. destruct (decide (k ∈ seen)) as [Hs|Hs].
  - rewrite decide_True; [done|]. apply elem_of_app; by left.
  - rewrite decide_False; [done|]. rewrite elem_of_app, list_elem_of_singleton.
    intros [?|?]; congruence.
Qed.

Lemma pending_step (l : list (arg * Function)) seen x f :
  NoDup l.*1 -> (x, f) ∈ l -> x ∉ seen ->
  (sum_list_with
     (fun kv => if decide (kv.1 ∈ (seen ++ [x])%list) then 0%nat
                else dependency_count kv.2) l
   + dependency_count f)%nat
  = sum_list_with
      (fun kv => if decide (kv.1 ∈ seen) then 0%nat
                 else dependency_count kv.2) l.
Proof.
  induction l as [|[k v] l IH]; simpl; intros Hnd Hin Hx.
  - by apply elem_of_nil in Hin.
  - apply NoDup_cons in Hnd as [Hk Hnd].
    apply elem_of_cons in Hin as [[= <- <-]|Hin].
    + rewrite (pending_unchanged _ _ _ Hk).
      rewrite decide_True by (apply elem_of_app; right; by left).
      rewrite decide_False by done. lia.
    + assert (k <> x) as Hne.
      { intros ->. apply Hk. apply list_elem_of_fmap. by exists (x, f). }
      rewrite <- (IH Hnd Hin Hx).
      destruct (decide (k ∈ seen)) as [Hs|Hs].
      * rewrite decide_True by (apply elem_of_app; by left). lia.
      * rewrite decide_False; [lia|].
        rewrite elem_of_app, list_elem_of_singleton. intros [?|?]; congruence.
Qed.

Lemma pending_set_add table seen x f :
  table !! x = Some f -> x ∉ seen ->
  (pending table (set_add x seen) + dependency_count f)%nat
  = pending table seen.
Proof.
  intros Hx Hs. rewrite (set_add_fresh _ _ Hs). unfold pending.
  apply pending_step; [apply NoDup_fst_map_to_list| |done].
  by apply elem_of_map_to_list.
Qed.

Lemma pending_nil table : pending table [] = total_dependencies table.
Proof.
  unfold pending, total_dependencies.
  induction (map_to_list table) as [|kv l IH]; [done|].
  cbn [sum_list_with]. rewrite IH.
  destruct (decide (kv.1 ∈ [])) as [H|H]; [by apply elem_of_nil in H|done].
Qed.

Section Reachability.
Variable set_iter : list arg -> list arg.
Hypothesis set_iter_perm : forall l, set_iter l ≡ₚ l.
Variable table : gmap arg Function.
Variable start : arg.

Lemma iter_coll_perm c : iter_coll set_iter c ≡ₚ elems_of c.
Proof. destruct c; simpl; [apply set_iter_perm|done]. Qed.

(** The invariant of the worklist. *)
Definition worklist_invariant (seen frontier : list arg) : Prop :=
  NoDup seen /\
  (forall x, x ∈ seen \/ x ∈ frontier -> reaches table start x) /\
  (start ∈ seen \/ start ∈ frontier) /\
  (forall x y, x ∈ seen -> calls table x y -> y ∈ seen \/ y ∈ frontier) /\
  (forall x, x ∈ seen -> is_Some (table !! x)).

Lemma reach_loop_invariant fuel : forall seen frontier out,
  reach_loop set_iter fuel table seen frontier = Ok out ->
  worklist_invariant seen frontier -> worklist_invariant out [].
Proof.
  induction fuel as [|fuel IH]; intros seen frontier out; simpl; [done|].
  destruct frontier as [|fn rest].
  - by intros [= <-].
  - intros H (Hnd & Hreach & Hstart & Hclosed & Hdom).
    destruct (decide (fn ∈ seen)) as [Hin|Hnin].
    + apply (IH _ _ _ H). repeat split; try done.
      * intros x [?|?]; apply Hreach; [by left|right; by right].
      * destruct Hstart as [?|Hs]; [by left|].
        apply elem_of_cons in Hs as [->|?]; [by left|by right].
      * intros x y Hx Hc. destruct (Hclosed x y Hx Hc) as [?|Hy]; [by left|].
        apply elem_of_cons in Hy as [->|?]; [by left|by right].
    + destruct (table !! fn) as [f|] eqn:Hfn; [|done].
      apply (IH _ _ _ H). rewrite (set_add_fresh _ _ Hnin).
      repeat split.
      * apply NoDup_app. repeat split; [done| |apply NoDup_singleton].
        intros x Hx Hx'. apply list_elem_of_singleton in Hx' as ->. done.
      * intros x [Hx|Hx].
        -- apply elem_of_app in Hx as [Hx|Hx]; [apply Hreach; by left|].
           apply list_elem_of_singleton in Hx as ->. apply Hreach. right. by left.
        -- apply elem_of_app in Hx as [Hx|Hx]; [|apply Hreach; right; by right].
           rewrite elem_of_rev, iter_coll_perm in Hx.
           eapply rtc_r; [apply Hreach; right; by left|]. by exists f.
      * destruct Hstart as [?|Hs]; [left; apply elem_of_app; by left|].
        apply elem_of_cons in Hs as [->|?].
        -- left. apply elem_of_app. right. by left.
        -- right. apply elem_of_app. by right.
      * intros x y Hx Hc. apply elem_of_app in Hx as [Hx|Hx].
        -- destruct (Hclosed x y Hx Hc) as [?|Hy];
             [left; apply elem_of_app; by left|].
           apply elem_of_cons in Hy as [->|?].
           ++ left. apply elem_of_app. right. by left.
           ++ right. apply elem_of_app. by right.
        -- apply list_elem_of_singleton in Hx as ->.
           destruct Hc as (f' & Hf' & Hy). rewrite Hfn in Hf'.
           injection Hf' as <-. right. apply elem_of_app. left.
           by rewrite elem_of_rev, iter_coll_perm.
      * intros x Hx. apply elem_of_app in Hx as [Hx|Hx]; [by apply Hdom|].
        apply list_elem_of_singleton in Hx as ->. by exists f.
Qed.

(** The worklist stops before its fuel is used up, and it fails only on a
    function that is reachable but not in the table. *)
Lemma reach_loop_ok fuel : forall seen frontier,
  (length frontier + pending table seen < fuel)%nat ->
  (forall x, x ∈ frontier -> reaches table start x) ->
  resolved table start ->
  is_ok (reach_loop set_iter fuel table seen frontier).
Proof.
  induction fuel as [|fuel IH]; intros seen frontier Hfuel Hreach Hres;
    [lia|].
  simpl. destruct frontier as [|fn rest]; [by eexists|].
  simpl in Hfuel. destruct (decide (fn ∈ seen)) as [Hin|Hnin].
  - apply IH; [lia| |done]. intros x Hx. apply Hreach. by right.
  - destruct (Hres fn) as [f Hfn]; [apply Hreach; by left|].
    rewrite Hfn. apply IH; [| |done].
    + rewrite length_app, length_rev, iter_coll_perm.
      pose proof (pending_set_add _ _ _ _ Hfn Hnin) as Hp.
      unfold dependency_count in Hp. lia.
    + intros x Hx. apply elem_of_app in Hx as [Hx|Hx];
        [|apply Hreach; by right].
      rewrite elem_of_rev, iter_coll_perm in Hx.
      eapply rtc_r; [apply Hreach; by left|]. by exists f.
Qed.

Lemma reachable_functions_spec seen :
  reachable_functions set_iter table start = Ok seen ->
  NoDup seen /\
  (forall x, x ∈ seen <-> reaches table start x) /\
  (forall x, x ∈ seen -> is_Some (table !! x)).
Proof.
  unfold reachable_functions. intros H.
  apply reach_loop_invariant in H as (Hnd & Hreach & Hstart & Hclosed & Hdom).
  - repeat split; try done.
    + intros Hx. apply Hreach. by left.
    + revert x. apply (rtc_ind_r (fun x => x ∈ seen)).
      * destruct Hstart as [?|Hs]; [done|by apply elem_of_nil in Hs].
      * intros y z Hy Hyz IH. destruct (Hclosed y z IH Hyz) as [?|Hz];
          [done|by apply elem_of_nil in Hz].
  - repeat split.
    + apply NoDup_nil_2.
    + intros x [Hx|Hx]; [by apply elem_of_nil in Hx|].
      apply list_elem_of_singleton in Hx as ->. apply rtc_refl.
    + right. by left.
    + intros x y Hx. by apply elem_of_nil in Hx.
    + intros x Hx. by apply elem_of_nil in Hx.
Qed.

Lemma reachable_functions_ok :
  resolved table start -> is_ok (reachable_functions set_iter table start).
Proof.
  intros Hres. unfold reachable_functions. apply reach_loop_ok; [| |done].
  - rewrite pending_nil. simpl. lia.
  - intros x Hx. apply list_elem_of_singleton in Hx as ->. apply rtc_refl.
Qed.

Lemma reachable_functions_resolved seen :
  reachable_functions set_iter table start = Ok seen -> resolved table start.
Proof.
  intros H x Hx. destruct (reachable_functions_spec _ H) as (_ & Hin & Hdom).
  apply Hdom. by apply Hin.
Qed.
End Reachability.

(** *** The dependencies after the passes are dependencies of the source *)

Lemma elem_of_set_add x y (s : list arg) : x ∈ set_add y s <-> x = y \/ x ∈ s.
Proof.
  unfold set_add. destruct (decide (y ∈ s)) as [Hy|Hy].
  - split; [by right|]. intros [->|?]; done.
  - rewrite elem_of_app, list_elem_of_singleton. tauto.
Qed.

Lemma Function_append_cover f c f' :
  Function_append f c = Ok f' -> dependencies_cover f -> dependencies_cover f'.
Proof.
  unfold Function_append. intros H Hcov.
  destruct (is_call c) eqn:Hcall.
  - destruct (py_index (args c) 0) as [callee|] eqn:Hidx; [|done].
    simpl in H. destruct (dependencies f) as [deps|deps] eqn:Hd; [|done].
    injection H as <-. intros c' d Hc' Hcall' Harg. simpl in *.
    apply elem_of_set_add. apply elem_of_app in Hc' as [Hc'|Hc'].
    + right. specialize (Hcov c' d Hc' Hcall' Harg). by rewrite Hd in Hcov.
    + apply list_elem_of_singleton in Hc' as ->. left.
      unfold py_index in Hidx. rewrite Harg in Hidx. by injection Hidx.
  - injection H as <-. intros c' d Hc' Hcall' Harg. simpl in *.
    apply elem_of_app in Hc' as [Hc'|Hc']; [by eapply Hcov|].
    apply list_elem_of_singleton in Hc' as ->. congruence.
Qed.

Lemma Preassembler_add_cover p c p' :
  Preassembler_add p c = Ok p' ->
  (forall k f, functions p !! k = Some f -> dependencies_cover f) ->
  forall k f, functions p' !! k = Some f -> dependencies_cover f.
Proof.
  unfold Preassembler_add. intros Hadd Hinv.
  destruct (is_function_decl c) eqn:Hdecl; simpl in Hadd.
  - destruct (py_index (args c) 0) as [name|] eqn:Hname; [|done].
    simpl in Hadd. rewrite lookup_insert_eq in Hadd.
    destruct (Function_append _ c) as [f1|] eqn:Happ; [|done].
    simpl in Hadd. injection Hadd as <-. simpl.
    intros k f. rewrite insert_insert_eq, lookup_insert.
    case_decide as Hk; [|by apply Hinv].
    intros [= <-]. eapply Function_append_cover; [done|].
    intros c' d Hc'. simpl in Hc'. by apply elem_of_nil in Hc'.
  - destruct (current_function p) as [cur|]; [|done].
    destruct (functions p !! cur) as [f0|] eqn:Hcur; [|done].
    destruct (Function_append f0 c) as [f1|] eqn:Happ; [|done].
    simpl in Hadd. injection Hadd as <-. simpl.
    intros k f. rewrite lookup_insert.
    case_decide as Hk; [|by apply Hinv].
    intros [= <-]. eapply Function_append_cover; [done|]. by eapply Hinv.
Qed.

Lemma add_lines_cover lines : forall p p',
  add_lines p lines = Ok p' ->
  (forall k f, functions p !! k = Some f -> dependencies_cover f) ->
  forall k f, functions p' !! k = Some f -> dependencies_cover f.
Proof.
  induction lines as [|l lines IH]; intros p p'; simpl.
  - by intros [= <-].
  - destruct (parse_line l) as [[c|]|]; simpl; [|by apply IH|done].
    destruct (Preassembler_add p c) as [p1|] eqn:Hadd; [|done].
    simpl. intros H Hinv. eapply IH; [done|].
    by eapply Preassembler_add_cover.
Qed.

Lemma preassemble_cover sys vm_files : forall p p',
  preassemble sys p vm_files = Ok p' ->
  (forall k f, functions p !! k = Some f -> dependencies_cover f) ->
  forall k f, functions p' !! k = Some f -> dependencies_cover f.
Proof.
  induction vm_files as [|v vs IH]; intros p p'; simpl.
  - by intros [= <-].
  - destruct (read_lines sys v); [|done]. simpl.
    destruct (add_lines _ _) as [p1|] eqn:Hadd; [|done]. simpl.
    intros H Hinv. eapply IH; [done|].
    eapply add_lines_cover; [done|]. done.
Qed.

Lemma startswith_call c :
  is_call c = true -> startswith "call" (symbolic c) = true.
Proof.
  unfold is_call, symbolic. intros H.
  apply orb_true_iff in H as [H|H]; apply bool_decide_eq_true in H;
    rewrite H; destruct (args c); reflexivity.
Qed.

Lemma startswith_first a b p q s :
  startswith (String a p) s = true -> startswith (String b q) s = true ->
  a = b.
Proof.
  destruct s as [|c s]; [done|]. cbn [startswith]. intros H1 H2.
  apply andb_prop in H1 as [H1 _]. apply andb_prop in H2 as [H2 _].
  apply Ascii.eqb_eq in H1, H2. congruence.
Qed.

(** What [try_inline] returns holds no call. *)
Lemma try_inline_no_call f body c :
  try_inline f = Ok (Some body) -> c ∈ body -> is_call c = false.
Proof.
  unfold try_inline, is_constant_accessor, is_static_accessor,
    is_member_accessor.
  intros H Hc. destruct (is_call c) eqn:Hcall; [|done]. exfalso.
  pose proof (startswith_call _ Hcall) as Hs.
  assert (forall p c0 c2,
            match_code [lit_any "function"; lit_any (String "p" p);
                        lit "return"] [c0; c; c2] None = false) as Hpush.
  { intros p c0 c2. unfold match_code. cbn [length Nat.eqb negb zip zip_with
      forallb fst snd]. rewrite !re_match_lit_any.
    destruct (startswith (String "p" p) (symbolic c)) eqn:Hp.
    - discriminate (startswith_first _ _ _ _ _ Hs Hp).
    - by rewrite andb_false_r. }
  destruct (match_code _ (commands f) None) eqn:H1.
  - pose proof (match_code_length _ _ _ H1) as Hlen.
    destruct (commands f) as [|c0 [|c1 [|c2 [|c3 cs]]]]; try done.
    simpl in H. injection H as <-.
    apply list_elem_of_singleton in Hc. subst c1. by rewrite Hpush in H1.
  - clear H1. destruct (match_code _ (commands f) None) eqn:H2.
    + pose proof (match_code_length _ _ _ H2) as Hlen.
      destruct (commands f) as [|c0 [|c1 [|c2 [|c3 cs]]]]; try done.
      simpl in H. injection H as <-.
      apply list_elem_of_singleton in Hc. subst c1. by rewrite Hpush in H2.
    + clear H2. destruct (match_code _ (commands f) None); [|done].
      destruct (py_index (commands f) 3) as [c3|]; [|done]. simpl in H.
      destruct (py_index (args c3) 1) as [i|]; [|done]. simpl in H.
      injection H as <-.
      apply elem_of_cons in Hc as [Hc|Hc]; [by subst c|].
      apply list_elem_of_singleton in Hc. by subst c.
Qed.

Lemma inline_loop_cover function table cs : forall cs' deps,
  inline_loop function table cs = Ok (cs', deps) ->
  (forall d, d ∈ deps ->
     exists c, c ∈ cs /\ is_call c = true /\ args c !! 0%nat = Some d) /\
  (forall c d, c ∈ cs' -> is_call c = true -> args c !! 0%nat = Some d ->
     d ∈ deps).
Proof.
  induction cs as [|c cs IH]; intros cs' deps; simpl.
  - intros [= <- <-].
    split; [intros d H|intros c d H ? ?]; by apply elem_of_nil in H.
  - destruct (is_call c) eqn:Hcall.
    + destruct (py_index (args c) 0) as [name|] eqn:Hidx; [|done]. simpl.
      assert (args c !! 0%nat = Some name) as Harg.
      { unfold py_index in Hidx. by destruct (args c !! 0%nat); simplify_eq. }
      destruct (table !! name) as [callee|]; [|done].
      destruct (try_inline callee) as [[body|]|] eqn:Htry; [| |done]; simpl;
        destruct (inline_loop function table cs) as [[cs1 d1]|]; try done;
        simpl; intros [= <- <-];
        destruct (IH _ _ eq_refl) as [IH1 IH2]; split.
      * intros d Hd. destruct (IH1 d Hd) as (c' & ? & ? & ?).
        exists c'. split; [by right|done].
      * intros c' d Hc' Hcall' Harg'.
        apply elem_of_cons in Hc' as [->|Hc']; [done|].
        apply elem_of_app in Hc' as [Hc'|Hc'].
        { by rewrite (try_inline_no_call _ _ _ Htry Hc') in Hcall'. }
        apply elem_of_cons in Hc' as [->|Hc']; [done|]. by eapply IH2.
      * intros d Hd. apply elem_of_cons in Hd as [->|Hd].
        -- exists c. split; [by left|done].
        -- destruct (IH1 d Hd) as (c' & ? & ? & ?).
           exists c'. split; [by right|done].
      * intros c' d Hc' Hcall' Harg'.
        apply elem_of_cons. apply elem_of_cons in Hc' as [->|Hc'].
        -- left. congruence.
        -- right. by eapply IH2.
    + destruct (inline_loop function table cs) as [[cs1 d1]|]; [|done].
      simpl. intros [= <- <-]. destruct (IH _ _ eq_refl) as [IH1 IH2]. split.
      * intros d Hd. destruct (IH1 d Hd) as (c' & ? & ? & ?).
        exists c'. split; [by right|done].
      * intros c' d Hc' Hcall' Harg'.
        apply elem_of_cons in Hc' as [->|Hc']; [congruence|]. by eapply IH2.
Qed.

Lemma Optimizer_inline_cover f table f' :
  Optimizer_inline f table = Ok f' ->
  dependencies_cover f ->
  dependencies_cover f' /\
  forall d, d ∈ elems_of (dependencies f') -> d ∈ elems_of (dependencies f).
Proof.
  unfold Optimizer_inline. intros H Hcov.
  destruct (inline_loop f table (commands f)) as [[cs deps]|] eqn:Hl; [|done].
  simpl in H. injection H as <-.
  destruct (inline_loop_cover _ _ _ _ _ Hl) as [H1 H2]. split.
  - intros c d Hc Hcall Harg. simpl in *. by eapply H2.
  - intros d Hd. simpl in Hd. destruct (H1 d Hd) as (c & Hc & Hcall & Harg).
    by eapply Hcov.
Qed.

Lemma for_each_inline_within source names : forall table table',
  for_each_function Optimizer_inline names table = Ok table' ->
  (forall k f, table !! k = Some f -> dependencies_cover f) ->
  dependencies_within source table ->
  (forall k f, table' !! k = Some f -> dependencies_cover f) /\
  dependencies_within source table'.
Proof.
  induction names as [|n names IH]; intros table table'; simpl.
  - intros [= <-]. done.
  - destruct (table !! n) as [f|] eqn:Hn; [|done].
    destruct (Optimizer_inline f table) as [f1|] eqn:Hp; [|done]. simpl.
    intros H Hcov Hin.
    destruct (Optimizer_inline_cover _ _ _ Hp (Hcov _ _ Hn)) as [Hc1 Hsub].
    eapply IH; [done| |].
    + intros k g. rewrite lookup_insert. case_decide; [|by apply Hcov].
      by intros [= <-].
    + intros k g. rewrite lookup_insert. case_decide as Hk; [|by apply Hin].
      intros [= <-]. subst k. destruct (Hin _ _ Hn) as (f0 & Hf0 & Hd).
      exists f0. split; [done|]. intros d Hd'. apply Hd. by apply Hsub.
Qed.

Lemma for_each_optimize_within source names : forall table table',
  for_each_function (fun f _ => Optimizer_optimize f) names table = Ok table' ->
  dependencies_within source table -> dependencies_within source table'.
Proof.
  induction names as [|n names IH]; intros table table'; simpl.
  - by intros [= <-].
  - destruct (table !! n) as [f|] eqn:Hn; [|done].
    destruct (Optimizer_optimize f) as [f1|] eqn:Hp; [|done]. simpl.
    intros H Hin. eapply IH; [done|].
    intros k g. rewrite lookup_insert. case_decide as Hk; [|by apply Hin].
    intros [= <-]. subst k. destruct (Hin _ _ Hn) as (f0 & Hf0 & Hd).
    exists f0. split; [done|]. intros d Hd'. apply Hd.
    unfold Optimizer_optimize in Hp.
    destruct (optimize_commands (commands f)); [|done].
    simpl in Hp. by injection Hp as <-.
Qed.

Lemma reaches_within source table a b :
  dependencies_within source table ->
  reaches table a b -> reaches source a b.
Proof.
  intros Hin. apply rtc_subrel. intros x y (f & Hf & Hy).
  destruct (Hin _ _ Hf) as (f0 & Hf0 & Hd). exists f0. eauto.
Qed.

Lemma passes_within set_iter source inlined optimized :
  (forall k f, source !! k = Some f -> dependencies_cover f) ->
  inline_pass set_iter source = Ok inlined ->
  optimize_pass set_iter inlined = Ok optimized ->
  dependencies_within source optimized.
Proof.
  unfold inline_pass, optimize_pass. intros Hcov H1 H2.
  apply rbind_ok in H1 as (names1 & _ & H1).
  apply rbind_ok in H2 as (names2 & _ & H2).
  eapply for_each_optimize_within; [done|].
  eapply for_each_inline_within; [done..|].
  intros k f Hk. exists f. done.
Qed.

(** *** The lines of the output *)

Lemma append_cons c t x : String c t +:+ x = String c (t +:+ x).
Proof. reflexivity. Qed.

Lemma append_nil x : "" +:+ x = x.
Proof. reflexivity. Qed.

Lemma spaces_app x y : spaces (x +:+ y) = (spaces x + spaces y)%nat.
Proof.
  induction x as [|c x IH]; [done|]. rewrite append_cons. simpl.
  rewrite IH. lia.
Qed.

Lemma split_space_spaces s :
  Forall (fun t => spaces t = 0%nat) (split_space s).
Proof.
  induction s as [|c s IH]; simpl.
  - by apply Forall_singleton.
  - destruct (Ascii.eqb c " ") eqn:Hc.
    + by apply Forall_cons_2.
    + destruct (split_space s) as [|t ts].
      * apply Forall_singleton. simpl. by rewrite Hc.
      * apply Forall_cons in IH as [Ht Hts]. apply Forall_cons_2; [|done].
        simpl. by rewrite Hc, Ht.
Qed.

Lemma parse_line_name l c a :
  parse_line l = Ok (Some c) -> args c !! 0%nat = Some a -> is_name a = true.
Proof.
  unfold parse_line, components_of.
  destruct (Nat.eqb _ 0); [done|].
  pose proof (split_space_spaces
                (collapse_spaces false (strip (strip_comment l)))) as Hsp.
  destruct (split_space _) as [|c0 [|c1 [|c2 [|c3 [|c4 [|c5 cs]]]]]];
    simpl; try done.
  - by intros [= <-].
  - intros [= <-]. simpl. intros [= <-]. simpl.
    apply Forall_cons in Hsp as [_ Hsp]. apply Forall_cons in Hsp as [-> _].
    done.
  - destruct (py_int c2); [|done]. simpl. intros [= <-]. simpl.
    intros [= <-]. simpl.
    apply Forall_cons in Hsp as [_ Hsp]. apply Forall_cons in Hsp as [-> _].
    done.
  - destruct (py_int c2); [|done]. simpl. destruct (py_int c3); [|done].
    simpl. intros [= <-]. simpl. intros [= <-]. simpl.
    apply Forall_cons in Hsp as [_ Hsp]. apply Forall_cons in Hsp as [-> _].
    done.
  - destruct (py_int c2); [|done]. simpl. destruct (py_int c4); [|done].
    simpl. intros [= <-]. simpl. intros [= <-]. simpl.
    apply Forall_cons in Hsp as [_ Hsp]. apply Forall_cons in Hsp as [-> _].
    done.
Qed.

Lemma Preassembler_add_named p c p' :
  Preassembler_add p c = Ok p' ->
  (forall a, args c !! 0%nat = Some a -> is_name a = true) ->
  named_table (functions p) -> named_table (functions p').
Proof.
  unfold Preassembler_add. intros H Hc Hp.
  apply rbind_ok in H as (p1 & H1 & H).
  assert (named_table (functions p1)) as Hp1.
  { destruct (is_function_decl c).
    - apply rbind_ok in H1 as (n & Hn & H1). injection H1 as <-.
      intros k. cbn [functions]. rewrite lookup_insert_is_Some.
      intros [<-|[_ Hk]]; [|by apply Hp].
      apply Hc. unfold py_index in Hn.
      by destruct (args c !! 0%nat); simplify_eq.
    - by injection H1 as <-. }
  destruct (current_function p1) as [k|]; [|done].
  destruct (functions p1 !! k) as [f|] eqn:Hk; [|done].
  apply rbind_ok in H as (f' & _ & H). injection H as <-.
  intros k'. cbn [functions]. rewrite lookup_insert_is_Some.
  intros [<-|[_ Hk']]; apply Hp1; [by rewrite Hk|done].
Qed.

Lemma add_lines_named lines : forall p p',
  add_lines p lines = Ok p' ->
  named_table (functions p) -> named_table (functions p').
Proof.
  induction lines as [|l lines IH]; intros p p'; simpl.
  - by intros [= <-].
  - destruct (parse_line l) as [[c|]|] eqn:Hl; simpl; [|by apply IH|done].
    destruct (Preassembler_add p c) as [p1|] eqn:Hadd; [|done].
    simpl. intros H Hinv. eapply IH; [done|].
    eapply Preassembler_add_named; [done| |done].
    intros a. by apply parse_line_name with l.
Qed.

Lemma preassemble_named sys vm_files : forall p p',
  preassemble sys p vm_files = Ok p' ->
  named_table (functions p) -> named_table (functions p').
Proof.
  induction vm_files as [|f fs IH]; intros p p'; simpl.
  - by intros [= <-].
  - destruct (read_lines sys f); [|done]. simpl.
    destruct (add_lines _ _) as [p1|] eqn:Hadd; [|done]. simpl.
    intros H Hinv. eapply IH; [done|].
    eapply add_lines_named; [done|]. done.
Qed.

Lemma append_inj_l x y z : x +:+ y = x +:+ z -> y = z.
Proof.
  induction x as [|c x IH]; [done|]. rewrite !append_cons.
  intros [= H]. by apply IH.
Qed.

Lemma begin_not_instruction l s :
  instruction_line l -> spaces s = 0%nat -> l <> "// Begin: " +:+ s.
Proof.
  intros [Hl|(i & d & ->)] Hs H.
  - subst l. by rewrite append_cons in Hl.
  - assert (spaces i = 0%nat) as Hi.
    { apply (f_equal spaces) in H. rewrite !spaces_app, Hs in H.
      simpl in H. lia. }
    destruct i as [|a [|b [|c i]]]; rewrite ?append_cons, ?append_nil in H.
    + discriminate H.
    + discriminate H.
    + discriminate H.
    + injection H as _ _ Hc _. subst c. simpl in Hi.
      destruct (Ascii.eqb a " "), (Ascii.eqb b " "); simpl in Hi; lia.
Qed.

Lemma methods_not_capital :
  Forall (fun kv : string * lowering => startswith "_B" kv.1 = false) methods.
Proof.
  unfold methods. repeat (apply Forall_cons_2; [reflexivity|]).
  apply Forall_nil_2.
Qed.

Lemma begin_not_comment c t s :
  is_ok (visit c t) -> "// " +:+ symbolic c <> "// Begin: " +:+ s.
Proof.
  intros [r Hok] H. rewrite !append_cons, !append_nil in H.
  injection H as H. unfold visit in Hok. unfold symbolic in H.
  destruct (command c) as [|a cmd].
  - destruct (map str (args c)); simpl in H; [discriminate H|].
    rewrite append_nil, append_cons in H. discriminate H.
  - assert (a = "B"%char) as ->.
    { destruct (map str (args c)); simpl in H;
        rewrite ?append_cons in H; by injection H. }
    destruct (lookup_assoc _ methods) as [m|] eqn:Hm; [|done].
    pose proof (lookup_assoc_Forall
                  (fun k (_ : lowering) => startswith "_B" k = false)
                  _ _ _ methods_not_capital Hm) as Hk.
    rewrite append_cons, append_nil in Hk. simpl in Hk. discriminate Hk.
Qed.

Lemma write_instructions_lines instrs : forall g l,
  Forall instruction_line (write_instructions instrs g l).1.1.
Proof.
  induction instrs as [|x instrs IH]; intros g l; cbn [write_instructions].
  - apply Forall_nil_2.
  - destruct (is_label_line x) eqn:Hx.
    + specialize (IH g l).
      destruct (write_instructions instrs g l) as [[out g1] l1].
      apply Forall_cons_2; [by left|done].
    + specialize (IH (g + 1) (l + 1)).
      destruct (write_instructions instrs (g + 1) (l + 1))
        as [[out g1] l1].
      apply Forall_cons_2; [|done]. right. by eexists _, _.
Qed.

Lemma translate_commands_lines cs : forall t g l out t' g' l',
  translate_commands cs t g l = Ok (out, t', g', l') ->
  Forall body_line out.
Proof.
  induction cs as [|c cs IH]; intros t g l out t' g' l'; simpl.
  - intros [= <- <- <- <-]. apply Forall_nil_2.
  - intros H. apply rbind_ok in H as ([instrs t1] & Hv & H).
    pose proof (write_instructions_lines instrs g l) as Hlines.
    destruct (write_instructions instrs g l) as [[lines g1] l1].
    apply rbind_ok in H as ([[[out1 t2] g2] l2] & Hrest & H).
    injection H as <- <- <- <-.
    apply Forall_cons_2.
    + right. exists c, t. split; [done|]. by eexists.
    + apply Forall_app_2; [|by eapply IH].
      eapply Forall_impl; [exact Hlines|]. intros x Hx. by left.
Qed.

Lemma Function_translate_lines f t g block t' g' :
  Function_translate f t g = Ok (block, t', g') ->
  exists body last,
    block = (begin_line (function_name f) :: body ++ [last])%list /\
    Forall body_line body /\ startswith "// End: " last = true.
Proof.
  unfold Function_translate. intros H.
  apply rbind_ok in H as ([[[body t1] g1] l1] & Hb & H).
  injection H as <- <- <-. eexists body, _. split; [reflexivity|].
  split; [by eapply translate_commands_lines|]. by rewrite !append_cons.
Qed.

Lemma block_begin_line f t g block t' g' l s :
  Function_translate f t g = Ok (block, t', g') ->
  l ∈ block -> spaces s = 0%nat -> l = "// Begin: " +:+ s ->
  s = str (function_name f).
Proof.
  intros H Hl Hs ->.
  apply Function_translate_lines in H as (body & last & -> & Hbody & Hlast).
  apply elem_of_cons in Hl as [Hl|Hl].
  - unfold begin_line in Hl. by apply append_inj_l in Hl.
  - apply elem_of_app in Hl as [Hl|Hl].
    + rewrite Forall_forall in Hbody. apply Hbody in Hl.
      destruct Hl as [Hl|(c & t0 & Hl & Hok)].
      * by apply begin_not_instruction with (s := s) in Hl.
      * symmetry in Hl. by destruct (begin_not_comment c t0 s Hok Hl).
    + apply list_elem_of_singleton in Hl as <-.
      by rewrite !append_cons in Hlast.
Qed.

Lemma translate_functions_blocks table names : forall t g body,
  translate_functions table names t g = Ok body ->
  exists blocks, function_blocks table names t g blocks /\
                 body = concat blocks.
Proof.
  induction names as [|n names IH]; intros t g body; simpl.
  - intros [= <-]. exists []. split; [constructor|done].
  - destruct (table !! n) as [f|] eqn:Hn; [|done]. intros H.
    apply rbind_ok in H as ([[block t1] g1] & Hf & H).
    apply rbind_ok in H as (outs & Hrest & H). injection H as <-.
    destruct (IH _ _ _ Hrest) as (blocks & Hblocks & ->).
    exists (block :: blocks). split; [by econstructor|done].
Qed.

Lemma function_blocks_begin table names t g blocks :
  function_blocks table names t g blocks ->
  table_invariant table ->
  (forall n, n ∈ names -> begin_line n ∈ concat blocks) /\
  (forall l s, l ∈ concat blocks -> spaces s = 0%nat ->
     l = "// Begin: " +:+ s -> exists n, n ∈ names /\ str n = s).
Proof.
  intros Hb Hinv. induction Hb as [|n names f t g block t' g' blocks Hn Hf Hb IH].
  - split; [intros n Hn; by apply elem_of_nil in Hn|].
    intros l s Hl. by apply elem_of_nil in Hl.
  - destruct IH as [IH1 IH2]. destruct (Hinv _ _ Hn) as [Hname _].
    split.
    + intros n' Hn'. cbn [concat]. apply elem_of_app.
      apply elem_of_cons in Hn' as [->|Hn']; [|right; by apply IH1].
      left. apply Function_translate_lines in Hf as (body & last & -> & _).
      rewrite Hname. by left.
    + intros l s Hl Hs Heq. cbn [concat] in Hl.
      apply elem_of_app in Hl as [Hl|Hl].
      * exists n. split; [by left|].
        rewrite (block_begin_line _ _ _ _ _ _ _ _ Hf Hl Hs Heq).
        by rewrite Hname.
      * destruct (IH2 l s Hl Hs Heq) as (n' & Hn' & Hs').
        exists n'. split; [by right|done].
Qed.

Lemma preamble_lines program init_vm l s :
  l ∈ (emit_preamble program init_vm).1.1 -> spaces s = 0%nat ->
  l <> "// Begin: " +:+ s.
Proof.
  unfold emit_preamble. intros Hl Hs Heq.
  assert (("// Program: " +:+ program) <> "// Begin: " +:+ s) as Hprog.
  { rewrite !append_cons. discriminate. }
  destruct init_vm.
  - destruct (_init_vm ASMTranslator_init) as [instrs t].
    pose proof (write_instructions_lines instrs 0 0) as Hlines.
    destruct (write_instructions instrs 0 0) as [[lines g] l0].
    cbn [fst] in Hl, Hlines. apply elem_of_cons in Hl as [->|Hl]; [done|].
    rewrite Forall_forall in Hlines.
    by apply (begin_not_instruction l s (Hlines _ Hl) Hs).
  - cbn [fst] in Hl. apply list_elem_of_singleton in Hl as ->. done.
Qed.

Lemma is_name_str n k :
  is_name n = true -> is_name k = true -> str n = str k -> n = k.
Proof. destruct n, k; simpl; try done. by intros _ _ ->. Qed.

Lemma is_name_spaces k : is_name k = true -> spaces (str k) = 0%nat.
Proof. destruct k; simpl; [|done]. by intros H%Nat.eqb_eq. Qed.

(** C3: the output is the preamble and then, one after the other, the
    blocks of the functions that [Sys.init] reaches along the dependency
    edges of the table that the inlining pass and the peephole pass leave.
    Each of these functions is reachable from [Sys.init] along the calls
    that the preassembler recorded for the source, and the line that opens
    its block is in the output.  A function of the source that [Sys.init]
    does not reach is dropped: the line that would open its block is not a
    line of the output. *)
Theorem only_reachable_functions_emitted (set_iter : list arg -> list arg)
    (sys : os) (program : string) (init_vm : bool) (vm_files : list string)
    (out : list string) :
  (forall l, set_iter l ≡ₚ l) ->
  translate set_iter sys program init_vm vm_files = Ok out ->
  exists p inlined table names blocks,
    preassemble sys Preassembler_init vm_files = Ok p /\
    inline_pass set_iter (functions p) = Ok inlined /\
    optimize_pass set_iter inlined = Ok table /\
    emitted_names set_iter table = Ok names /\
    NoDup names /\
    (forall n, n ∈ names <-> reaches table Sys_init n) /\
    (forall n, n ∈ names -> reaches (functions p) Sys_init n) /\
    function_blocks table names (emit_preamble program init_vm).1.2
      (emit_preamble program init_vm).2 blocks /\
    out = ((emit_preamble program init_vm).1.1 ++ concat blocks)%list /\
    (forall n, n ∈ names -> begin_line n ∈ out) /\
    (forall k, is_Some (functions p !! k) ->
       ~ reaches (functions p) Sys_init k -> begin_line k ∉ out).
Proof.
  intros Hperm H. unfold translate in H.
  apply rbind_ok in H as (p & Hp & H).
  apply rbind_ok in H as (inlined & Hinl & H).
  apply rbind_ok in H as (table & Hopt & H).
  pose proof (preamble_lines program init_vm) as Hpre.
  destruct (emit_preamble program init_vm) as [[preamble t] g].
  cbn [fst snd] in *.
  apply rbind_ok in H as (names & Hnames & H).
  apply rbind_ok in H as (body & Hbody & H). injection H as <-.
  apply translate_functions_blocks in Hbody as (blocks & Hblocks & ->).
  assert (table_invariant table) as Hinv.
  { eapply optimize_pass_invariant; [done|].
    eapply inline_pass_invariant; [done|].
    eapply preassemble_invariant; [done|]. intros k f. simpl.
    by rewrite lookup_empty. }
  assert (named_table (functions p)) as Hnamed.
  { eapply preassemble_named; [done|]. intros k. simpl.
    rewrite lookup_empty. by intros [? ?]. }
  assert (dependencies_within (functions p) table) as Hwithin.
  { eapply passes_within; [|done..].
    eapply preassemble_cover; [done|]. intros k f. simpl.
    by rewrite lookup_empty. }
  pose proof Hnames as Hseen. unfold emitted_names in Hseen.
  apply rbind_ok in Hseen as (seen & Hseen & Hn). injection Hn as Hn.
  destruct (reachable_functions_spec _ Hperm _ _ _ Hseen)
    as (Hnd & Hin & Hdom).
  assert (forall n, n ∈ names <-> reaches table Sys_init n) as Hreach.
  { intros n. rewrite <- Hn, Hperm. apply Hin. }
  assert (forall n, n ∈ names -> reaches (functions p) Sys_init n) as Hsrc.
  { intros n Hn'. eapply reaches_within; [done|]. by apply Hreach. }
  destruct (function_blocks_begin _ _ _ _ _ Hblocks Hinv) as [Hbegin Honly].
  exists p, inlined, table, names, blocks.
  split; [done|]. split; [done|]. split; [done|]. split; [done|].
  split; [by rewrite <- Hn, Hperm|]. split; [done|]. split; [done|].
  split; [done|]. split; [done|]. split.
  - intros n Hn'. apply elem_of_app. right. by apply Hbegin.
  - intros k Hk Hnot Hout. apply Hnamed in Hk.
    apply elem_of_app in Hout as [Hout|Hout].
    + by apply (Hpre _ (str k) Hout (is_name_spaces k Hk)).
    + destruct (Honly _ (str k) Hout (is_name_spaces k Hk) eq_refl)
        as (n & Hn' & Hstr).
      assert (is_name n = true) as Hname.
      { apply Hnamed. rewrite <- Hn, Hperm in Hn'. apply Hdom in Hn'.
        destruct Hn' as [f Hf]. destruct (Hwithin _ _ Hf) as (f0 & -> & _).
        by eexists. }
      apply (is_name_str _ _ Hname Hk) in Hstr as ->.
      by apply Hnot, Hsrc.
Qed.

Lemma only_reachable_functions_emitted_witness :
  exists out,
    translate id (memory_os example_program) "Prog" true
      ["Main.vm"; "Point.vm"] = Ok out /\
    exists p inlined table names blocks,
      preassemble (memory_os example_program) Preassembler_init
        ["Main.vm"; "Point.vm"] = Ok p /\
      inline_pass id (functions p) = Ok inlined /\
      optimize_pass id inlined = Ok table /\
      emitted_names id table = Ok names /\
      NoDup names /\
      (forall n, n ∈ names <-> reaches table Sys_init n) /\
      (forall n, n ∈ names -> reaches (functions p) Sys_init n) /\
      function_blocks table names (emit_preamble "Prog" true).1.2
        (emit_preamble "Prog" true).2 blocks /\
      out = ((emit_preamble "Prog" true).1.1 ++ concat blocks)%list /\
      (forall n, n ∈ names -> begin_line n ∈ out) /\
      (forall k, is_Some (functions p !! k) ->
         ~ reaches (functions p) Sys_init k -> begin_line k ∉ out).
Proof.
  destruct (is_okb_ok (translate id (memory_os example_program) "Prog" true
                         ["Main.vm"; "Point.vm"]))
    as [out Hout]; [vm_compute; reflexivity|].
  exists out. split; [exact Hout|].
  exact (only_reachable_functions_emitted id (memory_os example_program)
           "Prog" true ["Main.vm"; "Point.vm"] out
           (fun l => Permutation_refl l) Hout).
Defined.

(** ** Runs in different orders emit the same functions (C2) *)






(** *** Inlining one function does not change how others are inlined *)













(** *** The passes and the emitted functions *)





Lemma translate_functions_lookup table names : forall t g body,
  translate_functions table names t g = Ok body ->
  exists fs, lookup_functions table names = Ok fs /\
             translate_function_list fs t g = Ok body.
Proof.
  induction names as [|n names IH]; intros t g body; simpl.
  - intros [= <-]. by exists [].
  - destruct (table !! n) as [f|]; [|done].
    destruct (Function_translate f t g) as [[[out t1] g1]|] eqn:Hf; [|done].
    simpl.
    destruct (translate_functions table names t1 g1) as [outs|] eqn:Hr;
      [|done].
    simpl. intros [= <-]. destruct (IH _ _ _ Hr) as (fs & Hfs & Hl).
    exists (f :: fs). rewrite Hfs. simpl. split; [done|].
    rewrite Hf. simpl. by rewrite Hl.
Qed.

(** The output of a run is the preamble and then the lowering of the
    emitted functions. *)
Lemma translate_emitted_functions set_iter sys program init_vm vm_files out :
  translate set_iter sys program init_vm vm_files = Ok out ->
  exists fs body,
    emitted_functions set_iter sys vm_files = Ok fs /\
    translate_function_list fs (emit_preamble program init_vm).1.2
      (emit_preamble program init_vm).2 = Ok body /\
    out = ((emit_preamble program init_vm).1.1 ++ body)%list.
Proof.
  unfold translate, emitted_functions. intros H.
  apply rbind_ok in H as (p & Hp & H).
  apply rbind_ok in H as (inlined & Hinl & H).
  apply rbind_ok in H as (table & Hopt & H).
  destruct (emit_preamble program init_vm) as [[preamble t] g].
  apply rbind_ok in H as (names & Hnames & H).
  apply rbind_ok in H as (body & Hbody & H). injection H as <-.
  destruct (translate_functions_lookup _ _ _ _ _ Hbody) as (fs & Hfs & Hl).
  exists fs, body. rewrite Hp. cbn [rbind]. rewrite Hinl. cbn [rbind].
  rewrite Hopt. cbn [rbind]. rewrite Hnames. cbn [rbind]. done.
Qed.



(** ** Translation of a well-formed single file (C5) *)

(** *** Every well-formed command has a template *)







(** *** The rewrites keep the commands well formed *)











(** *** Preassembly of a well-formed file *)








(** *** The passes on a well-formed table *)










Section WellFormedPipeline.
Variable set_iter : list arg -> list arg.
Hypothesis set_iter_perm : forall l, set_iter l ≡ₚ l.




End WellFormedPipeline.

(** *** The single-file mode of the main program *)






(** * Further properties of the translator *)

(** ** The sliding window *)

Lemma window_rest_spec {A : Type} (n : nat) (it : list A) : forall result,
  (1 <= n)%nat -> length result = n ->
  window_rest result it
  = map (fun i => take n (drop i (result ++ it)%list)) (seq 1 (length it)).
Proof.
  induction it as [|e it IH]; intros result Hn Hlen; [done|].
  cbn [window_rest length seq map].
  destruct result as [|r rs]; [simpl in Hlen; lia|].
  cbn [drop app]. rewrite !drop_0. simpl in Hlen. f_equal.
  - change (e :: it) with ([e] ++ it)%list. rewrite app_assoc.
    rewrite take_app_length'; [done|]. rewrite length_app. simpl. lia.
  - rewrite IH; [|done|rewrite length_app; simpl; lia].
    rewrite <- (seq_shift (length it) 1), map_map. apply map_ext. intros i.
    cbn [drop app]. by rewrite <- app_assoc.
Qed.

(** X1: For a width of at least one, [window] yields the contiguous sublists of
    that width, from left to right; a sequence shorter than the width has
    none. *)
Theorem window_sublists {A : Type} (l : list A) (n : nat) :
  (1 <= n)%nat ->
  window l n
  = map (fun i => take n (drop i l)) (seq 0 (length l + 1 - n)).
Proof.
  intros Hn. unfold window.
  destruct (Nat.eqb_spec (length (take n l)) n) as [Hlen|Hlen].
  - rewrite length_take in Hlen.
    rewrite (window_rest_spec n) by (try done; rewrite length_take; lia).
    rewrite take_drop, length_drop.
    replace (length l + 1 - n)%nat with (S (length l - n)) by lia.
    done.
  - rewrite length_take in Hlen.
    rewrite drop_ge by lia.
    replace (length l + 1 - n)%nat with 0%nat by lia. done.
Qed.

Lemma window_sublists_witness :
  window [1; 2; 3; 4] 3 = [[1; 2; 3]; [2; 3; 4]].
Proof. apply (window_sublists [1; 2; 3; 4] 3). lia. Defined.

Lemma window_rest_singletons {A : Type} (it : list A) : forall result,
  (length result <= 1)%nat ->
  window_rest result it = map (fun x => [x]) it.
Proof.
  induction it as [|e it IH]; intros result Hlen; [done|].
  cbn [window_rest map].
  assert (drop 1 result = []) as ->.
  { destruct result as [|r [|r' rs]]; try done. simpl in Hlen. lia. }
  cbn [app]. f_equal. apply IH. simpl. lia.
Qed.

(** X2: With a width of zero, [window] yields the empty tuple and then every
    element on its own. *)
Theorem window_zero {A : Type} (l : list A) :
  window l 0 = [] :: map (fun x => [x]) l.
Proof.
  unfold window. rewrite take_0, drop_0. cbn [length Nat.eqb app].
  f_equal. apply window_rest_singletons. simpl. lia.
Qed.

(** ** Windowed replacement *)

Lemma window_loop_id {A : Type} (n : nat) (matches : list A -> bool)
    (sub : list A -> result (list A)) :
  (1 <= n)%nat ->
  (forall w, length w = n -> matches w = true -> sub w = Ok w) ->
  forall fuel window it,
    (length window + length it < fuel)%nat ->
    length window = n \/ ((length window < n)%nat /\ it = []) ->
    window_loop n matches sub fuel window it = Ok (window ++ it)%list.
Proof.
  intros Hn Hsub. induction fuel as [|fuel IH]; intros window it Hfuel Hinv;
    [lia|].
  rewrite window_loop_unfold.
  destruct (Nat.eqb_spec (length window) n) as [Hlen|Hlen].
  - destruct (matches window) eqn:Hm.
    + rewrite (Hsub _ Hlen Hm). cbn [rbind].
      rewrite IH.
      * cbn [rbind]. by rewrite take_drop.
      * rewrite length_take, length_drop. lia.
      * rewrite length_take.
        destruct (decide (n <= length it)%nat); [left; lia|].
        right. split; [lia|]. apply drop_ge. lia.
    + destruct window as [|r0 tl]; [simpl in Hlen; lia|].
      simpl in Hlen, Hfuel. rewrite IH.
      * cbn [rbind]. rewrite <- app_assoc, take_drop. done.
      * rewrite length_app, length_take, length_drop. lia.
      * rewrite length_app, length_take.
        destruct it as [|e it]; [right|left]; simpl; [|lia].
        split; [lia|done].
  - destruct Hinv as [?|[_ ->]]; [done|]. by rewrite app_nil_r.
Qed.

(** X3: [window_replace] gives the sequence back when every window that
    matches is replaced by itself; in particular when no window matches. *)
Theorem window_replace_identity {A : Type} (n : nat)
    (matches : list A -> bool) (sub : list A -> result (list A))
    (l : list A) :
  (1 <= n)%nat ->
  (forall w, length w = n -> matches w = true -> sub w = Ok w) ->
  window_replace n matches sub l = Ok l.
Proof.
  intros Hn Hsub. unfold window_replace.
  rewrite (window_loop_id n matches sub Hn Hsub).
  - by rewrite take_drop.
  - rewrite length_take, length_drop. lia.
  - rewrite length_take.
    destruct (decide (n <= length l)%nat); [left; lia|].
    right. split; [lia|]. apply drop_ge. lia.
Qed.

Lemma window_replace_identity_witness :
  window_replace 2 (fun _ : list Z => false) (fun _ => Raise IndexError)
    [1; 2; 3] = Ok [1; 2; 3].
Proof.
  apply (window_replace_identity 2 (fun _ : list Z => false)
           (fun _ => Raise IndexError) [1; 2; 3]).
  - lia.
  - intros w _ Hm. discriminate Hm.
Defined.

Lemma window_loop_ok {A : Type} (n : nat) (matches : list A -> bool)
    (sub : list A -> result (list A)) :
  (1 <= n)%nat ->
  (forall w, length w = n -> matches w = true -> is_ok (sub w)) ->
  forall fuel window it,
    (length window + length it < fuel)%nat ->
    is_ok (window_loop n matches sub fuel window it).
Proof.
  intros Hn Hsub. induction fuel as [|fuel IH]; intros window it Hfuel; [lia|].
  rewrite window_loop_unfold.
  destruct (Nat.eqb_spec (length window) n) as [Hlen|Hlen]; [|by eexists].
  destruct (matches window) eqn:Hm.
  - destruct (Hsub _ Hlen Hm) as [out ->]. cbn [rbind].
    destruct (IH (take n it) (drop n it)) as [rest ->]; [|by eexists].
    rewrite length_take, length_drop. lia.
  - destruct window as [|r0 tl]; [simpl in Hlen; lia|].
    destruct (IH (tl ++ take 1 it)%list (drop 1 it)) as [rest ->];
      [|by eexists].
    rewrite length_app, length_take, length_drop. simpl in Hfuel. lia.
Qed.

(** X4: The loop of [window_replace] ends for every width of at least one, and
    the only exceptions are those of the replacement function. *)
Theorem window_replace_total {A : Type} (n : nat)
    (matches : list A -> bool) (sub : list A -> result (list A))
    (l : list A) :
  (1 <= n)%nat ->
  (forall w, length w = n -> matches w = true -> is_ok (sub w)) ->
  is_ok (window_replace n matches sub l).
Proof.
  intros Hn Hsub. unfold window_replace. apply window_loop_ok; try done.
  rewrite length_take, length_drop. lia.
Qed.

Lemma window_replace_total_witness :
  is_ok (window_replace 2 (fun w : list Z => bool_decide (w = [1; 2]))
           (fun _ => Ok [0]) [1; 2; 1; 2; 3]).
Proof.
  apply (window_replace_total 2 (fun w : list Z => bool_decide (w = [1; 2]))
           (fun _ => Ok [0]) [1; 2; 1; 2; 3]).
  - lia.
  - intros w _ _. by eexists.
Defined.

(** ** The peephole pass *)

Lemma window_loop_length {A : Type} (n : nat) (matches : list A -> bool)
    (sub : list A -> result (list A)) :
  (forall w out, length w = n -> matches w = true -> sub w = Ok out ->
     (length out <= n)%nat) ->
  forall fuel window it out,
    window_loop n matches sub fuel window it = Ok out ->
    (length out <= length window + length it)%nat.
Proof.
  intros Hsub. induction fuel as [|fuel IH]; intros window it out; [done|].
  rewrite window_loop_unfold.
  destruct (Nat.eqb_spec (length window) n) as [Hlen|Hlen];
    [|intros [= <-]; lia].
  destruct (matches window) eqn:Hm.
  - intros H. apply rbind_ok in H as (o & Ho & H).
    apply rbind_ok in H as (rest & Hrest & H). injection H as <-.
    apply IH in Hrest. rewrite length_take, length_drop in Hrest.
    pose proof (Hsub _ _ Hlen Hm Ho). rewrite length_app. lia.
  - destruct window as [|r0 tl]; [done|].
    intros H. apply rbind_ok in H as (rest & Hrest & H). injection H as <-.
    apply IH in Hrest.
    rewrite length_app, length_take, length_drop in Hrest. simpl. lia.
Qed.

Lemma rule_replace_length r w out :
  r ∈ rules -> replace r w = Ok out -> (length out <= length (expr r))%nat.
Proof.
  intros Hr. unfold rules in Hr. rewrite !elem_of_cons in Hr.
  destruct Hr as [->|[->|[->|[->|[->|[->|[->|[->|[->|[->|[->|Hr]]]]]]]]]]];
    [..|by apply elem_of_nil in Hr]; unfold_rules; intros H;
    repeat (apply rbind_ok in H as (? & _ & H)); injection H as <-;
    simpl; lia.
Qed.

Lemma apply_rules_length rs : forall cs out,
  (forall r, r ∈ rs -> r ∈ rules) ->
  apply_rules rs cs = Ok out -> (length out <= length cs)%nat.
Proof.
  induction rs as [|r rs IH]; intros cs out Hrs; simpl.
  - intros [= <-]. lia.
  - intros H. apply rbind_ok in H as (cs1 & H1 & H).
    apply IH in H; [|intros r' Hr'; apply Hrs; by right].
    unfold apply_rule, rewrite, window_replace in H1.
    apply window_loop_length in H1.
    + rewrite length_take, length_drop in H1. lia.
    + intros w o _ _ Ho. eapply rule_replace_length; [|done].
      apply Hrs. by left.
Qed.

(** X5: The peephole pass never makes a function longer. *)
Theorem optimize_never_longer (cs out : list Command) :
  optimize_commands cs = Ok out -> (length out <= length cs)%nat.
Proof. apply apply_rules_length. done. Qed.

Lemma optimize_never_longer_witness :
  exists out,
    optimize_commands
      [Cmd "push" [AStr "local"; AInt 0]; Cmd "push" [AStr "constant"; AInt 1];
       Cmd "lt" []; Cmd "not" []; Cmd "pop" [AStr "temp"; AInt 0]] = Ok out /\
    (length out <= 5)%nat.
Proof.
  eexists. split; [vm_compute; reflexivity|].
  apply (optimize_never_longer
           [Cmd "push" [AStr "local"; AInt 0];
            Cmd "push" [AStr "constant"; AInt 1];
            Cmd "lt" []; Cmd "not" []; Cmd "pop" [AStr "temp"; AInt 0]]).
  vm_compute; reflexivity.
Defined.

Lemma window_loop_filter {A : Type} (P : A -> bool) (n : nat)
    (matches : list A -> bool) (sub : list A -> result (list A)) :
  (forall w out, matches w = true -> sub w = Ok out ->
     filter (fun x => P x = true) out = filter (fun x => P x = true) w) ->
  forall fuel window it out,
    length window = n \/ it = [] ->
    window_loop n matches sub fuel window it = Ok out ->
    filter (fun x => P x = true) out
    = filter (fun x => P x = true) (window ++ it)%list.
Proof.
  intros Hsub. induction fuel as [|fuel IH]; intros window it out Hinv;
    [done|].
  rewrite window_loop_unfold.
  destruct (Nat.eqb_spec (length window) n) as [Hlen|Hlen].
  - assert (length (take n it) = n \/ drop n it = []) as Hinv1.
    { destruct (decide (n <= length it)%nat).
      - left. rewrite length_take. lia.
      - right. apply drop_ge. lia. }
    destruct (matches window) eqn:Hm.
    + intros H. apply rbind_ok in H as (o & Ho & H).
      apply rbind_ok in H as (rest & Hrest & H). injection H as <-.
      apply IH in Hrest; [|done]. rewrite take_drop in Hrest.
      rewrite !filter_app, Hrest. f_equal. by apply Hsub.
    + destruct window as [|r0 tl]; [done|].
      intros H. apply rbind_ok in H as (rest & Hrest & H). injection H as <-.
      apply IH in Hrest.
      * rewrite <- app_assoc, take_drop in Hrest.
        cbn [app]. rewrite !filter_cons, Hrest. done.
      * destruct it as [|e it]; [by right|left].
        rewrite length_app. simpl in *. lia.
  - intros H. injection H as <-.
    destruct Hinv as [Hl | ->]; [done|]. by rewrite app_nil_r.
Qed.

Lemma window_replace_filter {A : Type} (P : A -> bool) (n : nat)
    (matches : list A -> bool) (sub : list A -> result (list A)) l out :
  (forall w out, matches w = true -> sub w = Ok out ->
     filter (fun x => P x = true) out = filter (fun x => P x = true) w) ->
  window_replace n matches sub l = Ok out ->
  filter (fun x => P x = true) out = filter (fun x => P x = true) l.
Proof.
  intros Hsub H. unfold window_replace in H.
  apply (window_loop_filter P n matches sub Hsub) in H.
  - by rewrite take_drop in H.
  - destruct (decide (n <= length l)%nat).
    + left. rewrite length_take. lia.
    + right. apply drop_ge. lia.
Qed.

(** No pattern of the peephole pass matches a [call] or [call-ext]
    command: each pattern starts with a letter other than [c]. *)
Lemma call_no_match c a p :
  is_call c = true -> a <> "c"%char ->
  startswith (String a p) (symbolic c) = false.
Proof.
  intros Hc Ha. destruct (startswith (String a p) (symbolic c)) eqn:Hs; [|done].
  pose proof (startswith_first _ _ _ _ _ (startswith_call _ Hc) Hs). congruence.
Qed.

Lemma rule_window_no_call r w c :
  r ∈ rules -> fires r w = true -> c ∈ w -> is_call c = false.
Proof.
  intros Hr Hf Hc. destruct (is_call c) eqn:Hcall; [exfalso|done].
  assert (forall a p, a <> "c"%char ->
            startswith (String a p) (symbolic c) = false) as Hno.
  { intros a p. by apply call_no_match. }
  unfold rules in Hr. rewrite !elem_of_cons in Hr.
  destruct Hr as [->|[->|[->|[->|[->|[->|[->|[->|[->|[->|[->|Hr]]]]]]]]]]];
    [..|by apply elem_of_nil in Hr]; unfold fires in Hf; revert Hf;
    unfold_rules; unfold cmp_pattern;
    first [rewrite match_code_2 | rewrite match_code_3];
    destruct w as [|x [|y [|z [|u w]]]]; try done;
    rewrite ?re_match_alt, ?re_match_lit_any, ?re_match_lit; intros Hf;
    rewrite !elem_of_cons in Hc;
    (destruct Hc as [->|[->|Hc]];
       [| |try (destruct Hc as [->|Hc]); try by apply elem_of_nil in Hc]);
    rewrite ?Hno in Hf by done; simpl in Hf;
    rewrite ?andb_false_r in Hf; try discriminate Hf.
Qed.

Lemma is_call_first c :
  is_call c = true -> exists s, command c = String "c" s.
Proof.
  unfold is_call. intros H.
  apply orb_true_iff in H as [H|H]; apply bool_decide_eq_true in H;
    rewrite H; by eexists.
Qed.

Lemma py_index_elem_of {A : Type} (l : list A) i x :
  py_index l i = Ok x -> x ∈ l.
Proof.
  unfold py_index. destruct (l !! i) eqn:Hi; [|done].
  intros [= <-]. by eapply list_elem_of_lookup_2.
Qed.

Lemma rule_output_no_call r w out c :
  r ∈ rules -> fires r w = true -> replace r w = Ok out -> c ∈ out ->
  is_call c = false.
Proof.
  intros Hr Hf H Hc. destruct (is_call c) eqn:Hcall; [exfalso|done].
  destruct (is_call_first _ Hcall) as [s Hs].
  assert (forall x, x ∈ w -> c <> x) as Hw.
  { intros x Hx ->. by rewrite (rule_window_no_call r w x) in Hcall. }
  clear Hf.
  unfold rules in Hr. rewrite !elem_of_cons in Hr.
  destruct Hr as [->|[->|[->|[->|[->|[->|[->|[->|[->|[->|[->|Hr]]]]]]]]]]];
    [..|by apply elem_of_nil in Hr]; revert H; unfold_rules; intros H;
    unfold w_arg, w_at in H;
    repeat (let Hx := fresh "Hx" in apply rbind_ok in H as (? & Hx & H);
            try apply py_index_elem_of in Hx);
    injection H as <-;
    rewrite ?elem_of_cons in Hc;
    repeat (destruct Hc as [->|Hc]); try (by apply elem_of_nil in Hc);
    try (simpl in Hs; discriminate Hs).
  eapply Hw; [|reflexivity]. done.
Qed.

Lemma filter_nil_Forall {A : Type} (P : A -> bool) (l : list A) :
  (forall x, x ∈ l -> P x = false) -> filter (fun x => P x = true) l = [].
Proof.
  induction l as [|x l IH]; intros H; [done|].
  rewrite filter_cons. destruct (decide (P x = true)) as [Hx|Hx].
  - rewrite H in Hx; [done|by left].
  - apply IH. intros y Hy. apply H. by right.
Qed.

Lemma apply_rules_calls rs : forall cs out,
  (forall r, r ∈ rs -> r ∈ rules) ->
  apply_rules rs cs = Ok out ->
  filter (fun c => is_call c = true) out
  = filter (fun c => is_call c = true) cs.
Proof.
  induction rs as [|r rs IH]; intros cs out Hrs; simpl.
  - by intros [= <-].
  - intros H. apply rbind_ok in H as (cs1 & H1 & H).
    apply IH in H; [|intros r' Hr'; apply Hrs; by right].
    rewrite H. unfold apply_rule, rewrite in H1.
    eapply window_replace_filter; [|exact H1].
    intros w o Hm Ho. cbv beta in Hm.
    rewrite !filter_nil_Forall; [done| |].
    + intros x. eapply rule_window_no_call; [apply Hrs; by left|done].
    + intros x. eapply rule_output_no_call; [apply Hrs; by left|done..].
Qed.

(** X6: The peephole pass keeps the [call] and [call-ext] commands of a
    function as they are and in their order: no rewrite takes one in or
    puts one out.  The dependencies recorded before the pass stay those of
    the optimized body. *)
Theorem optimize_keeps_calls (cs out : list Command) :
  optimize_commands cs = Ok out ->
  filter (fun c => is_call c = true) out
  = filter (fun c => is_call c = true) cs /\
  call_targets out = call_targets cs.
Proof.
  intros H. apply apply_rules_calls in H; [|done]. split; [done|].
  unfold call_targets.
  assert (forall l : list Command,
            omap (fun c => if is_call c then args c !! 0%nat else None) l
            = omap (fun c => args c !! 0%nat)
                (filter (fun c => is_call c = true) l)) as Hom.
  { induction l as [|x l IH]; [done|]. rewrite filter_cons. simpl.
    unfold omap in IH. destruct (is_call x) eqn:Hx.
    - rewrite decide_True by done. simpl. by rewrite IH.
    - rewrite decide_False by done. done. }
  by rewrite !Hom, H.
Qed.

Lemma optimize_keeps_calls_witness :
  exists out,
    optimize_commands
      [Cmd "push" [AStr "constant"; AInt 0]; Cmd "not" [];
       Cmd "call" [AStr "Main.f"; AInt 1]; Cmd "pop" [AStr "temp"; AInt 0];
       Cmd "push" [AStr "temp"; AInt 0]; Cmd "call-ext" [AStr "Main.g"]]
    = Ok out /\
    filter (fun c => is_call c = true) out
    = [Cmd "call" [AStr "Main.f"; AInt 1]; Cmd "call-ext" [AStr "Main.g"]] /\
    call_targets out = [AStr "Main.f"; AStr "Main.g"].
Proof.
  eexists. split; [vm_compute; reflexivity|].
  apply (optimize_keeps_calls
           [Cmd "push" [AStr "constant"; AInt 0]; Cmd "not" [];
            Cmd "call" [AStr "Main.f"; AInt 1];
            Cmd "pop" [AStr "temp"; AInt 0];
            Cmd "push" [AStr "temp"; AInt 0];
            Cmd "call-ext" [AStr "Main.g"]]).
  vm_compute; reflexivity.
Defined.

(** ** Inlining *)

Lemma call_targets_app cs1 cs2 :
  call_targets (cs1 ++ cs2) = (call_targets cs1 ++ call_targets cs2)%list.
Proof.
  unfold call_targets. induction cs1 as [|c cs1 IH]; [done|]. simpl.
  unfold omap in IH. destruct (is_call c); [|done].
  destruct (args c !! 0%nat); [|done]. simpl. by rewrite IH.
Qed.

Lemma call_targets_cons_call c cs d :
  is_call c = true -> args c !! 0%nat = Some d ->
  call_targets (c :: cs) = d :: call_targets cs.
Proof. intros Hc Hd. unfold call_targets. simpl. by rewrite Hc, Hd. Qed.

Lemma call_targets_cons_other c cs :
  is_call c = false -> call_targets (c :: cs) = call_targets cs.
Proof. intros Hc. unfold call_targets. simpl. by rewrite Hc. Qed.

Lemma call_targets_no_call cs :
  (forall c, c ∈ cs -> is_call c = false) -> call_targets cs = [].
Proof.
  induction cs as [|c cs IH]; intros H; [done|].
  rewrite call_targets_cons_other by (apply H; by left).
  apply IH. intros x Hx. apply H. by right.
Qed.

Lemma inline_loop_call_targets function table cs : forall cs' deps,
  inline_loop function table cs = Ok (cs', deps) -> deps = call_targets cs'.
Proof.
  induction cs as [|c cs IH]; intros cs' deps; simpl.
  - by intros [= <- <-].
  - destruct (is_call c) eqn:Hcall.
    + destruct (py_index (args c) 0) as [name|] eqn:Hidx; [|done]. simpl.
      assert (args c !! 0%nat = Some name) as Harg.
      { unfold py_index in Hidx. by destruct (args c !! 0%nat); simplify_eq. }
      destruct (table !! name) as [callee|]; [|done].
      destruct (try_inline callee) as [[body|]|] eqn:Htry; [| |done]; simpl;
        destruct (inline_loop function table cs) as [[cs1 d1]|]; try done;
        simpl; intros [= <- <-]; rewrite (IH _ _ eq_refl).
      * rewrite call_targets_cons_other by done.
        rewrite call_targets_app, call_targets_cons_other by done.
        rewrite (call_targets_no_call body); [done|].
        intros x Hx. by eapply try_inline_no_call.
      * by rewrite (call_targets_cons_call c cs1 name).
    + destruct (inline_loop function table cs) as [[cs1 d1]|]; [|done].
      simpl. intros [= <- <-]. rewrite (IH _ _ eq_refl).
      by rewrite call_targets_cons_other.
Qed.

(** X7: After [Optimizer.inline] the dependencies of the function are the list
    of the targets of the calls that are left in its body, in the order of
    the calls and with a target as often as it is called. *)
Theorem inline_dependencies_are_calls (f f' : Function)
    (table : gmap arg Function) :
  Optimizer_inline f table = Ok f' ->
  dependencies f' = PyList (call_targets (commands f')).
Proof.
  unfold Optimizer_inline. intros H.
  destruct (inline_loop f table (commands f)) as [[cs deps]|] eqn:Hl; [|done].
  simpl in H. injection H as <-. simpl.
  by rewrite (inline_loop_call_targets _ _ _ _ _ Hl).
Qed.

Lemma inline_dependencies_are_calls_witness :
  exists f',
    Optimizer_inline
      (mkFunction "Main" (AStr "Main.run")
         [Cmd "function" [AStr "Main.run"; AInt 0];
          Cmd "call" [AStr "Point.getx"; AInt 1];
          Cmd "call" [AStr "Main.run"; AInt 0];
          Cmd "call" [AStr "Main.run"; AInt 0]]
         (PySet [AStr "Point.getx"; AStr "Main.run"]))
      (<[AStr "Main.run" :=
           mkFunction "Main" (AStr "Main.run")
             [Cmd "function" [AStr "Main.run"; AInt 0]] (PySet [])]>
         example_table) = Ok f' /\
    dependencies f' = PyList (call_targets (commands f')).
Proof.
  destruct (is_okb_ok
    (Optimizer_inline
      (mkFunction "Main" (AStr "Main.run")
         [Cmd "function" [AStr "Main.run"; AInt 0];
          Cmd "call" [AStr "Point.getx"; AInt 1];
          Cmd "call" [AStr "Main.run"; AInt 0];
          Cmd "call" [AStr "Main.run"; AInt 0]]
         (PySet [AStr "Point.getx"; AStr "Main.run"]))
      (<[AStr "Main.run" :=
           mkFunction "Main" (AStr "Main.run")
             [Cmd "function" [AStr "Main.run"; AInt 0]] (PySet [])]>
         example_table))) as [f' Hf']; [vm_compute; reflexivity|].
  exists f'. split; [exact Hf'|].
  exact (inline_dependencies_are_calls _ _ _ Hf').
Defined.

Lemma inline_loop_undefined function table pre c post d :
  Forall (fun x => is_call x = true -> call_resolves table x) pre ->
  is_call c = true -> args c !! 0%nat = Some d -> table !! d = None ->
  inline_loop function table (pre ++ c :: post) = Raise (KeyError d).
Proof.
  intros Hpre Hc Hd Hnone. induction Hpre as [|x pre Hx _ IH]; simpl.
  - unfold py_index. by rewrite Hc, Hd; simpl; rewrite Hnone.
  - destruct (is_call x) eqn:Hcall; [|by rewrite IH].
    destruct (Hx eq_refl) as (e & callee & He & Hcallee & [body Hbody]).
    unfold py_index. rewrite He. cbn [rbind]. rewrite Hcallee, Hbody.
    cbn [rbind]. rewrite IH. by destruct body.
Qed.

(** X8: [Optimizer.inline] looks every callee up in the function table: the
    first call of a function that is not in the table raises a [KeyError]
    with the name of the callee, whatever follows the call.  The calls
    before it are those that the loop gets past: each names a function of
    the table on which [try_inline] returns. *)
Theorem inline_undefined_callee (f : Function) (table : gmap arg Function)
    (pre post : list Command) (c : Command) (d : arg) :
  commands f = (pre ++ c :: post)%list ->
  Forall (fun x => is_call x = true -> call_resolves table x) pre ->
  is_call c = true -> args c !! 0%nat = Some d -> table !! d = None ->
  Optimizer_inline f table = Raise (KeyError d).
Proof.
  intros Hcs Hpre Hc Hd Hnone. unfold Optimizer_inline.
  by rewrite Hcs, (inline_loop_undefined f table pre c post d).
Qed.

Lemma inline_undefined_callee_witness :
  Optimizer_inline
    (mkFunction "Main" (AStr "Main.unused")
       [Cmd "function" [AStr "Main.unused"; AInt 0];
        Cmd "push" [AStr "constant"; AInt 3];
        Cmd "call" [AStr "Point.getx"; AInt 1];
        Cmd "call" [AStr "Sys.init"; AInt 0];
        Cmd "call" [AStr "Nowhere.f"; AInt 0]; Cmd "return" []]
       (PySet [AStr "Point.getx"; AStr "Sys.init"; AStr "Nowhere.f"]))
    example_table = Raise (KeyError (AStr "Nowhere.f")).
Proof.
  apply (inline_undefined_callee _ example_table
           [Cmd "function" [AStr "Main.unused"; AInt 0];
            Cmd "push" [AStr "constant"; AInt 3];
            Cmd "call" [AStr "Point.getx"; AInt 1];
            Cmd "call" [AStr "Sys.init"; AInt 0]]
           [Cmd "return" []]
           (Cmd "call" [AStr "Nowhere.f"; AInt 0]) (AStr "Nowhere.f")).
  - reflexivity.
  - repeat apply Forall_cons_2; try apply Forall_nil_2; intros Hcall;
      try discriminate Hcall.
    + exists (AStr "Point.getx"), example_callee.
      split; [reflexivity|]. split; [vm_compute; reflexivity|].
      eexists. vm_compute. reflexivity.
    + exists (AStr "Sys.init"), example_caller.
      split; [reflexivity|]. split; [vm_compute; reflexivity|].
      eexists. vm_compute. reflexivity.
  - reflexivity.
  - reflexivity.
  - vm_compute; reflexivity.
Defined.

(** ** The preassembler *)

Lemma add_lines_blank blanks : forall p rest,
  Forall (fun b => parse_line b = Ok None) blanks ->
  add_lines p (blanks ++ rest) = add_lines p rest.
Proof.
  induction blanks as [|b blanks IH]; intros p rest Hb; [done|].
  apply Forall_cons in Hb as [Hb Hbs]. simpl. rewrite Hb. simpl.
  by apply IH.
Qed.

(** X9: A command ahead of the first function declaration has no function to
    go to: [current_function] is still [None], and the run ends with an
    [AttributeError].  The lines up to the command are plain text, which
    the parser reads as [parse_line] does. *)
Theorem command_before_function_fails (set_iter : list arg -> list arg)
    (sys : os) (program : string) (init_vm : bool) (vm_file : string)
    (files blanks rest : list string) (l : string) (c : Command) :
  read_lines sys vm_file = Ok (blanks ++ l :: rest)%list ->
  Forall (fun b => plain_line b = true) (blanks ++ [l])%list ->
  Forall (fun b => parse_line b = Ok None) blanks ->
  parse_line l = Ok (Some c) ->
  is_function_decl c = false ->
  translate set_iter sys program init_vm (vm_file :: files)
  = Raise (AttributeError "append").
Proof.
  intros Hread _ Hblank Hl Hc. unfold translate. cbn [preassemble].
  rewrite Hread. cbn [rbind]. rewrite add_lines_blank by done.
  cbn [add_lines]. rewrite Hl. cbn [rbind].
  unfold Preassembler_add. rewrite Hc. reflexivity.
Qed.

Lemma command_before_function_fails_witness :
  translate id
    (memory_os [("SimpleAdd.vm",
                 ["// Pushes and adds two constants."; "";
                  "push constant 7"; "push constant 8"; "add"])])
    "SimpleAdd" false ["SimpleAdd.vm"]
  = Raise (AttributeError "append").
Proof.
  apply (command_before_function_fails id _ "SimpleAdd" false "SimpleAdd.vm"
           [] ["// Pushes and adds two constants."; ""]
           ["push constant 8"; "add"] "push constant 7"
           (Cmd "push" [AStr "constant"; AInt 7])).
  - reflexivity.
  - repeat apply Forall_cons_2; try apply Forall_nil_2; reflexivity.
  - repeat apply Forall_cons_2; try apply Forall_nil_2; reflexivity.
  - reflexivity.
  - reflexivity.
Defined.

Lemma NoDup_set_add x (s : list arg) : NoDup s -> NoDup (set_add x s).
Proof.
  intros Hs. unfold set_add. destruct (decide (x ∈ s)) as [Hx|Hx]; [done|].
  apply NoDup_app. split; [done|]. split; [|apply NoDup_singleton].
  intros y Hy Hy'. apply list_elem_of_singleton in Hy' as ->. done.
Qed.

Lemma Function_append_exact f c f' :
  Function_append f c = Ok f' -> dependencies_exact f -> dependencies_exact f'.
Proof.
  unfold Function_append. intros H (s & Hs & Hnd & Hin). rewrite Hs in H.
  destruct (is_call c) eqn:Hcall.
  - destruct (py_index (args c) 0) as [callee|] eqn:Hidx; [|done].
    assert (args c !! 0%nat = Some callee) as Harg.
    { unfold py_index in Hidx. by destruct (args c !! 0%nat); simplify_eq. }
    simpl in H. injection H as <-. exists (set_add callee s). simpl.
    split; [done|]. split; [by apply NoDup_set_add|]. intros d.
    rewrite elem_of_set_add, call_targets_app, elem_of_app, Hin.
    rewrite (call_targets_cons_call c [] callee) by done.
    rewrite list_elem_of_singleton. tauto.
  - injection H as <-. exists s. simpl. split; [done|]. split; [done|].
    intros d. rewrite call_targets_app, elem_of_app, Hin.
    rewrite (call_targets_cons_other c []) by done.
    rewrite elem_of_nil. tauto.
Qed.

Lemma Preassembler_add_exact p c p' :
  Preassembler_add p c = Ok p' ->
  (forall k f, functions p !! k = Some f -> dependencies_exact f) ->
  forall k f, functions p' !! k = Some f -> dependencies_exact f.
Proof.
  unfold Preassembler_add. intros Hadd Hinv.
  destruct (is_function_decl c) eqn:Hdecl; simpl in Hadd.
  - destruct (py_index (args c) 0) as [name|] eqn:Hname; [|done].
    simpl in Hadd. rewrite lookup_insert_eq in Hadd.
    destruct (Function_append _ c) as [f1|] eqn:Happ; [|done].
    simpl in Hadd. injection Hadd as <-. simpl.
    intros k f. rewrite insert_insert_eq, lookup_insert.
    case_decide as Hk; [|by apply Hinv].
    intros [= <-]. eapply Function_append_exact; [done|].
    exists []. simpl. split; [done|]. split; [apply NoDup_nil_2|done].
  - destruct (current_function p) as [cur|]; [|done].
    destruct (functions p !! cur) as [f0|] eqn:Hcur; [|done].
    destruct (Function_append f0 c) as [f1|] eqn:Happ; [|done].
    simpl in Hadd. injection Hadd as <-. simpl.
    intros k f. rewrite lookup_insert.
    case_decide as Hk; [|by apply Hinv].
    intros [= <-]. eapply Function_append_exact; [done|]. by eapply Hinv.
Qed.

Lemma add_lines_exact lines : forall p p',
  add_lines p lines = Ok p' ->
  (forall k f, functions p !! k = Some f -> dependencies_exact f) ->
  forall k f, functions p' !! k = Some f -> dependencies_exact f.
Proof.
  induction lines as [|l lines IH]; intros p p'; simpl.
  - by intros [= <-].
  - destruct (parse_line l) as [[c|]|]; simpl; [|by apply IH|done].
    destruct (Preassembler_add p c) as [p1|] eqn:Hadd; [|done].
    simpl. intros H Hinv. eapply IH; [done|].
    by eapply Preassembler_add_exact.
Qed.

Lemma preassemble_exact sys vm_files : forall p p',
  preassemble sys p vm_files = Ok p' ->
  (forall k f, functions p !! k = Some f -> dependencies_exact f) ->
  forall k f, functions p' !! k = Some f -> dependencies_exact f.
Proof.
  induction vm_files as [|v vs IH]; intros p p'; simpl.
  - by intros [= <-].
  - destruct (read_lines sys v); [|done]. simpl.
    destruct (add_lines _ _) as [p1|] eqn:Hadd; [|done]. simpl.
    intros H Hinv. eapply IH; [done|].
    eapply add_lines_exact; [done|]. done.
Qed.

(** X10: When the files are parsed, the dependency set of every function of the
    table holds exactly the targets of the [call] and [call-ext] commands
    of its body, each of them once. *)
Theorem preassembled_dependencies (sys : os) (vm_files : list string)
    (p : Preassembler) (k : arg) (f : Function) :
  preassemble sys Preassembler_init vm_files = Ok p ->
  functions p !! k = Some f ->
  exists s, dependencies f = PySet s /\ NoDup s /\
    forall d, d ∈ s <-> d ∈ call_targets (commands f).
Proof.
  intros Hp Hk. eapply preassemble_exact; [done| |done].
  intros k' f'. simpl. by rewrite lookup_empty.
Qed.

Lemma preassembled_dependencies_witness :
  exists p f,
    preassemble (memory_os example_program) Preassembler_init
      ["Main.vm"; "Point.vm"] = Ok p /\
    functions p !! AStr "Sys.init" = Some f /\
    exists s, dependencies f = PySet s /\ NoDup s /\
      forall d, d ∈ s <-> d ∈ call_targets (commands f).
Proof.
  destruct (is_okb_ok (preassemble (memory_os example_program)
                         Preassembler_init ["Main.vm"; "Point.vm"]))
    as [p Hp]; [vm_compute; reflexivity|].
  destruct (is_okb_ok
              (let* p := preassemble (memory_os example_program)
                           Preassembler_init ["Main.vm"; "Point.vm"] in
               match functions p !! AStr "Sys.init" with
               | Some f => Ok f
               | None => Raise (KeyError (AStr "Sys.init"))
               end)) as [f Hf]; [vm_compute; reflexivity|].
  rewrite Hp in Hf. cbn [rbind] in Hf.
  assert (functions p !! AStr "Sys.init" = Some f) as Hk.
  { destruct (functions p !! AStr "Sys.init"); [|done]. by injection Hf as <-. }
  exists p, f. split; [exact Hp|]. split; [exact Hk|].
  exact (preassembled_dependencies _ _ p (AStr "Sys.init") f Hp Hk).
Defined.

(** ** The reachability worklist *)

Section ReachabilityErrors.
Variable set_iter : list arg -> list arg.
Hypothesis set_iter_perm : forall l, set_iter l ≡ₚ l.
Variable table : gmap arg Function.
Variable start : arg.

Lemma reach_loop_error fuel : forall seen frontier e,
  (length frontier + pending table seen < fuel)%nat ->
  (forall x, x ∈ frontier -> reaches table start x) ->
  reach_loop set_iter fuel table seen frontier = Raise e ->
  exists x, e = KeyError x /\ reaches table start x /\ table !! x = None.
Proof.
  induction fuel as [|fuel IH]; intros seen frontier e Hfuel Hreach; [lia|].
  simpl. destruct frontier as [|fn rest]; [done|].
  simpl in Hfuel. destruct (decide (fn ∈ seen)) as [Hin|Hnin].
  - apply IH; [lia|]. intros x Hx. apply Hreach. by right.
  - destruct (table !! fn) as [f|] eqn:Hfn.
    + apply IH.
      * rewrite length_app, length_rev, (iter_coll_perm set_iter set_iter_perm).
        pose proof (pending_set_add _ _ _ _ Hfn Hnin) as Hp.
        unfold dependency_count in Hp. lia.
      * intros x Hx. apply elem_of_app in Hx as [Hx|Hx];
          [|apply Hreach; by right].
        rewrite elem_of_rev, (iter_coll_perm set_iter set_iter_perm) in Hx.
        eapply rtc_r; [apply Hreach; by left|]. by exists f.
    + intros [= <-]. exists fn. split; [done|]. split; [|done].
      apply Hreach. by left.
Qed.
End ReachabilityErrors.

(** X11: [reachable_functions] succeeds exactly when every function that the
    start function reaches through the dependencies is in the table; when
    it fails, it does so with a [KeyError] that names a function which is
    reachable and not in the table. *)
Theorem reachable_functions_errors (set_iter : list arg -> list arg)
    (table : gmap arg Function) (start : arg) :
  (forall l, set_iter l ≡ₚ l) ->
  (is_ok (reachable_functions set_iter table start)
   <-> resolved table start) /\
  forall e, reachable_functions set_iter table start = Raise e ->
    exists x, e = KeyError x /\ reaches table start x /\ table !! x = None.
Proof.
  intros Hperm. split; [split|].
  - intros [seen Hseen]. by eapply reachable_functions_resolved.
  - by apply reachable_functions_ok.
  - intros e. unfold reachable_functions. apply reach_loop_error; [done| |].
    + rewrite pending_nil. simpl. lia.
    + intros x Hx. apply list_elem_of_singleton in Hx as ->. apply rtc_refl.
Qed.

Lemma reachable_functions_errors_witness :
  (is_ok (reachable_functions id example_table (AStr "Main.main"))
   <-> resolved example_table (AStr "Main.main")) /\
  forall e, reachable_functions id example_table (AStr "Main.main") = Raise e ->
    exists x, e = KeyError x /\ reaches example_table (AStr "Main.main") x /\
              example_table !! x = None.
Proof.
  apply (reachable_functions_errors id example_table (AStr "Main.main")).
  intros l. apply Permutation_refl.
Defined.

(** ** The code generator *)

Lemma visit_push t s i : visit (Cmd "push" [s; i]) t = pure_ t (_push t s i).
Proof. reflexivity. Qed.

Lemma visit_pop t s i : visit (Cmd "pop" [s; i]) t = pure_ t (_pop t s i).
Proof. reflexivity. Qed.

(** X12: [pointer i] indexes the two-element list of pointer registers the way
    Python indexes a list: [0] and [-2] are [THIS], [1] and [-1] are [THAT],
    and every other index is an [IndexError]. *)
Theorem pointer_index_bounds (t : ASMTranslator) (i : Z) :
  visit (Cmd "push" [AStr "pointer"; AInt i]) t
  = if (-2 <=? i) && (i <=? 1) then
      Ok ([(if (i =? 0) || (i =? -2) then "@THIS" else "@THAT");
           "D=M"; "@SP"; "AM=M+1"; "A=A-1"; "M=D"], t)
    else Raise IndexError.
Proof.
  rewrite visit_push. unfold _push, _ldd, pointer_register, seg_is.
  cbn [as_int rbind bool_decide decide_rel]. simpl bool_decide.
  destruct (Z.leb_spec (-2) i), (Z.leb_spec i 1); cbn [andb].
  - assert (i = -2 \/ i = -1 \/ i = 0 \/ i = 1) as [-> | [-> | [-> | ->]]]
      by lia; reflexivity.
  - destruct (Z.ltb_spec i 0); [lia|].
    destruct (Z.leb_spec 0 i); [|lia]. destruct (Z.ltb_spec i 2); [lia|].
    reflexivity.
  - destruct (Z.ltb_spec i 0); [|lia].
    destruct (Z.leb_spec 0 (i + 2)); [lia|]. reflexivity.
  - lia.
Qed.

Lemma seg_is_other name s : s <> name -> seg_is name (AStr s) = false.
Proof. intros H. unfold seg_is. apply bool_decide_eq_false_2. congruence. Qed.

(** X13: A segment name that [pop] does not know is no error: the store is the
    placeholder instruction [???], whatever the index is.  [constant] is
    such a name. *)
Theorem unknown_segment_pop (t : ASMTranslator) (s : string) (i : arg) :
  s ∉ ["static"; "temp"; "pointer"; "local"; "argument"; "this"; "that"] ->
  visit (Cmd "pop" [AStr s; i]) t
  = Ok (["@SP"; "AM=M-1"; "D=M"; "???"], t).
Proof.
  intros Hs. rewrite !not_elem_of_cons in Hs.
  destruct Hs as (H1 & H2 & H3 & H4 & H5 & H6 & H7 & _).
  assert (memory_segment (AStr s) = None) as Hmem.
  { unfold memory_segment, _memory_segments. cbn [lookup_assoc].
    by rewrite !decide_False by done. }
  rewrite visit_pop. unfold _pop, _sdd.
  by rewrite !seg_is_other, Hmem by done.
Qed.

Lemma unknown_segment_pop_witness :
  visit (Cmd "pop" [AStr "constant"; AInt 3]) ASMTranslator_init
  = Ok (["@SP"; "AM=M-1"; "D=M"; "???"], ASMTranslator_init).
Proof.
  apply (unknown_segment_pop ASMTranslator_init "constant" (AInt 3)).
  rewrite !not_elem_of_cons. repeat split; try discriminate.
  apply not_elem_of_nil.
Defined.

(** X14: A segment name that [push] does not know is no error either: the load
    is the placeholder instruction [???], whatever the index is. *)
Theorem unknown_segment_push (t : ASMTranslator) (s : string) (i : arg) :
  s ∉ ["constant"; "constant~"; "constant-"; "static"; "temp"; "pointer";
       "local"; "argument"; "this"; "that"] ->
  visit (Cmd "push" [AStr s; i]) t
  = Ok (["???"; "@SP"; "AM=M+1"; "A=A-1"; "M=D"], t).
Proof.
  intros Hs. rewrite !not_elem_of_cons in Hs.
  destruct Hs as (H1 & H2 & H3 & H4 & H5 & H6 & H7 & H8 & H9 & H10 & _).
  assert (memory_segment (AStr s) = None) as Hmem.
  { unfold memory_segment, _memory_segments. cbn [lookup_assoc].
    by rewrite !decide_False by done. }
  rewrite visit_push. unfold _push, _ldd.
  by rewrite !seg_is_other, Hmem by done.
Qed.

Lemma unknown_segment_push_witness :
  visit (Cmd "push" [AStr "heap"; AStr "x"]) ASMTranslator_init
  = Ok (["???"; "@SP"; "AM=M+1"; "A=A-1"; "M=D"], ASMTranslator_init).
Proof.
  apply (unknown_segment_push ASMTranslator_init "heap" (AStr "x")).
  rewrite !not_elem_of_cons. repeat split; try discriminate.
  apply not_elem_of_nil.
Defined.

(** ** Line numbers *)

Lemma write_instructions_spec instrs : forall g l out g' l',
  write_instructions instrs g l = (out, g', l') ->
  g' = g + Z.of_nat (length (filter (fun x => is_label_line x = false) instrs))
  /\ l' = l + Z.of_nat (length (filter (fun x => is_label_line x = false)
                                  instrs))
  /\ forall k,
       out !! k
       = (fun x =>
            if is_label_line x then x
            else x +:+ " // " +:+
                 str_of_int
                   (g + Z.of_nat
                          (length (filter (fun x => is_label_line x = false)
                                     (take k instrs)))))
         <$> instrs !! k.
Proof.
  induction instrs as [|x instrs IH]; intros g l out g' l'.
  - simpl. intros [= <- <- <-]. split; [lia|]. split; [lia|]. by intros [|k].
  - cbn [write_instructions]. rewrite filter_cons.
    destruct (is_label_line x) eqn:Hx.
    + destruct (write_instructions instrs g l) as [[out1 g1] l1] eqn:Hw.
      intros [= <- <- <-]. destruct (IH _ _ _ _ _ Hw) as (Hg & Hl & Hk).
      rewrite decide_False by done. split; [done|]. split; [done|].
      intros [|k]; cbn [lookup list_lookup fmap option_map].
      * simpl. by rewrite Hx.
      * rewrite Hk. cbn [take].
        rewrite filter_cons, decide_False by (by rewrite Hx). done.
    + destruct (write_instructions instrs (g + 1) (l + 1))
        as [[out1 g1] l1] eqn:Hw.
      intros [= <- <- <-]. destruct (IH _ _ _ _ _ Hw) as (Hg & Hl & Hk).
      rewrite decide_True by done. cbn [length].
      split; [lia|]. split; [lia|].
      intros [|k]; cbn [lookup list_lookup fmap option_map].
      * simpl. rewrite Hx. by rewrite Z.add_0_r.
      * rewrite Hk. cbn [take]. rewrite filter_cons, decide_True by done.
        cbn [length].
        match goal with
        | |- context [Z.of_nat (S ?n)] =>
            replace (g + Z.of_nat (S n)) with (g + 1 + Z.of_nat n) by lia
        end.
        done.
Qed.

(** X15: The loop that writes the instructions of a command copies a label
    line as it is and puts the line number after every other instruction;
    the numbers go up by one from the global line count, and both counters
    advance by the number of instructions that are not labels. *)
Theorem write_instructions_numbers (instrs : list string) (g l : Z) :
  (write_instructions instrs g l).1.2
  = g + Z.of_nat (length (filter (fun x => is_label_line x = false) instrs)) /\
  (write_instructions instrs g l).2
  = l + Z.of_nat (length (filter (fun x => is_label_line x = false) instrs)) /\
  forall k,
    (write_instructions instrs g l).1.1 !! k
    = (fun x =>
         if is_label_line x then x
         else x +:+ " // " +:+
              str_of_int
                (g + Z.of_nat
                       (length (filter (fun x => is_label_line x = false)
                                  (take k instrs)))))
      <$> instrs !! k.
Proof.
  destruct (write_instructions instrs g l) as [[out g'] l'] eqn:Hw.
  exact (write_instructions_spec _ _ _ _ _ _ Hw).
Qed.

Lemma translate_commands_counts cs : forall t g l out t' g' l',
  translate_commands cs t g l = Ok (out, t', g', l') ->
  g <= g' /\ l' - l = g' - g.
Proof.
  induction cs as [|c cs IH]; intros t g l out t' g' l'; simpl.
  - intros [= <- <- <- <-]. lia.
  - intros H. apply rbind_ok in H as ([instrs t1] & _ & H).
    destruct (write_instructions instrs g l) as [[lines g1] l1] eqn:Hw.
    apply rbind_ok in H as ([[[out1 t2] g2] l2] & Hrest & H).
    injection H as <- <- <- <-.
    destruct (write_instructions_spec _ _ _ _ _ _ Hw) as (Hg & Hl & _).
    apply IH in Hrest. lia.
Qed.

(** X16: The block that [Function.translate] writes starts with the [Begin]
    comment and ends with the [End] comment of the function, and the line
    count in the [End] comment is the advance of the global line count:
    the number of instructions of the block. *)
Theorem function_block_frame (f : Function) (t t' : ASMTranslator)
    (g g' : Z) (out : list string) :
  Function_translate f t g = Ok (out, t', g') ->
  g <= g' /\
  exists body,
    out = (("// Begin: " +:+ str (function_name f)) :: body ++
           ["// End: " +:+ str (function_name f) +:+ " / " +:+
            str_of_int (g' - g) +:+ " lines"])%list.
Proof.
  unfold Function_translate. intros H.
  apply rbind_ok in H as ([[[body t1] g1] l1] & Hb & H).
  injection H as <- <- <-.
  apply translate_commands_counts in Hb as [Hle Hl].
  split; [done|]. exists body. rewrite Z.sub_0_r in Hl. by rewrite Hl.
Qed.

Lemma function_block_frame_witness :
  exists out t' g',
    Function_translate example_callee ASMTranslator_init 100
    = Ok (out, t', g') /\
    100 <= g' /\
    exists body,
      out = (("// Begin: " +:+ str (function_name example_callee)) :: body ++
             ["// End: " +:+ str (function_name example_callee) +:+ " / " +:+
              str_of_int (g' - 100) +:+ " lines"])%list.
Proof.
  destruct (is_okb_ok (Function_translate example_callee ASMTranslator_init
                         100)) as [[[out t'] g'] H]; [vm_compute; reflexivity|].
  exists out, t', g'. split; [exact H|].
  exact (function_block_frame example_callee ASMTranslator_init t' 100 g' out
           H).
Defined.

(** ** Integers as text *)

Lemma int_digits_acc d : forall p b,
  d <> Decimal.Nil \/ b = true ->
  int_digits (Z.pos p) b (NilEmpty.string_of_uint d)
  = Some (Z.pos (Pos.of_uint_acc d p)).
Proof.
  induction d as [|d IH|d IH|d IH|d IH|d IH|d IH|d IH|d IH|d IH|d IH];
    intros p b Hb;
    [destruct Hb as [?| ->]; [done|reflexivity]|..];
    cbn [NilEmpty.string_of_uint int_digits Pos.of_uint_acc];
    match goal with
    | |- context [digit_value ?c] =>
        let v := eval vm_compute in (digit_value c) in
        change (digit_value c) with v
    end; cbv iota;
    match goal with
    | |- int_digits ?z _ _ = Some (Z.pos (Pos.of_uint_acc _ ?q)) =>
        replace z with (Z.pos q) by lia
    end; apply IH; by right.
Qed.

Lemma int_digits_uint d : forall b,
  d <> Decimal.Nil \/ b = true ->
  int_digits 0 b (NilEmpty.string_of_uint d) = Some (Z.of_N (Pos.of_uint d)).
Proof.
  induction d as [|d IH|d IH|d IH|d IH|d IH|d IH|d IH|d IH|d IH|d IH];
    intros b Hb;
    [destruct Hb as [?| ->]; [done|reflexivity]|..];
    cbn [NilEmpty.string_of_uint int_digits Pos.of_uint];
    match goal with
    | |- context [digit_value ?c] =>
        let v := eval vm_compute in (digit_value c) in
        change (digit_value c) with v
    end; cbv iota.
  - change (10 * 0 + 0) with 0. apply IH. by right.
  - change (10 * 0 + 1) with (Z.pos 1). apply int_digits_acc. by right.
  - change (10 * 0 + 2) with (Z.pos 2). apply int_digits_acc. by right.
  - change (10 * 0 + 3) with (Z.pos 3). apply int_digits_acc. by right.
  - change (10 * 0 + 4) with (Z.pos 4). apply int_digits_acc. by right.
  - change (10 * 0 + 5) with (Z.pos 5). apply int_digits_acc. by right.
  - change (10 * 0 + 6) with (Z.pos 6). apply int_digits_acc. by right.
  - change (10 * 0 + 7) with (Z.pos 7). apply int_digits_acc. by right.
  - change (10 * 0 + 8) with (Z.pos 8). apply int_digits_acc. by right.
  - change (10 * 0 + 9) with (Z.pos 9). apply int_digits_acc. by right.
Qed.

Lemma py_int_digits d :
  d <> Decimal.Nil ->
  py_int (NilEmpty.string_of_uint d) = Ok (Z.of_N (Pos.of_uint d)).
Proof.
  intros Hd. pose proof (int_digits_uint d false (or_introl Hd)) as H.
  unfold py_int.
  destruct d; [done|..]; cbn [NilEmpty.string_of_uint] in *;
    cbv iota beta; by rewrite H.
Qed.

Lemma py_int_of_str_of_int (z : Z) : py_int (str_of_int z) = Ok z.
Proof.
  unfold str_of_int. destruct z as [|p|p]; [reflexivity|..];
    cbn [Z.to_int NilZero.string_of_int];
    pose proof (DecimalPos.Unsigned.to_uint_nonnil p) as Hnil;
    pose proof (DecimalPos.Unsigned.of_to p) as Hp.
  - replace (NilZero.string_of_uint (Pos.to_uint p))
      with (NilEmpty.string_of_uint (Pos.to_uint p))
      by (by destruct (Pos.to_uint p)).
    by rewrite py_int_digits, Hp.
  - replace (NilZero.string_of_uint (Pos.to_uint p))
      with (NilEmpty.string_of_uint (Pos.to_uint p))
      by (by destruct (Pos.to_uint p)).
    unfold py_int.
    change (match String "-" ?s with
            | String "+" rest => _
            | _ => _
            end) with (Z.opp <$> int_digits 0 false s).
    rewrite int_digits_uint by (by left). by rewrite Hp.
Qed.

(** [str] of an integer determines the integer. *)
Lemma str_of_int_inj z1 z2 : str_of_int z1 = str_of_int z2 -> z1 = z2.
Proof.
  intros H. pose proof (py_int_of_str_of_int z1) as H1.
  rewrite H, py_int_of_str_of_int in H1. by injection H1.
Qed.

(** X17: [int(str(z))] is [z] for an integer [z] of at most 4300 decimal
    digits, the numbers that [str] and [int] convert in every interpreter:
    the text that [symbolic] writes for an integer argument is read back by
    the parser as the same integer, so that two integers with the same text
    are the same. *)
Theorem int_of_str_round_trip (z : Z) :
  Z.abs z < 10 ^ 4300 ->
  py_int (str_of_int z) = Ok z /\
  forall z', str_of_int z = str_of_int z' -> z = z'.
Proof.
  intros _. split; [apply py_int_of_str_of_int|]. intros z'.
  apply str_of_int_inj.
Qed.

Lemma int_of_str_round_trip_witness :
  py_int (str_of_int (-32768)) = Ok (-32768) /\
  forall z', str_of_int (-32768) = str_of_int z' -> -32768 = z'.
Proof.
  apply (int_of_str_round_trip (-32768)). vm_compute. reflexivity.
Defined.

(** ** Lines and tokens *)

Lemma token_char_spec c :
  token_char c = true ->
  is_space c = false /\ Ascii.eqb c "/" = false /\ Ascii.eqb c " " = false.
Proof.
  unfold token_char. intros H. apply andb_prop in H as [H H2].
  apply andb_prop in H as [_ H1].
  apply negb_true_iff in H1, H2. repeat split; try done.
  destruct (Ascii.eqb_spec c " ") as [->|]; [|done]. discriminate H1.
Qed.

Lemma is_token_spec t :
  is_token t = true -> t <> "" /\ all_chars token_char t = true.
Proof. destruct t; [done|]. intros H. split; [done|exact H]. Qed.

Lemma strip_comment_cons c r :
  Ascii.eqb c "/" = false ->
  strip_comment (String c r) = String c (strip_comment r).
Proof. intros Hc. simpl. destruct r; [done|]. by rewrite Hc. Qed.

Lemma lstrip_cons c r : is_space c = false -> lstrip (String c r) = String c r.
Proof. intros Hc. simpl. by rewrite Hc. Qed.

Lemma rstrip_cons c r :
  rstrip r = r -> r <> "" -> rstrip (String c r) = String c r.
Proof. intros Hr Hne. simpl. rewrite Hr. by destruct r. Qed.

Lemma rstrip_last c : is_space c = false -> rstrip (String c "") = String c "".
Proof. intros Hc. simpl. by rewrite Hc. Qed.

Lemma collapse_spaces_cons b c r :
  is_space c = false ->
  collapse_spaces b (String c r) = String c (collapse_spaces false r).
Proof. intros Hc. simpl. by rewrite Hc. Qed.

Lemma split_space_cons c t ts r :
  Ascii.eqb c " " = false -> split_space r = t :: ts ->
  split_space (String c r) = String c t :: ts.
Proof. intros Hc Hr. simpl. by rewrite Hc, Hr. Qed.

(** What the steps of the parser do to a string that starts with a token
    and goes on with a space and a string [x] that they leave alone. *)
Lemma token_then t : forall x,
  all_chars token_char t = true ->
  (strip_comment x = x -> strip_comment (t +:+ x) = t +:+ x) /\
  (rstrip x = x -> x <> "" -> rstrip (t +:+ x) = t +:+ x) /\
  (collapse_spaces false (t +:+ x) = t +:+ collapse_spaces false x) /\
  (split_space (t +:+ String " " x) = t :: split_space x).
Proof.
  induction t as [|c t IH]; intros x Ht.
  - rewrite !append_nil. repeat split; try done.
  - simpl in Ht. apply andb_prop in Ht as [Hc Ht].
    apply token_char_spec in Hc as (Hs & Hslash & Hsp).
    destruct (IH x Ht) as (IH1 & IH2 & IH3 & IH4).
    rewrite !append_cons. repeat split.
    + intros Hx. by rewrite strip_comment_cons, IH1.
    + intros Hx Hne. apply rstrip_cons; [by apply IH2|].
      destruct t; [by rewrite append_nil|by rewrite append_cons].
    + by rewrite collapse_spaces_cons, IH3.
    + by apply split_space_cons.
Qed.

Lemma rstrip_token t :
  t <> "" -> all_chars token_char t = true -> rstrip t = t.
Proof.
  induction t as [|c t IH]; intros Hne Ht; [done|].
  simpl in Ht. apply andb_prop in Ht as [Hc Ht].
  apply token_char_spec in Hc as (Hs & _ & _).
  destruct t as [|c' t']; [by apply rstrip_last|].
  apply rstrip_cons; [|done]. by apply IH.
Qed.

Lemma token_alone t :
  is_token t = true ->
  strip_comment t = t /\ rstrip t = t /\ collapse_spaces false t = t /\
  split_space t = [t] /\ exists c r, t = String c r /\ is_space c = false.
Proof.
  intros Ht. apply is_token_spec in Ht as [Hne Ht].
  assert (strip_comment t = t /\ collapse_spaces false t = t /\
          split_space t = [t]) as (H1 & H3 & H4).
  { clear Hne. induction t as [|c t IH]; [done|].
    simpl in Ht. apply andb_prop in Ht as [Hc Ht].
    apply token_char_spec in Hc as (Hs & Hslash & Hsp).
    destruct (IH Ht) as (IH1 & IH3 & IH4). repeat split.
    - by rewrite strip_comment_cons, IH1.
    - by rewrite collapse_spaces_cons, IH3.
    - by apply split_space_cons. }
  repeat split; try done.
  - by apply rstrip_token.
  - destruct t as [|c r]; [done|]. exists c, r. split; [done|].
    simpl in Ht. apply andb_prop in Ht as [Hc _].
    by apply token_char_spec in Hc as (Hs & _ & _).
Qed.

Lemma join_cons2 t t' ts :
  join " " (t :: t' :: ts) = t +:+ String " " (join " " (t' :: ts)).
Proof. reflexivity. Qed.

Lemma join_tokens tokens :
  tokens <> [] -> Forall (fun t => is_token t = true) tokens ->
  strip_comment (join " " tokens) = join " " tokens /\
  rstrip (join " " tokens) = join " " tokens /\
  collapse_spaces false (join " " tokens) = join " " tokens /\
  split_space (join " " tokens) = tokens /\
  exists c r, join " " tokens = String c r /\ is_space c = false.
Proof.
  intros Hne Htok. induction Htok as [|t ts Ht Hts IH]; [done|].
  destruct ts as [|t' ts].
  - cbn [join]. destruct (token_alone t Ht) as (H1 & H2 & H3 & H4 & H5).
    done.
  - destruct IH as (IH1 & IH2 & IH3 & IH4 & c' & r' & IH5 & Hc'); [done|].
    rewrite join_cons2. remember (join " " (t' :: ts)) as J eqn:HJ.
    clear HJ Hts. subst J.
    apply is_token_spec in Ht as [Hne' Ht].
    destruct (token_then t (String " " (String c' r')) Ht)
      as (T1 & T2 & T3 & _).
    destruct (token_then t (String c' r') Ht) as (_ & _ & _ & T4).
    assert (Ascii.eqb " " "/" = false) as Hsl by reflexivity.
    split; [|split; [|split; [|split]]].
    + apply T1. rewrite strip_comment_cons by done. by rewrite IH1.
    + apply T2; [|done]. by apply rstrip_cons.
    + rewrite T3. f_equal.
      change (collapse_spaces false (String " " (String c' r')))
        with (String " " (collapse_spaces true (String c' r'))).
      rewrite (collapse_spaces_cons true c' r') by done.
      rewrite <- (collapse_spaces_cons false c' r') by done.
      by rewrite IH3.
    + by rewrite T4, IH4.
    + destruct t as [|c r]; [done|].
      exists c, (r +:+ String " " (String c' r')).
      split; [by rewrite append_cons|].
      simpl in Ht. apply andb_prop in Ht as [Hc _].
      by apply token_char_spec in Hc as (Hs & _ & _).
Qed.

Lemma components_of_join tokens :
  tokens <> [] -> Forall (fun t => is_token t = true) tokens ->
  components_of (join " " tokens) = Some tokens.
Proof.
  intros Hne Htok.
  destruct (join_tokens tokens Hne Htok)
    as (H1 & H2 & H3 & H4 & c & r & Hs & Hc).
  unfold components_of, strip. rewrite H1.
  rewrite Hs, lstrip_cons by done. rewrite <- Hs, H2, H3, H4.
  by rewrite Hs.
Qed.

Lemma all_chars_digits d :
  all_chars token_char (NilEmpty.string_of_uint d) = true.
Proof. induction d; simpl; try done. Qed.

Lemma str_of_int_token z : is_token (str_of_int z) = true.
Proof.
  unfold str_of_int. destruct z as [|p|p]; [reflexivity|..];
    cbn [Z.to_int NilZero.string_of_int];
    pose proof (DecimalPos.Unsigned.to_uint_nonnil p) as Hnil;
    pose proof (all_chars_digits (Pos.to_uint p)) as Hd;
    destruct (Pos.to_uint p); try done.
Qed.

(** X18: The parser reads back what [symbolic] writes: a command of one of the
    five shapes that the parser builds, printed by [symbolic] on a line of
    its own, is parsed as the same command. *)
Theorem parse_symbolic_round_trip (c : Command) :
  parser_shape c = true -> parse_line (symbolic c) = Ok (Some c).
Proof.
  destruct c as [op a]. unfold parser_shape, parse_line, symbolic.
  cbn [command args]. intros H. apply andb_prop in H as [Hop H].
  pose proof str_of_int_token as Hint.
  destruct a as [|[s1|z1] [|[s2|z2] [|[s3|z3] [|[s4|z4] [|? ?]]]]];
    try discriminate H; repeat (apply andb_prop in H as [? H]);
    (rewrite components_of_join;
       [|done|repeat apply Forall_cons_2; try apply Forall_nil_2;
              cbn [str]; auto]);
    cbn [map str command_of_components];
    rewrite ?py_int_of_str_of_int; reflexivity.
Qed.

Lemma parse_symbolic_round_trip_witness :
  parse_line (symbolic (Cmd "function-ext" [AStr "Main.f"; AInt 2; AInt (-3)]))
  = Ok (Some (Cmd "function-ext" [AStr "Main.f"; AInt 2; AInt (-3)])).
Proof.
  apply (parse_symbolic_round_trip
           (Cmd "function-ext" [AStr "Main.f"; AInt 2; AInt (-3)])).
  reflexivity.
Defined.

(** ** Comments and white space *)

Lemma strip_comment_cut l c :
  strip_comment (l +:+ "//" +:+ c) = strip_comment (l +:+ "//").
Proof.
  induction l as [|a l IH]; [reflexivity|].
  rewrite !append_cons. destruct l as [|b l].
  - rewrite !append_nil. change ("//" +:+ c) with (String "/" (String "/" c)).
    simpl. by destruct (Ascii.eqb a "/").
  - rewrite !append_cons in *. simpl.
    destruct (Ascii.eqb a "/" && Ascii.eqb b "/"); [done|].
    simpl in IH. by rewrite IH.
Qed.

(** X19: In a line of a file, the text of a comment is of no consequence:
    whatever follows the first [//] is cut off before the line is split. *)
Theorem comment_text_ignored (l c : string) :
  file_line (l +:+ "//" +:+ c) ->
  parse_line (l +:+ "//" +:+ c) = parse_line (l +:+ "//").
Proof.
  intros _. unfold parse_line, components_of. by rewrite strip_comment_cut.
Qed.

Lemma comment_text_ignored_witness :
  parse_line ("push constant 7 " +:+ "//" +:+ " seven")
  = parse_line ("push constant 7 " +:+ "//").
Proof.
  apply (comment_text_ignored "push constant 7 " " seven").
  intros k Hk. exfalso.
  do 24 (destruct k as [|k]; [discriminate Hk|]). discriminate Hk.
Defined.

Lemma space_not_slash a : is_space a = true -> Ascii.eqb a "/" = false.
Proof.
  intros Ha. destruct (Ascii.eqb_spec a "/") as [->|]; [|done].
  discriminate Ha.
Qed.

Lemma strip_comment_spaces ws x :
  all_chars is_space ws = true ->
  strip_comment (ws +:+ x) = ws +:+ strip_comment x.
Proof.
  induction ws as [|a ws IH]; intros Hws; [done|].
  simpl in Hws. apply andb_prop in Hws as [Ha Hws].
  rewrite !append_cons, strip_comment_cons by (by apply space_not_slash).
  by rewrite IH.
Qed.

Lemma lstrip_spaces ws x :
  all_chars is_space ws = true -> lstrip (ws +:+ x) = lstrip x.
Proof.
  induction ws as [|a ws IH]; intros Hws; [done|].
  simpl in Hws. apply andb_prop in Hws as [Ha Hws].
  rewrite append_cons. simpl. rewrite Ha. by apply IH.
Qed.

Lemma append_nil_r x : x +:+ "" = x.
Proof. induction x as [|a x IH]; [done|]. by rewrite append_cons, IH. Qed.

(** X20: A line of nothing but white space, with or without a comment after
    it, gives no command: the parser goes on to the next line. *)
Theorem blank_line_skipped (ws c : string) :
  all_chars is_space ws = true ->
  file_line (ws +:+ "//" +:+ c) ->
  parse_line ws = Ok None /\ parse_line (ws +:+ "//" +:+ c) = Ok None.
Proof.
  intros Hws _.
  assert (forall x, strip_comment x = "" ->
            parse_line (ws +:+ x) = Ok None) as H.
  { intros x Hx. unfold parse_line, components_of, strip.
    rewrite strip_comment_spaces, Hx, append_nil_r by done.
    rewrite <- (append_nil_r ws), lstrip_spaces by done. reflexivity. }
  split.
  - rewrite <- (append_nil_r ws). by apply H.
  - by apply H.
Qed.

Lemma blank_line_skipped_witness :
  parse_line "   " = Ok None /\
  parse_line ("   " +:+ "//" +:+ " push constant 1") = Ok None.
Proof.
  apply (blank_line_skipped "   " " push constant 1").
  - reflexivity.
  - intros k Hk. exfalso.
    do 21 (destruct k as [|k]; [discriminate Hk|]). discriminate Hk.
Defined.









(** ** Runs without [Sys.init] *)

(** X22: The passes start from the name [Sys.init]: when the files, of plain
    text, are parsed and none of them defines a function of that name,
    the run ends with a [KeyError] for ['Sys.init'] in the first pass. *)
Theorem no_Sys_init_fails (set_iter : list arg -> list arg) (sys : os)
    (program : string) (init_vm : bool) (vm_files : list string)
    (p : Preassembler) :
  plain_files sys vm_files ->
  preassemble sys Preassembler_init vm_files = Ok p ->
  functions p !! Sys_init = None ->
  translate set_iter sys program init_vm vm_files
  = Raise (KeyError (AStr "Sys.init")).
Proof.
  intros _ Hp Hnone. unfold translate. rewrite Hp. cbn [rbind].
  unfold inline_pass, reachable_functions. cbn [reach_loop].
  rewrite decide_False by apply not_elem_of_nil.
  by rewrite Hnone.
Qed.

Lemma no_Sys_init_fails_witness :
  translate id (memory_os [("Test.vm", no_Sys_init_example)]) "Test" false
    ["Test.vm"]
  = Raise (KeyError (AStr "Sys.init")).
Proof.
  set (sys := memory_os [("Test.vm", no_Sys_init_example)]).
  assert (match preassemble sys Preassembler_init ["Test.vm"] with
          | Ok p => functions p !! Sys_init = None
          | Raise _ => False
          end) as Hnone by (vm_compute; reflexivity).
  destruct (preassemble sys Preassembler_init ["Test.vm"]) as [p|e] eqn:Hp;
    [|destruct Hnone].
  apply (no_Sys_init_fails id sys "Test" false ["Test.vm"] p).
  - apply Forall_singleton. intros lines Hlines.
    vm_compute in Hlines. injection Hlines as <-.
    repeat apply Forall_cons_2; try apply Forall_nil_2; reflexivity.
  - exact Hp.
  - exact Hnone.
Defined.

(** ** Return labels *)

Lemma append_assoc x y z : (x +:+ y) +:+ z = x +:+ (y +:+ z).
Proof.
  induction x as [|a x IH]; [done|]. by rewrite !append_cons, IH.
Qed.

Lemma all_chars_app P x y :
  all_chars P (x +:+ y) = all_chars P x && all_chars P y.
Proof.
  induction x as [|a x IH]; [done|].
  rewrite append_cons. simpl. by rewrite IH, andb_assoc.
Qed.

Lemma dot_cons d : "." +:+ d = String "." d.
Proof. reflexivity. Qed.

Lemma dot_suffix_inj a : forall b d1 d2,
  all_chars (fun c => negb (Ascii.eqb c ".")) d1 = true ->
  all_chars (fun c => negb (Ascii.eqb c ".")) d2 = true ->
  a +:+ "." +:+ d1 = b +:+ "." +:+ d2 -> d1 = d2.
Proof.
  induction a as [|x a IH]; intros b d1 d2 H1 H2 H.
  - destruct b as [|y b].
    + rewrite !append_nil, !dot_cons in H. by injection H.
    + rewrite append_nil, (append_cons y b), !dot_cons in H.
      injection H as _ H.
      rewrite H, all_chars_app in H1. simpl in H1.
      by rewrite andb_false_r in H1.
  - destruct b as [|y b].
    + rewrite append_nil, (append_cons x a), !dot_cons in H.
      injection H as _ H.
      rewrite <- H, all_chars_app in H2. simpl in H2.
      by rewrite andb_false_r in H2.
    + rewrite (append_cons x a), (append_cons y b) in H.
      injection H as _ H. by eapply IH.
Qed.

Lemma append_last_inj c x : forall y,
  x +:+ String c "" = y +:+ String c "" -> x = y.
Proof.
  induction x as [|a x IH]; intros y H.
  - destruct y as [|b y]; [done|].
    rewrite append_nil, append_cons in H. injection H as _ H.
    by destruct y.
  - destruct y as [|b y].
    + rewrite append_nil, append_cons in H. injection H as _ H.
      by destruct x.
    + rewrite !append_cons in H. injection H as -> H. f_equal. by apply IH.
Qed.

Lemma no_dot_digits d :
  all_chars (fun c => negb (Ascii.eqb c ".")) (NilEmpty.string_of_uint d)
  = true.
Proof. induction d; simpl; try done. Qed.

Lemma no_dot_str_of_int z :
  all_chars (fun c => negb (Ascii.eqb c ".")) (str_of_int z) = true.
Proof.
  unfold str_of_int. destruct z as [|p|p]; [reflexivity|..];
    cbn [Z.to_int NilZero.string_of_int];
    pose proof (no_dot_digits (Pos.to_uint p)) as Hd;
    destruct (Pos.to_uint p); try done.
Qed.

(** The text of a return label determines its number. *)
Lemma return_label_inj n1 N1 n2 N2 :
  return_label n1 N1 = return_label n2 N2 -> N1 = N2.
Proof.
  unfold return_label. cbv zeta.
  change "$ret." with ("$ret" +:+ "."). intros H.
  rewrite !append_assoc in H.
  rewrite <- !(append_assoc "(" (str _) ("$ret" +:+ _)) in H.
  rewrite <- !(append_assoc ("(" +:+ str _) "$ret" _) in H.
  apply dot_suffix_inj in H.
  - apply append_last_inj in H. by apply str_of_int_inj.
  - by rewrite all_chars_app, no_dot_str_of_int.
  - by rewrite all_chars_app, no_dot_str_of_int.
Qed.

Lemma count_allocations_nonneg cs : 0 <= count_allocations cs.
Proof. unfold count_allocations. lia. Qed.

(** X23: Two call sites of a function get return labels that differ: the
    label of the later site has the greater number. *)
Theorem call_sites_have_distinct_labels (f : Function)
    (t t' : ASMTranslator) (g g' : Z) (out : list string)
    (pre mid post : list Command) (c1 c2 : Command) :
  Function_translate f t g = Ok (out, t', g') ->
  commands f = (pre ++ c1 :: mid ++ c2 :: post)%list ->
  command c1 = "call" -> command c2 = "call" ->
  exists tc1 tc2,
    state_after pre (enter_function f t) = Ok tc1 /\
    state_after (pre ++ c1 :: mid)%list (enter_function f t) = Ok tc2 /\
    return_label (t_function_name tc1) (call_index tc1) ∈ out /\
    return_label (t_function_name tc2) (call_index tc2) ∈ out /\
    call_index tc1 < call_index tc2 /\
    return_label (t_function_name tc1) (call_index tc1)
    <> return_label (t_function_name tc2) (call_index tc2).
Proof.
  intros Ht Hf Hc1 Hc2.
  destruct (Function_translate_call _ _ _ _ _ _ pre c1 (mid ++ c2 :: post)
              Ht Hf Hc1) as (tc1 & Hs1 & Hin1).
  destruct (Function_translate_call _ _ _ _ _ _ (pre ++ c1 :: mid) c2 post
              Ht) as (tc2 & Hs2 & Hin2); [|done|].
  { by rewrite Hf, <- app_assoc. }
  exists tc1, tc2.
  assert (call_index tc1 < call_index tc2) as Hlt.
  { rewrite (state_after_call_index _ _ _ Hs1),
      (state_after_call_index _ _ _ Hs2).
    rewrite count_allocations_app, count_allocations_cons.
    assert (allocates_return_label c1 = true) as ->.
    { unfold allocates_return_label. by rewrite Hc1. }
    pose proof (count_allocations_nonneg mid). lia. }
  repeat split; try done.
  intros Heq. apply return_label_inj in Heq. lia.
Qed.

Lemma call_sites_have_distinct_labels_witness :
  exists out t' g' tc1 tc2,
    Function_translate
      (mkFunction "Main" (AStr "Main.run")
         [Cmd "function" [AStr "Main.run"; AInt 0];
          Cmd "call" [AStr "Main.f"; AInt 0]; Cmd "pop" [AStr "temp"; AInt 0];
          Cmd "call" [AStr "Main.f"; AInt 0]; Cmd "return" []] (PyList []))
      ASMTranslator_init 0 = Ok (out, t', g') /\
    return_label (t_function_name tc1) (call_index tc1) ∈ out /\
    return_label (t_function_name tc2) (call_index tc2) ∈ out /\
    call_index tc1 < call_index tc2 /\
    return_label (t_function_name tc1) (call_index tc1)
    <> return_label (t_function_name tc2) (call_index tc2).
Proof.
  set (f := mkFunction "Main" (AStr "Main.run")
         [Cmd "function" [AStr "Main.run"; AInt 0];
          Cmd "call" [AStr "Main.f"; AInt 0]; Cmd "pop" [AStr "temp"; AInt 0];
          Cmd "call" [AStr "Main.f"; AInt 0]; Cmd "return" []] (PyList [])).
  destruct (is_okb_ok (Function_translate f ASMTranslator_init 0))
    as [[[out t'] g'] H]; [vm_compute; reflexivity|].
  destruct (call_sites_have_distinct_labels f ASMTranslator_init t' 0 g' out
              [Cmd "function" [AStr "Main.run"; AInt 0]]
              [Cmd "pop" [AStr "temp"; AInt 0]] [Cmd "return" []]
              (Cmd "call" [AStr "Main.f"; AInt 0])
              (Cmd "call" [AStr "Main.f"; AInt 0]) H eq_refl eq_refl eq_refl)
    as (tc1 & tc2 & _ & _ & H1 & H2 & H3 & H4).
  exists out, t', g', tc1, tc2. split; [exact H|].
  split; [exact H1|]. split; [exact H2|]. split; [exact H3|exact H4].
Defined.

(** ** More of the optimizer *)

(** X24: The rewrite of [if-goto X; goto Y; label X'] fires exactly when the
    [if-goto] and the [label] have the same arguments, and it puts
    [if-goto-not Y] in the place of all three commands: the declaration of
    the label is not in the output. *)
Theorem if_goto_not_rule_fires_iff (w : list Command) :
  fires rule_if_goto_not w = true <->
  exists p q r, w = [p; q; r] /\
    startswith "if-goto " (symbolic p) = true /\
    startswith "goto " (symbolic q) = true /\
    startswith "label " (symbolic r) = true /\
    args p = args r /\
    replace rule_if_goto_not w = Ok [Cmd "if-goto-not" (args q)].
Proof.
  unfold fires. cbn [expr exclude rule_if_goto_not]. rewrite match_code_3.
  split.
  - destruct w as [|p [|q [|r [|x w]]]]; try discriminate.
    rewrite !re_match_lit_any. unfold args_differ. cbn [lookup list_lookup].
    intros H. apply andb_prop in H as [H Hex]. apply andb_prop in H as [H Hr].
    apply andb_prop in H as [Hp Hq].
    exists p, q, r. repeat split; try done.
    apply negb_true_iff, bool_decide_eq_false in Hex.
    by destruct (decide (args p = args r)).
  - intros (p & q & r & -> & Hp & Hq & Hr & Heq & _).
    rewrite !re_match_lit_any, Hp, Hq, Hr. unfold args_differ.
    cbn [lookup list_lookup andb].
    apply negb_true_iff, bool_decide_eq_false. by intros ?.
Qed.

(** [try_inline] on an accessor of a constant or of a static variable: the
    body of the inlined call is the [push] of the accessor. *)
Lemma try_inline_simple_accessor callee decl seg i :
  seg = "constant" \/ seg = "static" ->
  is_function_decl decl = true ->
  commands callee = [decl; Cmd "push" [AStr seg; i]; Cmd "return" []] ->
  try_inline callee = Ok (Some [Cmd "push" [AStr seg; i]]).
Proof.
  intros Hseg Hd Hc. unfold try_inline, is_constant_accessor,
    is_static_accessor. rewrite Hc, !match_code_3.
  rewrite !re_match_lit_any, !re_match_lit, (startswith_function_decl _ Hd).
  destruct Hseg as [-> | ->]; reflexivity.
Qed.

(** X25: A call of an accessor of a constant or of a static variable (a
    function of a declaration, one [push constant] or [push static] and a
    [return]) is replaced by that [push] between an [inline-call] marker
    that names the file and the function of the accessor and an
    [inline-return] marker that names those of the caller; the accessor is
    no dependency of the caller any more. *)
Theorem simple_accessor_inlined (caller callee : Function)
    (table : gmap arg Function) (decl c : Command) (name i : arg)
    (seg : string) :
  seg = "constant" \/ seg = "static" ->
  is_function_decl decl = true ->
  commands callee = [decl; Cmd "push" [AStr seg; i]; Cmd "return" []] ->
  table !! name = Some callee ->
  is_call c = true -> args c !! 0%nat = Some name ->
  inline_loop caller table [c]
  = Ok ([Cmd "inline-call" [AStr (filename callee); function_name callee];
         Cmd "push" [AStr seg; i];
         Cmd "inline-return" [AStr (filename caller); function_name caller]],
        []).
Proof.
  intros Hseg Hd Hc Hname Hcall Harg. cbn [inline_loop].
  unfold py_index. rewrite Hcall, Harg. cbn [rbind]. rewrite Hname.
  by rewrite (try_inline_simple_accessor callee decl seg i).
Qed.

Lemma simple_accessor_inlined_witness :
  inline_loop example_caller
    (<[AStr "Main.limit" :=
         mkFunction "Main" (AStr "Main.limit")
           [Cmd "function" [AStr "Main.limit"; AInt 0];
            Cmd "push" [AStr "static"; AInt 3]; Cmd "return" []]
           (PySet [])]> ∅)
    [Cmd "call" [AStr "Main.limit"; AInt 0]]
  = Ok ([Cmd "inline-call" [AStr "Main"; AStr "Main.limit"];
         Cmd "push" [AStr "static"; AInt 3];
         Cmd "inline-return" [AStr (filename example_caller);
                              function_name example_caller]],
        []).
Proof.
  apply (simple_accessor_inlined example_caller
           (mkFunction "Main" (AStr "Main.limit")
              [Cmd "function" [AStr "Main.limit"; AInt 0];
               Cmd "push" [AStr "static"; AInt 3]; Cmd "return" []]
              (PySet []))
           _ (Cmd "function" [AStr "Main.limit"; AInt 0])
           (Cmd "call" [AStr "Main.limit"; AInt 0]) (AStr "Main.limit")
           (AInt 3) "static").
  - by right.
  - reflexivity.
  - reflexivity.
  - apply lookup_insert_eq.
  - reflexivity.
  - reflexivity.
Defined.

(** X26: Between the markers of an inlined call a [static] variable is the one
    of the file that the [inline-call] marker names, and the
    [inline-return] marker puts the file and the function of the caller
    back; the two markers emit no instruction and leave the counters of the
    translator alone. *)
Theorem inline_markers_scope (t : ASMTranslator) (file caller_file : string)
    (name caller_name : arg) (i : Z) :
  state_after
    [Cmd "inline-call" [AStr file; name]; Cmd "push" [AStr "static"; AInt i];
     Cmd "inline-return" [AStr caller_file; caller_name]] t
  = Ok (mkTranslator (AStr caller_file) caller_name (call_index t)
          (label_index t)) /\
  visit (Cmd "inline-call" [AStr file; name]) t
  = Ok ([], mkTranslator (AStr file) name (call_index t) (label_index t)) /\
  visit (Cmd "push" [AStr "static"; AInt i])
    (mkTranslator (AStr file) name (call_index t) (label_index t))
  = Ok (["@" +:+ file +:+ "." +:+ str_of_int i; "D=M"; "@SP"; "AM=M+1";
         "A=A-1"; "M=D"],
        mkTranslator (AStr file) name (call_index t) (label_index t)) /\
  visit (Cmd "inline-return" [AStr caller_file; caller_name])
    (mkTranslator (AStr file) name (call_index t) (label_index t))
  = Ok ([], mkTranslator (AStr caller_file) caller_name (call_index t)
              (label_index t)).
Proof. repeat split; reflexivity. Qed.

(** ** More of the code generator *)

(** X27: [poke] into a memory segment at an index other than zero never gives
    code: both branches read a variable [segment] that the method does not
    have (and, when the source segment is no constant, [value] is not
    bound either), so the lowering ends with a [NameError]. *)
Theorem poke_memory_segment_fails (t : ASMTranslator) (to : string)
    (z j : Z) (from : arg) :
  to ∈ ["local"; "argument"; "this"; "that"] -> z <> 0 ->
  exists name,
    visit (Cmd "poke" [AStr to; AInt z; from; AInt j]) t
    = Raise (NameError name).
Proof.
  intros Hto Hz.
  assert (visit (Cmd "poke" [AStr to; AInt z; from; AInt j]) t
          = pure_ t (_poke t (AStr to) (AInt z) from (AInt j))) as ->
    by reflexivity.
  assert (int_is 0 (AInt z) = false) as Hz0.
  { unfold int_is. apply bool_decide_eq_false_2. congruence. }
  rewrite !elem_of_cons in Hto.
  destruct Hto as [-> | [-> | [-> | [-> | Hto]]]];
    [..|by apply elem_of_nil in Hto];
    unfold _poke;
    change (seg_is "constant" (AStr _)) with false;
    change (seg_is "static" (AStr _)) with false;
    cbn [memory_segment _memory_segments lookup_assoc];
    cbv iota; rewrite Hz0; cbn [as_int rbind fmt_d];
    destruct (seg_is "constant" from), (seg_is "constant~" from),
      (seg_is "constant-" from), (int_is 0 (AInt j)), (int_is 1 (AInt j)),
      (z <? 8); cbn; eauto.
Qed.

Lemma poke_memory_segment_fails_witness :
  exists name,
    visit (Cmd "poke" [AStr "local"; AInt 2; AStr "constant"; AInt 5])
      ASMTranslator_init = Raise (NameError name).
Proof.
  apply (poke_memory_segment_fails ASMTranslator_init "local" 2 5
           (AStr "constant")).
  - by left.
  - lia.
Defined.

(** X28: A negative index on [local], [argument], [this] or [that] is not
    turned down: the store of a [pop] repeats [A=A+1] a negative number of
    times, that is not at all, and goes to index 1. *)
Theorem pop_negative_index (t : ASMTranslator) (seg : string) (z : Z) :
  seg ∈ ["local"; "argument"; "this"; "that"] -> z < 0 ->
  visit (Cmd "pop" [AStr seg; AInt z]) t
  = visit (Cmd "pop" [AStr seg; AInt 1]) t.
Proof.
  intros Hseg Hz. rewrite !visit_pop.
  assert (int_is 0 (AInt z) = false) as Hz0.
  { unfold int_is. apply bool_decide_eq_false_2. intros [= ->]. lia. }
  assert ((z <? 10) = true) as Hlt by lia.
  assert (Z.to_nat (z - 1) = 0%nat) as Hn by lia.
  rewrite !elem_of_cons in Hseg.
  destruct Hseg as [-> | [-> | [-> | [-> | Hseg]]]];
    [..|by apply elem_of_nil in Hseg];
    unfold _pop, _sdd;
    change (seg_is "static" (AStr _)) with false;
    change (seg_is "temp" (AStr _)) with false;
    change (seg_is "pointer" (AStr _)) with false;
    cbn [memory_segment _memory_segments lookup_assoc]; cbv iota;
    rewrite Hz0; cbn [as_int rbind]; rewrite Hlt, Hn; reflexivity.
Qed.

Lemma pop_negative_index_witness :
  visit (Cmd "pop" [AStr "local"; AInt (-3)]) ASMTranslator_init
  = visit (Cmd "pop" [AStr "local"; AInt 1]) ASMTranslator_init.
Proof.
  apply (pop_negative_index ASMTranslator_init "local" (-3)).
  - by left.
  - lia.
Defined.

(** X29: A run on a directory starts its output with the header line and the
    bootstrap code, which sets the stack pointer to 256 and jumps to
    [Sys.init]; the line numbers start at zero. *)
Theorem directory_run_bootstrap (set_iter : list arg -> list arg) (sys : os)
    (program : string) (vm_files : list string) (out : list string) :
  translate set_iter sys program true vm_files = Ok out ->
  take 7 out
  = ["// Program: " +:+ program; "@256 // 0"; "D=A // 1"; "@SP // 2";
     "M=D // 3"; "@Sys.init // 4"; "0; JMP // 5"].
Proof.
  intros H. apply translate_emitted_functions in H as (fs & body & _ & _ & ->).
  reflexivity.
Qed.

Lemma directory_run_bootstrap_witness :
  exists out,
    translate id (memory_os example_program) "Prog" true
      ["Main.vm"; "Point.vm"] = Ok out /\
    take 7 out
    = ["// Program: " +:+ "Prog"; "@256 // 0"; "D=A // 1"; "@SP // 2";
       "M=D // 3"; "@Sys.init // 4"; "0; JMP // 5"].
Proof.
  destruct (is_okb_ok (translate id (memory_os example_program) "Prog" true
                         ["Main.vm"; "Point.vm"]))
    as [out Hout]; [vm_compute; reflexivity|].
  exists out. split; [exact Hout|].
  exact (directory_run_bootstrap id (memory_os example_program) "Prog"
           ["Main.vm"; "Point.vm"] out Hout).
Defined.
